(** * lite-lamport: a Lamport one-time signature library

    A shallow embedding of [index.js] (class [LiteLamport]) and the
    properties of key generation, signing, verification and the
    key and signature codecs.

    JavaScript arrays are heap objects: the store is modelled explicitly,
    because [verify] reverses and pops an array in place and the
    ['object'] formats hand the caller's own array to the library.  An
    array of the store may have holes, as [new Array(n)] and [[ , ]] do:
    [every] and [map] skip a hole, while an index, [pop], the spread
    syntax and [for ... of] read [undefined] there.  An array that a
    method builds and keeps to itself (the bit arrays, the list of buffers
    to concatenate, the array between [map] and [filter]) has no hole and
    is a list.  Strings and Buffers are never written by this code and are
    values; a string is a sequence of characters with codes below 256.

    The collaborators ([./sha256], [./hmac-sha256], [randombytes]) and the
    platform (Buffer text encodings, JSON, the text of a number) are
    parameters; what is assumed of them is stated where it is used. *)

From Stdlib Require Import ZArith Lia String Ascii List DecimalString.
From Stdlib.Strings Require Import Byte.
From Stdlib Require DecimalZ DecimalPos.
From stdpp Require Import prelude strings.

(** ** Constants of [index.js] *)

Definition CHECKSUM_BYTE_SIZE : nat := 1.
Definition KEY_SIG_ENTRY_COUNT : nat := 264.
Definition HASH_ELEMENT_BYTE_SIZE : nat := 32.
Definition SEED_BYTE_SIZE : nat := 32.

(** ** Node's Buffer text encodings

    [Buffer.from(str, enc)], [buf.toString(enc)] and
    [Buffer.byteLength(str, enc)] belong to the platform.  An encoding is
    the triple of these functions. *)

Record TextCodec : Type := {
  Buffer_from : string -> list byte;
  Buffer_toString : list byte -> string;
  Buffer_byteLength : string -> nat
}.

(** What the library relies on for an encoding used as [hashEncoding]:
    text made from bytes parses back to the same bytes, its byte length is
    the number of bytes, and the empty string has no bytes.  Holds of
    ['hex'], ['base64'] and ['latin1']; fails for ['utf8'] and ['ascii']. *)
Record Lossless (c : TextCodec) : Prop := {
  from_toString : forall b, Buffer_from c (Buffer_toString c b) = b;
  byteLength_toString : forall b, Buffer_byteLength c (Buffer_toString c b) = length b;
  byteLength_empty : Buffer_byteLength c "" = 0
}.

(** ['latin1']: one character per byte. *)
Definition latin1 : TextCodec := {|
  Buffer_from := list_byte_of_string;
  Buffer_toString := string_of_list_byte;
  Buffer_byteLength := String.length
|}.

(** ['hex']: two digits per byte; parsing accepts both letter cases and
    stops at the first pair that is not two hex digits; printing is lower
    case; the byte length is half the string length, whatever the
    characters are. *)
Definition hexDigitValue (c : ascii) : option N :=
  let n := N_of_ascii c in
  if ((48 <=? n) && (n <=? 57))%N then Some (n - 48)%N
  else if ((97 <=? n) && (n <=? 102))%N then Some (n - 87)%N
  else if ((65 <=? n) && (n <=? 70))%N then Some (n - 55)%N
  else None.

Definition hexDigit (n : N) : ascii :=
  if (n <? 10)%N then ascii_of_N (48 + n) else ascii_of_N (87 + n).

Fixpoint hexParse (s : string) : list byte :=
  match s with
  | String hi (String lo rest) =>
      match hexDigitValue hi, hexDigitValue lo with
      | Some h, Some l =>
          match Byte.of_N (16 * h + l) with
          | Some b => b :: hexParse rest
          | None => []
          end
      | _, _ => []
      end
  | _ => []
  end.

Fixpoint hexPrint (b : list byte) : string :=
  match b with
  | [] => ""
  | x :: rest =>
      String (hexDigit (Byte.to_N x / 16))
        (String (hexDigit (Byte.to_N x mod 16)) (hexPrint rest))
  end.

Definition hex : TextCodec := {|
  Buffer_from := hexParse;
  Buffer_toString := hexPrint;
  Buffer_byteLength := fun s => String.length s / 2
|}.

(** ** Bits of a buffer *)

Definition byteValue (b : byte) : Z := Z.of_N (Byte.to_N b).

(** The byte a Buffer stores for a number: [value & 255]. *)
Definition byteOfNumber (value : Z) : byte :=
  match Byte.of_N (Z.to_N (Z.land value 255)) with
  | Some b => b
  | None => x00
  end.

(** [Buffer.alloc(size).fill(value)] *)
Definition Buffer_alloc_fill (size : nat) (value : Z) : list byte :=
  replicate size (byteOfNumber value).

(** [convertBufferToBitArray]: for each byte, [byte >> (7 - i) & 1] for
    i = 0..7. *)
Definition convertBufferToBitArray (buffer : list byte) : list Z :=
  flat_map (fun b =>
    map (fun i : nat => Z.land (Z.shiftr (byteValue b) (7 - Z.of_nat i)) 1) (seq 0 8))
    buffer.

(** ** JavaScript values and the store *)

(** Primitive values. *)
Inductive prim : Type :=
| PUndefined
| PNull
| PBool (b : bool)
| PNum (n : Z)
| PStr (s : string).

(** Data: what an array holds and what [JSON.parse] returns.  An array
    nested inside another is kept by value, a hole of it as the
    [undefined] that every reader of a nested array ([typeof],
    [JSON.stringify], [Buffer.from]) finds there; the library never writes
    through an item. *)
#[warnings="-register-all"] Inductive jsval : Type :=
| VPrim (p : prim)
| VArr (items : list jsval).

Abbreviation VStr s := (VPrim (PStr s)).
Abbreviation undefined := (VPrim PUndefined).
Abbreviation null := (VPrim PNull).

(** Arrays are objects in the store; a location is an index in it.  An
    array is the list of its slots, as many as its [length]; a slot holds
    an item or is a hole ([None]). *)
Abbreviation loc := nat (only parsing).
Abbreviation slot := (option jsval) (only parsing).
Abbreviation heap := (list (list slot)).

(** What reading a slot gives: [undefined] at a hole. *)
Definition slotValue (s : slot) : jsval := default undefined s.

(** [array[index]] as a value: [undefined] at a hole and out of range. *)
Definition itemAt (items : list slot) (index : nat) : jsval :=
  match items !! index with
  | Some s => slotValue s
  | None => undefined
  end.

(** What a variable or an argument holds: a primitive, or a reference to
    an array. *)
Inductive ref : Type :=
| RPrim (p : prim)
| RArr (l : loc).

(** Truthiness, as tested by [bit ? _ : _] and [filter(item => item)]. *)
Definition truthy (v : jsval) : bool :=
  match v with
  | VPrim PUndefined | VPrim PNull => false
  | VPrim (PBool b) => b
  | VPrim (PNum n) => negb (n =? 0)%Z
  | VPrim (PStr s) => negb (String.eqb s "")
  | VArr _ => true
  end.

(** Errors, one per [throw] of the source and per platform failure. *)
Inductive error : Type :=
| SeedTooShort            (* 'did not meet the minimum seed length requirement' *)
| KeyNotArray             (* 'The specified key was in an invalid format' *)
| KeyInvalidLength        (* 'The specified key had an invalid length - Contained' *)
| KeyInvalidItems         (* 'The specified key contained invalid items' *)
| SignatureNotArray       (* 'The specified signature was in an invalid format' *)
| SignatureInvalidLength  (* 'The specified signature had an invalid length' *)
| SignatureInvalidItems   (* 'The specified signature contained invalid items' *)
| KeyInvalidByteLength    (* '... Was n but expected 8448 bytes' *)
| SignatureTooManyBytes   (* '... but expected no more than 8448 bytes' *)
| SignatureNotMultiple    (* '... expected it to be a multiple of 32' *)
| SyntaxError             (* JSON.parse *)
| TypeError.              (* a platform call on a value of the wrong type *)

Inductive res (A : Type) : Type :=
| Ok (a : A)
| Throw (e : error).
Arguments Ok {A} a.
Arguments Throw {A} e.

(** Computations: they read and write the store and may throw.  The store
    written before a throw stays written. *)
Definition M (A : Type) : Type := heap -> res A * heap.

Definition ret {A} (a : A) : M A := fun h => (Ok a, h).
Definition throw {A} (e : error) : M A := fun h => (Throw e, h).
Definition bind {A B} (m : M A) (k : A -> M B) : M B :=
  fun h => match m h with
           | (Ok a, h') => k a h'
           | (Throw e, h') => (Throw e, h')
           end.
(** [try { m } catch (error) { ... }]: the outcome of [m] as a value. *)
Definition attempt {A} (m : M A) : M (res A) :=
  fun h => let (r, h') := m h in (Ok r, h').

Notation "'let!' x ':=' m 'in' k" := (bind m (fun x => k))
  (at level 10, x pattern, m at level 100, k at level 200).
Notation "m ;; k" := (bind m (fun _ => k))
  (at level 100, k at level 200, right associativity).

(** Monadic map over a list, left to right. *)
Fixpoint mapM {A B} (f : A -> M B) (xs : list A) : M (list B) :=
  match xs with
  | [] => ret []
  | x :: rest => let! y := f x in let! ys := mapM f rest in ret (y :: ys)
  end.

(** *** Array operations *)

(** A new array object. *)
Definition alloc (items : list slot) : M loc :=
  fun h => (Ok (length h), h ++ [items]).

(** The contents of an array.  A location outside the store is not a
    JavaScript value; reading through it is a [TypeError]. *)
Definition load (l : loc) : M (list slot) :=
  fun h => match h !! l with
           | Some items => (Ok items, h)
           | None => (Throw TypeError, h)
           end.

Definition store (l : loc) (items : list slot) : M unit :=
  fun h => (Ok tt, <[l:=items]> h).

(** The array behind a reference that is used as an array. *)
Definition loadRef (r : ref) : M (list slot) :=
  match r with
  | RArr l => load l
  | RPrim _ => throw TypeError
  end.

(** [array.reverse()]: in place, holes included; the result is the same
    object. *)
Definition Array_reverse (r : ref) : M ref :=
  match r with
  | RArr l => let! items := load l in store l (reverse items) ;; ret r
  | RPrim _ => throw TypeError
  end.

(** [array.length] *)
Definition Array_length (r : ref) : M nat :=
  let! items := loadRef r in ret (length items).

(** [array.pop()]: removes the last slot and returns what it held,
    [undefined] for a hole; [undefined] on an empty array. *)
Definition Array_pop (r : ref) : M jsval :=
  match r with
  | RArr l =>
      let! items := load l in
      match last items with
      | Some s => store l (take (length items - 1) items) ;; ret (slotValue s)
      | None => ret undefined
      end
  | RPrim _ => throw TypeError
  end.

(** [array[index]]: [undefined] at a hole and out of range. *)
Definition Array_get (r : ref) (index : nat) : M jsval :=
  let! items := loadRef r in ret (itemAt items index).

(** [array.every(callback)] with a callback that reads nothing but its
    item: holes are skipped. *)
Definition Array_every (callback : jsval -> bool) (items : list slot) : bool :=
  forallb (fun s => match s with Some item => callback item | None => true end) items.

(** [array.map(callback)]: a new array of the same length; the callback
    runs on the items in index order and a hole stays a hole. *)
Definition Array_map (callback : jsval -> M jsval) (r : ref) : M ref :=
  match r with
  | RArr l =>
      let! items := load l in
      let! mapped :=
        mapM (fun s : slot =>
                match s with
                | Some item => let! v := callback item in ret (Some v)
                | None => ret None
                end) items in
      let! result := alloc mapped in
      ret (RArr result)
  | RPrim _ => throw TypeError
  end.

(** What an iteration ([for ... of], the spread syntax) yields: the slots
    of an array in order, [undefined] at a hole; the characters of a
    string; the other primitives cannot be iterated. *)
Definition iterate (r : ref) : M (list jsval) :=
  match r with
  | RArr l => let! items := load l in ret (slotValue <$> items)
  | RPrim (PStr s) => ret ((fun c => VStr (String c EmptyString)) <$> list_ascii_of_string s)
  | RPrim _ => throw TypeError
  end.

(** [[...array]]: a new array without holes, made of what the iteration
    yields. *)
Definition Array_spread (r : ref) : M ref :=
  let! values := iterate r in let! l := alloc (Some <$> values) in ret (RArr l).

(** The object a parsed value is: an array is a new object, without
    holes. *)
Definition newValue (v : jsval) : M ref :=
  match v with
  | VPrim p => ret (RPrim p)
  | VArr items => let! l := alloc (Some <$> items) in ret (RArr l)
  end.

(** ** Key and signature formats *)

(** [keyFormat] and [signatureFormat]: ['object'], ['json'], ['buffer'], or
    the name of a text encoding. *)
Inductive format : Type :=
| Fobject
| Fjson
| Fbuffer
| Fcharset (c : TextCodec).

(** The encoded form a format exchanges with the caller: any value under
    ['object'], text under ['json'] and a text encoding, bytes under
    ['buffer'].  An argument of another type than its format expects is
    outside the model. *)
Definition encodedT (f : format) : Type :=
  match f with
  | Fobject => ref
  | Fjson => string
  | Fbuffer => list byte
  | Fcharset _ => string
  end.


(** ** The class [LiteLamport] *)

Record KeyPair (f : format) : Type := {
  privateKey : encodedT f;
  publicKey : encodedT f
}.
Arguments privateKey {f} _.
Arguments publicKey {f} _.

Section LiteLamport.

(** [Buffer.from(array)] of the platform: one byte for each item, the
    item as a number modulo 256. *)
Variable Buffer_fromArray : list jsval -> list byte.

(** Collaborators: [./sha256], [./hmac-sha256], [randombytes] and the
    platform's JSON.  [sha256 message encoding] is the digest of
    [message] as text in [encoding];
    [hmacSha256 key keyEncoding message encoding] likewise;
    [randomBytes n size] is the n-th draw of the call, of [size] bytes;
    [JSON_parse] is [None] on a syntax error. *)
Variable sha256 : string -> TextCodec -> string.
Variable hmacSha256 : string -> TextCodec -> string -> TextCodec -> string.
Variable randomBytes : nat -> nat -> list byte.
Variable JSON_stringify : jsval -> string.
Variable JSON_parse : string -> option jsval.

(** The text of a number in a template literal. *)
Variable Number_toString : Z -> string.

(** The options fixed by the constructor. *)
Variable keyFormat : format.
Variable signatureFormat : format.
Variable hashEncoding : TextCodec.
Variable seedEncoding : TextCodec.

(** [typeof item === 'string' &&
     Buffer.byteLength(item, this.hashEncoding) === HASH_ELEMENT_BYTE_SIZE] *)
Definition validItem (item : jsval) : bool :=
  match item with
  | VStr s => Buffer_byteLength hashEncoding s =? HASH_ELEMENT_BYTE_SIZE
  | _ => false
  end.

Definition _validateRawKeyFormat (key : ref) : M unit :=
  match key with
  | RPrim _ => throw KeyNotArray
  | RArr l =>
      let! items := load l in
      if negb (length items =? KEY_SIG_ENTRY_COUNT) then throw KeyInvalidLength
      else
        let areAllItemsValid := Array_every validItem items in
        if negb areAllItemsValid then throw KeyInvalidItems
        else ret tt
  end.

Definition _validateRawSignatureFormat (signature : ref) : M unit :=
  match signature with
  | RPrim _ => throw SignatureNotArray
  | RArr l =>
      let! items := load l in
      if KEY_SIG_ENTRY_COUNT <? length items then throw SignatureInvalidLength
      else
        let areAllItemsValid := Array_every validItem items in
        if negb areAllItemsValid then throw SignatureInvalidItems
        else ret tt
  end.

(** [Buffer.from(item, this.hashEncoding)] on what an iteration yields: the
    bytes of a string in the hash encoding; for an array the bytes of its
    items, the encoding being ignored; a [TypeError] for [undefined],
    [null], a boolean and a number. *)
Definition itemToBuffer (item : jsval) : M (list byte) :=
  match item with
  | VStr s => ret (Buffer_from hashEncoding s)
  | VArr items => ret (Buffer_fromArray items)
  | VPrim _ => throw TypeError
  end.

Definition _encodeKeyToBuffer (rawKey : ref) : M (list byte) :=
  let! items := iterate rawKey in
  let! bufferArray := mapM itemToBuffer items in
  ret (concat bufferArray).

(** The loop of the two buffer decoders: entry i is
    [slice(i * 32, i * 32 + 32).toString(hashEncoding)]. *)
Definition sliceEntries (encoded : list byte) (entryCount : nat) : list slot :=
  map (fun i =>
         let byteOffset := i * HASH_ELEMENT_BYTE_SIZE in
         let bufferItem := take HASH_ELEMENT_BYTE_SIZE (drop byteOffset encoded) in
         Some (VStr (Buffer_toString hashEncoding bufferItem)))
      (seq 0 entryCount).

Definition _decodeKeyFromBuffer (encodedKey : list byte) : M ref :=
  let expectedByteSize := KEY_SIG_ENTRY_COUNT * HASH_ELEMENT_BYTE_SIZE in
  if negb (length encodedKey =? expectedByteSize) then throw KeyInvalidByteLength
  else
    let entryCount := length encodedKey / HASH_ELEMENT_BYTE_SIZE in
    let! key := alloc (sliceEntries encodedKey entryCount) in
    ret (RArr key).

Definition _encodeSignatureToBuffer (rawSignature : ref) : M (list byte) :=
  let! items := iterate rawSignature in
  let! bufferArray := mapM itemToBuffer items in
  ret (concat bufferArray).

Definition _decodeSignatureFromBuffer (encodedSignature : list byte) : M ref :=
  let maxExpectedByteSize := KEY_SIG_ENTRY_COUNT * HASH_ELEMENT_BYTE_SIZE in
  if maxExpectedByteSize <? length encodedSignature then throw SignatureTooManyBytes
  else if negb (length encodedSignature mod HASH_ELEMENT_BYTE_SIZE =? 0)
  then throw SignatureNotMultiple
  else
    let entryCount := length encodedSignature / HASH_ELEMENT_BYTE_SIZE in
    let! signatureArray := alloc (sliceEntries encodedSignature entryCount) in
    ret (RArr signatureArray).

(** [JSON.parse(text)]: a syntax error, or the parsed value as a new
    object. *)
Definition parseJSON (text : string) : M ref :=
  match JSON_parse text with
  | None => throw SyntaxError
  | Some v => newValue v
  end.

(** [JSON.stringify(raw)]: of an array in the store, with [undefined]
    for a hole (both are printed as [null]). *)
Definition stringifyJSON (raw : ref) : M string :=
  match raw with
  | RPrim p => ret (JSON_stringify (VPrim p))
  | RArr l => let! items := load l in ret (JSON_stringify (VArr (slotValue <$> items)))
  end.

(** The closures installed by the constructor. *)
Definition encodeKey (rawKey : ref) : M (encodedT keyFormat) :=
  match keyFormat as f return M (encodedT f) with
  | Fobject => ret rawKey
  | Fjson => stringifyJSON rawKey
  | Fbuffer => _encodeKeyToBuffer rawKey
  | Fcharset c =>
      let! buffer := _encodeKeyToBuffer rawKey in
      ret (Buffer_toString c buffer)
  end.

Definition decodeKey : encodedT keyFormat -> M ref :=
  match keyFormat as f return encodedT f -> M ref with
  | Fobject => fun encodedKey =>
      _validateRawKeyFormat encodedKey ;; ret encodedKey
  | Fjson => fun encodedKey =>
      let! decodedKey := parseJSON encodedKey in
      _validateRawKeyFormat decodedKey ;; ret decodedKey
  | Fbuffer => fun encodedKey => _decodeKeyFromBuffer encodedKey
  | Fcharset c => fun encodedKey =>
      let keyBuffer := Buffer_from c encodedKey in
      _decodeKeyFromBuffer keyBuffer
  end.

Definition encodeSignature (rawSignature : ref) : M (encodedT signatureFormat) :=
  match signatureFormat as f return M (encodedT f) with
  | Fobject => ret rawSignature
  | Fjson => stringifyJSON rawSignature
  | Fbuffer => _encodeSignatureToBuffer rawSignature
  | Fcharset c =>
      let! buffer := _encodeSignatureToBuffer rawSignature in
      ret (Buffer_toString c buffer)
  end.

Definition decodeSignature : encodedT signatureFormat -> M ref :=
  match signatureFormat as f return encodedT f -> M ref with
  | Fobject => fun encodedSignature =>
      _validateRawSignatureFormat encodedSignature ;; Array_spread encodedSignature
  | Fjson => fun encodedSignature =>
      let! decodedSignature := parseJSON encodedSignature in
      _validateRawSignatureFormat decodedSignature ;; ret decodedSignature
  | Fbuffer => fun encodedSignature => _decodeSignatureFromBuffer encodedSignature
  | Fcharset c => fun encodedSignature =>
      let signatureBuffer := Buffer_from c encodedSignature in
      _decodeSignatureFromBuffer signatureBuffer
  end.

(** [this.sha256(item, this.hashEncoding)] on an array item; the
    collaborator hashes strings, and a call with another value, as
    [undefined], ends in a [TypeError]. *)
Definition hashItem (item : jsval) : M string :=
  match item with
  | VStr s => ret (sha256 s hashEncoding)
  | _ => throw TypeError
  end.

Definition generateSeed : string :=
  Buffer_toString seedEncoding (randomBytes 0 SEED_BYTE_SIZE).

(** [privateKeyRaw.map(encodedString => this.sha256(encodedString, ...))] *)
Definition getRawPublicKeyFromRawPrivateKey (privateKeyRaw : ref) : M ref :=
  Array_map (fun encodedString =>
               let! hash := hashItem encodedString in ret (VStr hash))
            privateKeyRaw.

Definition getPublicKeyFromPrivateKey (privateKey : encodedT keyFormat)
  : M (encodedT keyFormat) :=
  let! privateKeyRaw := decodeKey privateKey in
  let! publicKeyRaw := getRawPublicKeyFromRawPrivateKey privateKeyRaw in
  encodeKey publicKeyRaw.

Definition generateRandomArray (length elementBytes : nat) : M ref :=
  let! randomArray :=
    alloc (map (fun i =>
                  Some (VStr (Buffer_toString hashEncoding (randomBytes i elementBytes))))
               (seq 0 length)) in
  ret (RArr randomArray).

(** [`${suffix}-${i}`] *)
Definition seedMessage (suffix : Z) (i : nat) : string :=
  Number_toString suffix +:+ "-" +:+ Number_toString (Z.of_nat i).

Definition generateRandomArrayFromSeed (length : nat) (seed : string) (suffix : Z)
  : M ref :=
  let! randomArray :=
    alloc (map (fun i =>
                  Some (VStr (hmacSha256 seed seedEncoding (seedMessage suffix i)
                                hashEncoding)))
               (seq 0 length)) in
  ret (RArr randomArray).

(** [index] is [None] for a call without index ([index == null]). *)
Definition generateKeysFromSeed (seed : string) (index : option Z)
  : M (KeyPair keyFormat) :=
  let seedBuffer := Buffer_from seedEncoding seed in
  if length seedBuffer <? SEED_BYTE_SIZE then throw SeedTooShort
  else
    let index := default 0%Z index in
    let! privateKey := generateRandomArrayFromSeed KEY_SIG_ENTRY_COUNT seed index in
    let! publicKey := getRawPublicKeyFromRawPrivateKey privateKey in
    let! encodedPrivateKey := encodeKey privateKey in
    let! encodedPublicKey := encodeKey publicKey in
    ret {| privateKey := encodedPrivateKey; publicKey := encodedPublicKey |}.

Definition generateKeys : M (KeyPair keyFormat) :=
  let! privateKey := generateRandomArray KEY_SIG_ENTRY_COUNT HASH_ELEMENT_BYTE_SIZE in
  let! publicKey := getRawPublicKeyFromRawPrivateKey privateKey in
  let! encodedPrivateKey := encodeKey privateKey in
  let! encodedPublicKey := encodeKey publicKey in
  ret {| privateKey := encodedPrivateKey; publicKey := encodedPublicKey |}.

Definition convertEncodedStringToBitArray (encodedString : string) : list Z :=
  let buffer := Buffer_from hashEncoding encodedString in
  convertBufferToBitArray buffer.

(** [messageBitArray.reduce((total, bit) => total + (bit ^ 1), 0)] *)
Definition checksumOf (messageBitArray : list Z) : Z :=
  fold_left (fun total bit => (total + Z.lxor bit 1)%Z) messageBitArray 0%Z.

(** The statements shared by [sign] and [verify]: the checksum is
    computed, stored in a one-byte buffer, and its bits are pushed onto
    the message bits. *)
Definition appendChecksum (messageBitArray : list Z) : list Z :=
  let checksum := checksumOf messageBitArray in
  let checksumBuffer := Buffer_alloc_fill CHECKSUM_BYTE_SIZE checksum in
  let checksumBitArray := convertBufferToBitArray checksumBuffer in
  messageBitArray ++ checksumBitArray.

Definition messageBits (message : string) : list Z :=
  let messageHash := sha256 message hashEncoding in
  let messageBitArray := convertEncodedStringToBitArray messageHash in
  appendChecksum messageBitArray.

(** [messageBitArray.map((bit, index) => bit ? privateKeyRaw[index] : null)
      .filter(item => item)] *)
Definition selectEntries (messageBitArray : list Z) (privateKeyItems : list slot)
  : list jsval :=
  List.filter truthy
    (imap (fun index bit =>
             if (bit =? 0)%Z then null
             else itemAt privateKeyItems index)
          messageBitArray).

Definition sign (message : string) (privateKey : encodedT keyFormat)
  : M (encodedT signatureFormat) :=
  let! privateKeyRaw := decodeKey privateKey in
  let messageBitArray := messageBits message in
  let! privateKeyItems := loadRef privateKeyRaw in
  let! signature := alloc (Some <$> selectEntries messageBitArray privateKeyItems) in
  encodeSignature (RArr signature).

(** [signatureItemHash === targetPublicKeyItem] *)
Definition strictEqualString (s : string) (v : jsval) : bool :=
  match v with
  | VStr t => String.eqb s t
  | _ => false
  end.

(** The callback of [messageBitArray.every] in [verify]. *)
Definition verifyBit (invertedSignatureRaw publicKeyRaw : ref) (bit : Z) (index : nat)
  : M bool :=
  if (bit =? 0)%Z then ret true
  else
    let! remaining := Array_length invertedSignatureRaw in
    if remaining =? 0 then ret false
    else
      let! nextSignatureItem := Array_pop invertedSignatureRaw in
      let! signatureItemHash := hashItem nextSignatureItem in
      let! targetPublicKeyItem := Array_get publicKeyRaw index in
      ret (strictEqualString signatureItemHash targetPublicKeyItem).

(** [array.every(callback)]: in index order, stopping at the first
    [false]. *)
Fixpoint every (callback : Z -> nat -> M bool) (bits : list Z) (index : nat) : M bool :=
  match bits with
  | [] => ret true
  | bit :: rest =>
      let! ok := callback bit index in
      if ok then every callback rest (S index) else ret false
  end.

Definition verify (message : string) (signature : encodedT signatureFormat)
           (publicKey : encodedT keyFormat) : M bool :=
  let! decoded :=
    attempt (let! signatureRaw := decodeSignature signature in
             let! publicKeyRaw := decodeKey publicKey in
             ret (signatureRaw, publicKeyRaw)) in
  match decoded with
  | Throw _ => ret false
  | Ok (signatureRaw, publicKeyRaw) =>
      let! invertedSignatureRaw := Array_reverse signatureRaw in
      let messageBitArray := messageBits message in
      every (verifyBit invertedSignatureRaw publicKeyRaw) messageBitArray 0
  end.

End LiteLamport.

(** * Notions used to state the properties *)

(** A computation that only creates objects: the store it leaves extends
    the store it found. *)
Definition allocOnly {A} (m : M A) : Prop :=
  forall h r h', m h = (r, h') -> h `prefix_of` h'.

(** A computation that creates no object and writes the array [ls]
    only, whatever its outcome. *)
Definition writesOnly {A} (ls : loc) (m : M A) : Prop :=
  forall h r h', m h = (r, h') ->
    length h' = length h /\ forall l, l <> ls -> h' !! l = h !! l.

(** The array without holes that a list of strings is, and its items as
    values. *)
Definition strings (entries : list string) : list slot :=
  (fun s => Some (VStr s)) <$> entries.

Definition stringValues (entries : list string) : list jsval :=
  (fun s => VStr s) <$> entries.

(** The caller's array an encoded argument is, if it is one. *)
Definition argLoc (f : format) : encodedT f -> option loc :=
  match f as f return encodedT f -> option loc with
  | Fobject => fun e => match e with RArr l => Some l | RPrim _ => None end
  | _ => fun _ => None
  end.

(** An argument is a value of the store: its array, if any, exists. *)
Definition live (f : format) (h : heap) (e : encodedT f) : Prop :=
  match argLoc f e with
  | Some l => l < length h
  | None => True
  end.

(** An entry in canonical form: the text of a 32-byte value. *)
Definition canonical (hashEncoding : TextCodec) (s : string) : Prop :=
  exists b, length b = HASH_ELEMENT_BYTE_SIZE /\ s = Buffer_toString hashEncoding b.

(** An entry a decoder lets through: a string of byte length 32 for the
    validators, the text of a 32-byte slice for the buffer decoders. *)
Definition decodedEntry (hashEncoding : TextCodec) (s : string) : Prop :=
  Buffer_byteLength hashEncoding s = HASH_ELEMENT_BYTE_SIZE \/ canonical hashEncoding s.

Definition isBit (b : Z) : Prop := b = 0%Z \/ b = 1%Z.

(** The number of 1-bits and of 0-bits of a bit sequence. *)
Definition popcount (bits : list Z) : nat :=
  length (List.filter (fun b => (b =? 1)%Z) bits).

Definition zeroCount (bits : list Z) : Z :=
  Z.of_nat (length (List.filter (fun b => (b =? 0)%Z) bits)).

(** The eight bits of a byte value, most significant first. *)
Definition msbFirstBits (v : Z) : list Z :=
  map (fun i : nat => ((v / 2 ^ (7 - Z.of_nat i)) mod 2)%Z) (seq 0 8).

(** The key entries at the positions of the 1-bits, in index order. *)
Fixpoint entriesAtOneBits (bits : list Z) (key : list string) : list string :=
  match bits, key with
  | bit :: bits', entry :: key' =>
      if (bit =? 1)%Z then entry :: entriesAtOneBits bits' key'
      else entriesAtOneBits bits' key'
  | _, _ => []
  end.

(** The strings an array holds, if it holds strings only and has no
    hole. *)
Fixpoint stringsOf (items : list slot) : option (list string) :=
  match items with
  | [] => Some []
  | Some (VStr s) :: rest => option_map (cons s) (stringsOf rest)
  | _ :: _ => None
  end.

Definition entriesOf (h : heap) (r : ref) : option (list string) :=
  match r with
  | RArr l => match h !! l with Some items => stringsOf items | None => None end
  | RPrim _ => None
  end.

(** The bits of a digest, each byte most significant bit first, and the
    264-bit vector of a digest: its bits, then the eight bits of the
    number of its zero bits modulo 256. *)
Definition bytesToBits (bytes : list byte) : list Z :=
  flat_map (fun b => msbFirstBits (byteValue b)) bytes.

Definition messageBitVector (digest : list byte) : list Z :=
  bytesToBits digest ++ msbFirstBits (zeroCount (bytesToBits digest) mod 256).

(** The strings at the positions of the 1-bits in an array that may have
    holes and items of any kind: what [sign] keeps of it. *)
Fixpoint heldAtOneBits (bits : list Z) (key : list slot) : list string :=
  match bits, key with
  | bit :: bits', s :: key' =>
      match s with
      | Some (VStr entry) =>
          if (bit =? 1)%Z && negb (String.eqb entry "")
          then entry :: heldAtOneBits bits' key'
          else heldAtOneBits bits' key'
      | _ => heldAtOneBits bits' key'
      end
  | _, _ => []
  end.

(** The copy that the spread syntax makes of an array: [undefined] where
    the array has a hole. *)
Definition spreadOf (items : list slot) : list slot :=
  (fun s => Some (slotValue s)) <$> items.

Definition hasHole (items : list slot) : Prop := None ∈ items.

(** A slot that is a hole or holds a string with the property [P]: what
    [every] lets through when its callback accepts the strings with
    [P]. *)
Definition heldString (P : string -> Prop) (s : slot) : Prop :=
  match s with
  | None => True
  | Some (VStr entry) => P entry
  | Some _ => False
  end.

(** An argument whose array, if it is one, has no hole. *)
Definition dense (f : format) (h : heap) (e : encodedT f) : Prop :=
  match argLoc f e with
  | Some l => forall items, h !! l = Some items -> ~ hasHole items
  | None => True
  end.

Section Specification.

Variable Buffer_fromArray : list jsval -> list byte.
Variable sha256 : string -> TextCodec -> string.
Variable hmacSha256 : string -> TextCodec -> string -> TextCodec -> string.
Variable randomBytes : nat -> nat -> list byte.
Variable JSON_stringify : jsval -> string.
Variable JSON_parse : string -> option jsval.
Variable Number_toString : Z -> string.
Variable hashEncoding : TextCodec.
Variable seedEncoding : TextCodec.

(** The outcome of the loop of [verify] as a function of the entries not
    yet consumed, first entry first. *)
Fixpoint verifyWalk (bits : list Z) (index : nat) (remaining pubs : list string) : bool :=
  match bits with
  | [] => true
  | bit :: rest =>
      if (bit =? 0)%Z then verifyWalk rest (S index) remaining pubs
      else
        match remaining with
        | [] => false
        | entry :: remaining' =>
            strictEqualString (sha256 entry hashEncoding) (itemAt (strings pubs) index)
            && verifyWalk rest (S index) remaining' pubs
        end
  end.

(** A transport format loses nothing: parsing inverts printing on arrays
    of strings, decoding inverts encoding on bytes. *)
Definition formatOk (f : format) : Prop :=
  match f with
  | Fobject | Fbuffer => True
  | Fjson => forall entries,
      JSON_parse (JSON_stringify (VArr (stringValues entries)))
      = Some (VArr (stringValues entries))
  | Fcharset c => forall b, Buffer_from c (Buffer_toString c b) = b
  end.

(** The entries a format gives back as they are: strings of byte length
    32 for ['object'] and ['json'], which keep the text; entries in
    canonical form for the binary formats, which keep the bytes. *)
Definition entryOk (f : format) (s : string) : Prop :=
  match f with
  | Fobject | Fjson => Buffer_byteLength hashEncoding s = HASH_ELEMENT_BYTE_SIZE
  | Fbuffer | Fcharset _ => canonical hashEncoding s
  end.

Definition entriesToBuffer (entries : list string) : list byte :=
  concat (Buffer_from hashEncoding <$> entries).

(** [e] is the encoded form of [entries] in format [f]. *)
Definition encodes (f : format) (h : heap) : encodedT f -> list string -> Prop :=
  match f as f return encodedT f -> list string -> Prop with
  | Fobject => fun e entries => exists l, e = RArr l /\ h !! l = Some (strings entries)
  | Fjson => fun e entries => e = JSON_stringify (VArr (stringValues entries))
  | Fbuffer => fun e entries => e = entriesToBuffer entries
  | Fcharset c => fun e entries => e = Buffer_toString c (entriesToBuffer entries)
  end.

(** [PublicKey[i] = Hash(PrivateKey[i])] *)
Definition publicEntries (privs : list string) : list string :=
  (fun s => sha256 s hashEncoding) <$> privs.

(** What [map] makes of a raw key: the hash of each string, a hole where
    the key has one. *)
Definition hashedSlots (key : list slot) : list slot :=
  (fun s : slot =>
     match s with
     | Some (VStr entry) => Some (VStr (sha256 entry hashEncoding))
     | _ => None
     end) <$> key.

(** The private entries derived from a seed:
    entry i is [KeyedHash(seed, "{index}-{i}")]. *)
Definition seedEntries (seed : string) (index : Z) : list string :=
  (fun i => hmacSha256 seed seedEncoding (seedMessage Number_toString index i) hashEncoding)
    <$> seq 0 KEY_SIG_ENTRY_COUNT.

(** The private entries drawn from the random source. *)
Definition randomEntries : list string :=
  (fun i => Buffer_toString hashEncoding (randomBytes i HASH_ELEMENT_BYTE_SIZE))
    <$> seq 0 KEY_SIG_ENTRY_COUNT.

(** Decoding fails: [decodeSignature] throws, or it returns and
    [decodeKey] throws. *)
Definition decodingFails kf sf (signature : encodedT sf) (publicKey : encodedT kf)
           (h : heap) : Prop :=
  (exists e h1, decodeSignature JSON_parse sf hashEncoding signature h = (Throw e, h1)) \/
  (exists rs h1 e h2,
     decodeSignature JSON_parse sf hashEncoding signature h = (Ok rs, h1) /\
     decodeKey JSON_parse kf hashEncoding publicKey h1 = (Throw e, h2)).

(** The reference verifier of the specification (section 4.4): the bit
    positions are walked in order with a cursor into the signature that
    starts at 0; a 0-bit checks nothing; a 1-bit fails if the cursor is
    past the end, and otherwise requires the hash of the entry under the
    cursor to equal the key entry of the position, and advances. *)
Fixpoint verifyCursor (bits : list Z) (index cursor : nat)
         (signature publicKey : list string) : bool :=
  match bits with
  | [] => true
  | bit :: rest =>
      if (bit =? 0)%Z then verifyCursor rest (S index) cursor signature publicKey
      else
        match signature !! cursor with
        | None => false
        | Some entry =>
            match publicKey !! index with
            | Some target =>
                if String.eqb (sha256 entry hashEncoding) target
                then verifyCursor rest (S index) (S cursor) signature publicKey
                else false
            | None => false
            end
        end
  end.

(** The reference verifier on encoded arguments: malformed arguments give
    [false]; decoded ones are walked forward, and nothing is reversed or
    removed. *)
Definition verifyReference kf sf (message : string) (signature : encodedT sf)
           (publicKey : encodedT kf) (h : heap) : bool :=
  match decodeSignature JSON_parse sf hashEncoding signature h with
  | (Throw _, _) => false
  | (Ok signatureRaw, h1) =>
      match decodeKey JSON_parse kf hashEncoding publicKey h1 with
      | (Throw _, _) => false
      | (Ok publicKeyRaw, h2) =>
          match entriesOf h2 signatureRaw, entriesOf h2 publicKeyRaw with
          | Some signatureEntries, Some publicKeyEntries =>
              verifyCursor (messageBits sha256 hashEncoding message) 0 0
                signatureEntries publicKeyEntries
          | _, _ => false
          end
      end
  end.

(** [kp] is the key pair that [generateKeys] or [generateKeysFromSeed]
    returned in store [h0], leaving store [h1]. *)
Definition generatedPair kf (kp : KeyPair kf) (h0 h1 : heap) : Prop :=
  generateKeys Buffer_fromArray sha256 randomBytes JSON_stringify kf hashEncoding h0
  = (Ok kp, h1) \/
  exists seed index,
    generateKeysFromSeed Buffer_fromArray sha256 hmacSha256 JSON_stringify Number_toString
      kf hashEncoding seedEncoding seed index h0 = (Ok kp, h1).



End Specification.

(** * Concrete collaborators and inputs

    Stand-ins for the collaborators, so that the library runs: the digest
    of a text is its first 32 bytes, padded.  It is not a hash function;
    it serves to evaluate the library and to show that the contracts
    assumed of the collaborators can be met. *)

Definition sampleDigest (text : string) : list byte :=
  take 32 (list_byte_of_string text ++ replicate 32 x2a).

Definition sampleSha256 (message : string) (encoding : TextCodec) : string :=
  Buffer_toString encoding (sampleDigest message).

Definition sampleHmacSha256 (key : string) (keyEncoding : TextCodec) (message : string)
           (encoding : TextCodec) : string :=
  Buffer_toString encoding (sampleDigest (message +:+ key)).

Definition sampleRandomBytes (i size : nat) : list byte := replicate size x07.

(** Decimal digits, as JavaScript prints the integers below 2^53. *)
Definition decimal (n : Z) : string := NilZero.string_of_int (Z.to_int n).

(** One byte for each item: a number modulo 256, 1 for [true], 0 for
    the rest. *)
Definition sampleFromArray (items : list jsval) : list byte :=
  map (fun v => match v with
                | VPrim (PNum n) => byteOfNumber n
                | VPrim (PBool true) => x01
                | _ => x00
                end) items.

Definition sampleStringify (v : jsval) : string := "".

Definition sampleParse (text : string) : option jsval := None.

Definition sampleSeed : string :=
  "000102030405060708090a0b0c0d0e0f101112131415161718191a1b1c1d1e1f".

(** A private key of 264 zero entries as one buffer. *)
Definition zeroKeyBuffer : list byte :=
  replicate (KEY_SIG_ENTRY_COUNT * HASH_ELEMENT_BYTE_SIZE) x00.

Definition zeroEntry : string := Buffer_toString hex (replicate 32 x00).

Definition zeroKey : list string := replicate KEY_SIG_ENTRY_COUNT zeroEntry.

(** A key whose entries are hex text in upper case: each entry has byte
    length 32 and parses to 32 bytes, and the key passes the validation of
    the ['object'] format. *)
Definition upperHexEntry : string :=
  "AAAAAAAAAAAAAAAAAAAAAAAAAAAAAAAAAAAAAAAAAAAAAAAAAAAAAAAAAAAAAAAA".

Definition upperHexKey : list string := replicate KEY_SIG_ENTRY_COUNT upperHexEntry.

(** A store of the caller: a signature array of two entries and a key
    array of 264 entries. *)
Definition callerStore : heap :=
  [strings [upperHexEntry; zeroEntry]; strings upperHexKey].

(** The private entries derived from the sample seed at index 0, and the
    store of a caller who holds them as an array. *)
Definition samplePrivs : list string :=
  seedEntries sampleHmacSha256 decimal hex hex sampleSeed 0.

Definition sampleKeyStore : heap := [strings samplePrivs].

(** A store of the caller: an array of length 1 that is a hole, as
    [[ , ]] and [new Array(1)] are, an array of 264 holes, as
    [new Array(264)] is, and a key of 264 zero entries. *)
Definition sparseStore : heap :=
  [[None]; replicate KEY_SIG_ENTRY_COUNT None; strings zeroKey].

(** A run of generate, sign and verify: keys and signatures as buffers,
    hash encoding hex; the signature is altered by [tamper] before it is
    verified against [message']. *)
Definition sampleRun (tamper : list byte -> list byte) (message message' : string)
  : option bool :=
  match generateKeysFromSeed sampleFromArray sampleSha256 sampleHmacSha256 sampleStringify
          decimal Fbuffer hex hex sampleSeed (Some 0%Z) [] with
  | (Ok kp, h1) =>
      match sign sampleFromArray sampleSha256 sampleStringify sampleParse Fbuffer Fbuffer hex
              message (privateKey kp) h1 with
      | (Ok signature, h2) =>
          match verify sampleSha256 sampleParse Fbuffer Fbuffer hex
                  message' (tamper signature) (publicKey kp) h2 with
          | (Ok b, _) => Some b
          | (Throw _, _) => None
          end
      | (Throw _, _) => None
      end
  | (Throw _, _) => None
  end.

(** * Reasoning about computations *)

#[local] Arguments Nat.div : simpl never.
#[local] Arguments Nat.modulo : simpl never.
#[local] Arguments Nat.mul : simpl never.
#[local] Arguments KEY_SIG_ENTRY_COUNT : simpl never.
#[local] Arguments HASH_ELEMENT_BYTE_SIZE : simpl never.
#[local] Arguments SEED_BYTE_SIZE : simpl never.

Lemma bind_ok {A B} (m : M A) (k : A -> M B) h a h1 :
  m h = (Ok a, h1) -> bind m k h = k a h1.
Proof. intros E. unfold bind. now rewrite E. Qed.

Lemma bind_throw {A B} (m : M A) (k : A -> M B) h e h1 :
  m h = (Throw e, h1) -> bind m k h = (Throw e, h1).
Proof. intros E. unfold bind. now rewrite E. Qed.

Lemma bind_inv_ok {A B} (m : M A) (k : A -> M B) h b h' :
  bind m k h = (Ok b, h') ->
  exists a h1, m h = (Ok a, h1) /\ k a h1 = (Ok b, h').
Proof.
  unfold bind. destruct (m h) as [[a|e] h1]; intros E.
  - now exists a, h1.
  - discriminate.
Qed.

Lemma allocOnly_ret {A} (a : A) : allocOnly (ret a).
Proof. intros h r h' [= <- <-]. done. Qed.

Lemma allocOnly_throw {A} e : allocOnly (@throw A e).
Proof. intros h r h' [= <- <-]. done. Qed.

Lemma allocOnly_load l : allocOnly (load l).
Proof. intros h r h'. unfold load. destruct (h !! l); intros [= <- <-]; done. Qed.

Lemma allocOnly_alloc items : allocOnly (alloc items).
Proof. intros h r h' [= <- <-]. now apply prefix_app_r. Qed.

Lemma allocOnly_bind {A B} (m : M A) (k : A -> M B) :
  allocOnly m -> (forall a, allocOnly (k a)) -> allocOnly (bind m k).
Proof.
  intros Hm Hk h r h'. unfold bind.
  destruct (m h) as [[a|e] h1] eqn:E; intros E'.
  - etrans; [exact (Hm _ _ _ E) | exact (Hk _ _ _ _ E')].
  - injection E' as <- <-. exact (Hm _ _ _ E).
Qed.

Lemma allocOnly_attempt {A} (m : M A) : allocOnly m -> allocOnly (attempt m).
Proof.
  intros Hm h r h'. unfold attempt.
  destruct (m h) as [r1 h1] eqn:E. intros [= <- <-]. exact (Hm _ _ _ E).
Qed.

Lemma allocOnly_loadRef r : allocOnly (loadRef r).
Proof. destruct r; [apply allocOnly_throw | apply allocOnly_load]. Qed.

Lemma allocOnly_mapM {A B} (f : A -> M B) xs :
  (forall x, allocOnly (f x)) -> allocOnly (mapM f xs).
Proof.
  intros Hf. induction xs as [|x xs IH]; simpl.
  - apply allocOnly_ret.
  - apply allocOnly_bind; [apply Hf|]. intros y.
    apply allocOnly_bind; [apply IH|]. intros ys. apply allocOnly_ret.
Qed.

Lemma allocOnly_newValue v : allocOnly (newValue v).
Proof.
  destruct v; simpl; [apply allocOnly_ret|].
  apply allocOnly_bind; [apply allocOnly_alloc | intros; apply allocOnly_ret].
Qed.

Lemma allocOnly_iterate r : allocOnly (iterate r).
Proof.
  destruct r as [[]|l]; simpl; try apply allocOnly_throw; try apply allocOnly_ret.
  apply allocOnly_bind; [apply allocOnly_load | intros; apply allocOnly_ret].
Qed.

Lemma writesOnly_ret {A} ls (a : A) : writesOnly ls (ret a).
Proof. intros h r h' [= <- <-]. done. Qed.

Lemma writesOnly_throw {A} ls e : writesOnly ls (@throw A e).
Proof. intros h r h' [= <- <-]. done. Qed.

Lemma writesOnly_load ls l : writesOnly ls (load l).
Proof. intros h r h'. unfold load. destruct (h !! l); intros [= <- <-]; done. Qed.

Lemma writesOnly_store ls items : writesOnly ls (store ls items).
Proof.
  intros h r h' [= <- <-]. split; [apply length_insert|].
  intros l Hl. now apply list_lookup_insert_ne.
Qed.

Lemma writesOnly_bind {A B} ls (m : M A) (k : A -> M B) :
  writesOnly ls m -> (forall a, writesOnly ls (k a)) -> writesOnly ls (bind m k).
Proof.
  intros Hm Hk h r h'. unfold bind.
  destruct (m h) as [[a|e] h1] eqn:E; intros E'.
  - destruct (Hm _ _ _ E) as [Hlen Hframe].
    destruct (Hk _ _ _ _ E') as [Hlen' Hframe'].
    split; [congruence|]. intros l Hl. now rewrite Hframe', Hframe.
  - injection E' as <- <-. exact (Hm _ _ _ E).
Qed.

Create HintDb store discriminated.
#[local] Hint Resolve allocOnly_ret allocOnly_throw allocOnly_load allocOnly_alloc
  allocOnly_loadRef allocOnly_newValue allocOnly_attempt allocOnly_iterate : store.
#[local] Hint Resolve writesOnly_ret writesOnly_throw writesOnly_load writesOnly_store
  : store.

(** Splits a computation into the steps it is made of. *)
Ltac alloc_only :=
  repeat first
    [ progress eauto with store
    | apply allocOnly_bind; [| intros ?]
    | apply allocOnly_mapM; intros ?
    | match goal with
      | |- allocOnly (if ?b then _ else _) => destruct b
      | |- allocOnly (match ?x with _ => _ end) => destruct x
      end ].

Ltac writes_only :=
  repeat first
    [ progress eauto with store
    | apply writesOnly_bind; [| intros ?]
    | match goal with
      | |- writesOnly _ (if ?b then _ else _) => destruct b
      | |- writesOnly _ (match ?x with _ => _ end) => destruct x
      end ].

Lemma map_fmap {A B} (f : A -> B) (l : list A) : map f l = f <$> l.
Proof. done. Qed.

Lemma strings_length entries : length (strings entries) = length entries.
Proof. apply length_fmap. Qed.

Lemma strings_lookup entries i :
  strings entries !! i = (fun s => Some (VStr s)) <$> entries !! i.
Proof. apply list_lookup_fmap. Qed.

Lemma itemAt_strings entries i :
  itemAt (strings entries) i = default undefined ((fun s => VStr s) <$> entries !! i).
Proof. unfold itemAt. rewrite strings_lookup. now destruct (entries !! i). Qed.

Lemma slotValue_strings entries : slotValue <$> strings entries = stringValues entries.
Proof. unfold strings, stringValues. rewrite <- list_fmap_compose. done. Qed.

Lemma Some_stringValues entries : Some <$> stringValues entries = strings entries.
Proof. unfold strings, stringValues. rewrite <- list_fmap_compose. done. Qed.

Lemma Some_slotValue items : Some <$> (slotValue <$> items) = spreadOf items.
Proof. unfold spreadOf. rewrite <- list_fmap_compose. done. Qed.

Lemma spreadOf_strings entries : spreadOf (strings entries) = strings entries.
Proof. unfold spreadOf, strings. rewrite <- list_fmap_compose. done. Qed.

Lemma spreadOf_length items : length (spreadOf items) = length items.
Proof. apply length_fmap. Qed.

Lemma strings_no_hole entries : ~ hasHole (strings entries).
Proof.
  unfold hasHole, strings. intros (s & [=] & _)%list_elem_of_fmap.
Qed.

Lemma dense_strings (h : heap) l entries :
  h !! l = Some (strings entries) -> dense Fobject h (RArr l).
Proof.
  intros Hl items Hitems. simpl in Hitems. rewrite Hl in Hitems. injection Hitems as <-.
  apply strings_no_hole.
Qed.

Lemma spreadOf_dense items : ~ hasHole items -> spreadOf items = items.
Proof.
  unfold hasHole, spreadOf. induction items as [|[v|] items IH]; simpl; intros Hno.
  - done.
  - f_equal. apply IH. intros Hin. apply Hno. now right.
  - destruct Hno. left.
Qed.

Lemma strings_inj a b : strings a = strings b -> a = b.
Proof.
  revert b. induction a as [|x a IH]; intros [|y b]; simpl; try discriminate; auto.
  intros [= -> E]. f_equal. auto.
Qed.

Lemma strings_app a b : strings (a ++ b) = strings a ++ strings b.
Proof. apply fmap_app. Qed.

Lemma strings_reverse a : strings (reverse a) = reverse (strings a).
Proof. apply fmap_reverse. Qed.

(** What [every] with the callback of the validators lets through: holes
    and strings of byte length 32. *)
Lemma every_valid_held henc items :
  Array_every (validItem henc) items = true <->
  Forall (heldString (fun s => Buffer_byteLength henc s = HASH_ELEMENT_BYTE_SIZE)) items.
Proof.
  unfold Array_every. induction items as [|s items IH]; simpl.
  - split; [constructor | done].
  - rewrite andb_true_iff, IH, Forall_cons. apply and_iff_compat_r.
    destruct s as [[[| | | |str]|]|]; simpl; try (split; [discriminate | done]).
    + apply Nat.eqb_eq.
    + done.
Qed.

Lemma held_dense P items :
  Forall (heldString P) items -> ~ hasHole items ->
  exists entries, items = strings entries /\ Forall P entries.
Proof.
  unfold hasHole. induction 1 as [|s items Hs _ IH]; intros Hno.
  - exists []. split; [done | constructor].
  - destruct IH as (entries & -> & Hall). { intros Hin. apply Hno. now right. }
    destruct s as [[[| | | |str]|]|]; simpl in Hs; try done.
    + exists (str :: entries). split; [done|]. now constructor.
    + destruct Hno. left.
Qed.

Lemma strings_held P entries :
  Forall P entries <-> Forall (heldString P) (strings entries).
Proof. unfold strings. rewrite Forall_fmap. done. Qed.

Lemma held_impl (P Q : string -> Prop) items :
  (forall s, P s -> Q s) -> Forall (heldString P) items -> Forall (heldString Q) items.
Proof.
  intros HPQ Hall. eapply Forall_impl; [exact Hall|].
  intros [[[| | | |str]|]|]; simpl; auto.
Qed.

Lemma valid_items_strings henc items :
  Array_every (validItem henc) items = true ->
  ~ hasHole items ->
  exists entries, items = strings entries /\
    Forall (fun s => Buffer_byteLength henc s = HASH_ELEMENT_BYTE_SIZE) entries.
Proof. intros Hall%every_valid_held Hno. now apply held_dense. Qed.

Lemma strings_valid_items henc entries :
  Forall (fun s => Buffer_byteLength henc s = HASH_ELEMENT_BYTE_SIZE) entries ->
  Array_every (validItem henc) (strings entries) = true.
Proof. intros Hall. now apply every_valid_held, strings_held. Qed.

Lemma sliceEntries_strings henc encoded n :
  sliceEntries henc encoded n =
  strings (map (fun i => Buffer_toString henc
                   (take HASH_ELEMENT_BYTE_SIZE (drop (i * HASH_ELEMENT_BYTE_SIZE) encoded)))
               (seq 0 n)).
Proof.
  unfold sliceEntries, strings. rewrite !map_fmap, <- list_fmap_compose. done.
Qed.

Lemma load_inv l h r h' :
  load l h = (r, h') ->
  h' = h /\ match r with Ok items => h !! l = Some items | Throw _ => h !! l = None end.
Proof. unfold load. destruct (h !! l); intros [= <- <-]; auto. Qed.

Lemma load_ok l h items : h !! l = Some items -> load l h = (Ok items, h).
Proof. unfold load. now intros ->. Qed.

Lemma lookup_alloc (h : heap) items : (h ++ [items]) !! length h = Some items.
Proof. rewrite lookup_app_r, Nat.sub_diag by lia. done. Qed.

Lemma sliced_canonical hashEncoding (encoded : list byte) n :
  n * HASH_ELEMENT_BYTE_SIZE <= length encoded ->
  Forall (canonical hashEncoding)
    (map (fun i => Buffer_toString hashEncoding
            (take HASH_ELEMENT_BYTE_SIZE (drop (i * HASH_ELEMENT_BYTE_SIZE) encoded)))
         (seq 0 n)).
Proof.
  intros Hlen. rewrite map_fmap. apply Forall_fmap, Forall_forall.
  intros i Hi%elem_of_seq. simpl. eexists. split; [|done].
  rewrite length_take, length_drop.
  assert (S i * HASH_ELEMENT_BYTE_SIZE <= n * HASH_ELEMENT_BYTE_SIZE)
    by (apply Nat.mul_le_mono_r; lia).
  lia.
Qed.

Section Decoding.

Variable JSON_parse : string -> option jsval.
Variable hashEncoding : TextCodec.

Lemma validateKey_inv key h r h' :
  _validateRawKeyFormat hashEncoding key h = (r, h') ->
  h' = h /\
  (forall u, r = Ok u ->
     exists l items, key = RArr l /\ h !! l = Some items /\
       length items = KEY_SIG_ENTRY_COUNT /\
       Array_every (validItem hashEncoding) items = true).
Proof.
  destruct key as [p|l]; simpl.
  { intros [= <- <-]. split; [done|]. discriminate. }
  unfold bind. destruct (load l h) as [[items|e] h1] eqn:El.
  - apply load_inv in El as [-> El].
    destruct (length items =? KEY_SIG_ENTRY_COUNT) eqn:Elen; simpl.
    2:{ intros [= <- <-]. split; [done|]. discriminate. }
    destruct (Array_every (validItem hashEncoding) items) eqn:Eall; simpl.
    2:{ intros [= <- <-]. split; [done|]. discriminate. }
    intros [= <- <-]. split; [done|]. intros _ _.
    exists l, items. apply Nat.eqb_eq in Elen. auto.
  - apply load_inv in El as [-> _]. intros [= <- <-]. split; [done|]. discriminate.
Qed.

Lemma validateSignature_inv signature h r h' :
  _validateRawSignatureFormat hashEncoding signature h = (r, h') ->
  h' = h /\
  (forall u, r = Ok u ->
     exists l items, signature = RArr l /\ h !! l = Some items /\
       length items <= KEY_SIG_ENTRY_COUNT /\
       Array_every (validItem hashEncoding) items = true).
Proof.
  destruct signature as [p|l]; simpl.
  { intros [= <- <-]. split; [done|]. discriminate. }
  unfold bind. destruct (load l h) as [[items|e] h1] eqn:El.
  - apply load_inv in El as [-> El].
    destruct (KEY_SIG_ENTRY_COUNT <? length items) eqn:Elen; simpl.
    { intros [= <- <-]. split; [done|]. discriminate. }
    destruct (Array_every (validItem hashEncoding) items) eqn:Eall; simpl.
    2:{ intros [= <- <-]. split; [done|]. discriminate. }
    intros [= <- <-]. split; [done|]. intros _ _.
    exists l, items. apply Nat.ltb_ge in Elen. auto.
  - apply load_inv in El as [-> _]. intros [= <- <-]. split; [done|]. discriminate.
Qed.

Lemma validateKey_ok l h entries :
  h !! l = Some (strings entries) ->
  length entries = KEY_SIG_ENTRY_COUNT ->
  Forall (fun s => Buffer_byteLength hashEncoding s = HASH_ELEMENT_BYTE_SIZE) entries ->
  _validateRawKeyFormat hashEncoding (RArr l) h = (Ok tt, h).
Proof.
  intros Hl Hlen Hall. simpl. rewrite (bind_ok _ _ _ _ _ (load_ok _ _ _ Hl)).
  rewrite strings_length, Hlen, Nat.eqb_refl. simpl.
  now rewrite strings_valid_items.
Qed.

Lemma validateSignature_ok l h entries :
  h !! l = Some (strings entries) ->
  length entries <= KEY_SIG_ENTRY_COUNT ->
  Forall (fun s => Buffer_byteLength hashEncoding s = HASH_ELEMENT_BYTE_SIZE) entries ->
  _validateRawSignatureFormat hashEncoding (RArr l) h = (Ok tt, h).
Proof.
  intros Hl Hlen Hall. simpl. rewrite (bind_ok _ _ _ _ _ (load_ok _ _ _ Hl)).
  rewrite strings_length.
  destruct (KEY_SIG_ENTRY_COUNT <? length entries) eqn:E.
  { apply Nat.ltb_lt in E. lia. }
  now rewrite strings_valid_items.
Qed.

(** A parsed value that passes a validation is a new array. *)
Lemma parseJSON_inv text h r h' :
  parseJSON JSON_parse text h = (Ok r, h') ->
  (exists p, r = RPrim p /\ h' = h) \/
  (exists items, JSON_parse text = Some (VArr items) /\
     r = RArr (length h) /\ h' = h ++ [Some <$> items]).
Proof.
  unfold parseJSON. destruct (JSON_parse text) as [[p|items]|]; simpl.
  - intros [= <- <-]. left. eauto.
  - intros [= <- <-]. right. eauto.
  - discriminate.
Qed.

Lemma no_hole_Some (items : list jsval) : ~ hasHole (Some <$> items).
Proof. unfold hasHole. intros (s & [=] & _)%list_elem_of_fmap. Qed.

(** What a successful [decodeSignature] returns, whatever it was given: a
    new array of at most 264 slots without a hole.  Under ['object'] it is
    the copy that the spread syntax makes of the caller's array, which
    holds [undefined] where that array has a hole; under the other formats
    it holds strings. *)
Lemma decodeSignature_inv f (e : encodedT f) h r h' :
  decodeSignature JSON_parse f hashEncoding e h = (Ok r, h') ->
  exists items,
    r = RArr (length h) /\ h' = h ++ [items] /\
    length items <= KEY_SIG_ENTRY_COUNT /\
    match argLoc f e with
    | Some l =>
        exists original,
          h !! l = Some original /\ items = spreadOf original /\
          Forall (heldString (decodedEntry hashEncoding)) original
    | None =>
        exists entries,
          items = strings entries /\ Forall (decodedEntry hashEncoding) entries
    end.
Proof.
  assert (Hbuf : forall encoded : list byte,
    _decodeSignatureFromBuffer hashEncoding encoded h = (Ok r, h') ->
    exists items,
      r = RArr (length h) /\ h' = h ++ [items] /\
      length items <= KEY_SIG_ENTRY_COUNT /\
      exists entries,
        items = strings entries /\ Forall (decodedEntry hashEncoding) entries).
  { intros encoded. unfold _decodeSignatureFromBuffer.
    destruct (_ <? _) eqn:E1; [discriminate|].
    destruct (negb _) eqn:E2; [discriminate|].
    intros [= <- <-]. rewrite sliceEntries_strings. eexists. split; [done|]. split; [done|].
    apply Nat.ltb_ge in E1. split.
    - rewrite strings_length, length_map, length_seq.
      apply Nat.Div0.div_le_upper_bound. unfold HASH_ELEMENT_BYTE_SIZE in *. lia.
    - eexists. split; [done|].
      eapply Forall_impl.
      + apply sliced_canonical. rewrite Nat.mul_comm. apply Nat.Div0.mul_div_le.
      + intros s Hs. now right. }
  destruct f as [| | |c]; simpl in *.
  - intros (u & h1 & Ev & Es)%bind_inv_ok.
    apply validateSignature_inv in Ev as [-> Hv].
    destruct (Hv u eq_refl) as (l & items & -> & Hl & Hlen & Hall).
    unfold Array_spread in Es. simpl in Es.
    rewrite (bind_ok _ _ _ _ _ (bind_ok _ _ _ _ _ (load_ok _ _ _ Hl))) in Es.
    injection Es as <- <-. rewrite Some_slotValue.
    exists (spreadOf items). rewrite spreadOf_length. split_and!; auto.
    exists items. split_and!; auto.
    apply every_valid_held in Hall. eapply held_impl; [|exact Hall]. intros s Hs. now left.
  - intros (d & h1 & Ep & Ev)%bind_inv_ok.
    apply bind_inv_ok in Ev as (u & h2 & Ev & Er). injection Er as <- <-.
    apply validateSignature_inv in Ev as [-> Hv].
    destruct (Hv u eq_refl) as (l & items & -> & Hl & Hlen & Hall).
    apply parseJSON_inv in Ep as [(p & [=] & _)|(items' & _ & [= ->] & ->)].
    rewrite lookup_alloc in Hl. injection Hl as <-.
    apply valid_items_strings in Hall as (entries & Hentries & Hvalid);
      [|apply no_hole_Some].
    exists (Some <$> items'). split_and!; auto.
    exists entries. split; [done|].
    eapply Forall_impl; [exact Hvalid|]. intros s Hs. now left.
  - apply Hbuf.
  - apply Hbuf.
Qed.

(** With an argument that has no hole, the array is an array of
    strings. *)
Lemma decodeSignature_dense f (e : encodedT f) h r h' :
  decodeSignature JSON_parse f hashEncoding e h = (Ok r, h') ->
  dense f h e ->
  exists entries,
    r = RArr (length h) /\ h' = h ++ [strings entries] /\
    length entries <= KEY_SIG_ENTRY_COUNT /\
    Forall (decodedEntry hashEncoding) entries /\
    forall l, argLoc f e = Some l -> h !! l = Some (strings entries).
Proof.
  intros (items & -> & -> & Hlen & Hcase)%decodeSignature_inv Hdense.
  unfold dense in Hdense. destruct (argLoc f e) as [l|].
  - destruct Hcase as (original & Hl & -> & Hall).
    destruct (held_dense _ _ Hall (Hdense _ Hl)) as (entries & -> & Hentries).
    rewrite spreadOf_strings in *. rewrite strings_length in Hlen.
    exists entries. split_and!; auto. now intros ? [= <-].
  - destruct Hcase as (entries & -> & Hentries). rewrite strings_length in Hlen.
    exists entries. split_and!; auto. discriminate.
Qed.

(** What a successful [decodeKey] returns: an array of 264 slots, each a
    hole or a string, which is the caller's own array under ['object'] and
    a new array of strings otherwise. *)
Lemma decodeKey_inv f (e : encodedT f) h r h' :
  decodeKey JSON_parse f hashEncoding e h = (Ok r, h') ->
  exists l slots,
    r = RArr l /\ h' !! l = Some slots /\
    length slots = KEY_SIG_ENTRY_COUNT /\
    Forall (heldString (decodedEntry hashEncoding)) slots /\
    ((h' = h /\ argLoc f e = Some l) \/
     (h' = h ++ [slots] /\ l = length h /\ argLoc f e = None /\
      exists entries, slots = strings entries)).
Proof.
  assert (Hbuf : forall encodedKey : list byte,
    _decodeKeyFromBuffer hashEncoding encodedKey h = (Ok r, h') ->
    exists l slots,
      r = RArr l /\ h' !! l = Some slots /\
      length slots = KEY_SIG_ENTRY_COUNT /\
      Forall (heldString (decodedEntry hashEncoding)) slots /\
      (h' = h ++ [slots] /\ l = length h /\ exists entries, slots = strings entries)).
  { intros encodedKey. unfold _decodeKeyFromBuffer.
    destruct (negb _) eqn:E1; [discriminate|].
    intros [= <- <-]. rewrite sliceEntries_strings. eexists _, _. split; [done|].
    rewrite lookup_alloc. split; [done|].
    apply negb_false_iff, Nat.eqb_eq in E1.
    rewrite E1, Nat.div_mul by done.
    split; [now rewrite strings_length, length_map, length_seq|].
    split; [|eauto].
    apply strings_held.
    eapply Forall_impl; [apply sliced_canonical; lia|]. intros s Hs. now right. }
  destruct f as [| | |c]; simpl in *.
  - intros (u & h1 & Ev & Er)%bind_inv_ok. injection Er as <- <-.
    apply validateKey_inv in Ev as [-> Hv].
    destruct (Hv u eq_refl) as (l & items & -> & Hl & Hlen & Hall).
    exists l, items. split_and!; auto.
    apply every_valid_held in Hall. eapply held_impl; [|exact Hall]. intros s Hs. now left.
  - intros (d & h1 & Ep & Ev)%bind_inv_ok.
    apply bind_inv_ok in Ev as (u & h2 & Ev & Er). injection Er as <- <-.
    apply validateKey_inv in Ev as [-> Hv].
    destruct (Hv u eq_refl) as (l & items & -> & Hl & Hlen & Hall).
    apply parseJSON_inv in Ep as [(p & [=] & _)|(items' & _ & [= ->] & ->)].
    rewrite lookup_alloc in Hl. injection Hl as <-.
    pose proof Hall as Hheld%every_valid_held.
    apply valid_items_strings in Hall as (entries & Hentries & Hvalid);
      [|apply no_hole_Some].
    exists (length h), (Some <$> items'). rewrite lookup_alloc. split_and!; auto.
    + eapply held_impl; [|exact Hheld]. intros s Hs. now left.
    + right. split_and!; eauto.
  - intros (l & slots & H1 & H2 & H3 & H4 & H5 & H6 & H7)%Hbuf.
    exists l, slots. split_and!; auto.
  - intros (l & slots & H1 & H2 & H3 & H4 & H5 & H6 & H7)%Hbuf.
    exists l, slots. split_and!; auto.
Qed.

(** With an argument that has no hole, the key is an array of strings. *)
Lemma decodeKey_dense f (e : encodedT f) h r h' :
  decodeKey JSON_parse f hashEncoding e h = (Ok r, h') ->
  dense f h e ->
  exists l entries,
    r = RArr l /\ h' !! l = Some (strings entries) /\
    length entries = KEY_SIG_ENTRY_COUNT /\
    Forall (decodedEntry hashEncoding) entries /\
    ((h' = h /\ argLoc f e = Some l) \/
     (h' = h ++ [strings entries] /\ l = length h)).
Proof.
  intros (l & slots & -> & Hl & Hlen & Hall & Hcase)%decodeKey_inv Hdense.
  assert (Hno : ~ hasHole slots).
  { destruct Hcase as [[-> Harg]|(_ & _ & _ & entries & ->)].
    - unfold dense in Hdense. rewrite Harg in Hdense. eauto.
    - apply strings_no_hole. }
  destruct (held_dense _ _ Hall Hno) as (entries & -> & Hentries).
  rewrite strings_length in Hlen. exists l, entries. split_and!; auto.
  destruct Hcase as [?|(? & ? & _)]; auto.
Qed.

(** A decoded key that is an array of strings. *)
Lemma decodeKey_strings f (e : encodedT f) h l h' entries :
  decodeKey JSON_parse f hashEncoding e h = (Ok (RArr l), h') ->
  h' !! l = Some (strings entries) ->
  length entries = KEY_SIG_ENTRY_COUNT /\
  Forall (decodedEntry hashEncoding) entries /\
  ((h' = h /\ argLoc f e = Some l) \/
   (h' = h ++ [strings entries] /\ l = length h)).
Proof.
  intros (l' & slots & [= <-] & Hl & Hlen & Hall & Hcase)%decodeKey_inv Hentries.
  rewrite Hl in Hentries. injection Hentries as ->.
  rewrite strings_length in Hlen. apply strings_held in Hall. split_and!; auto.
  destruct Hcase as [?|(? & ? & _)]; auto.
Qed.

Lemma decodeSignature_allocOnly f (e : encodedT f) :
  allocOnly (decodeSignature JSON_parse f hashEncoding e).
Proof.
  destruct f; simpl in *;
    unfold _validateRawSignatureFormat, Array_spread, parseJSON,
      _decodeSignatureFromBuffer; alloc_only.
Qed.

Lemma decodeKey_allocOnly f (e : encodedT f) :
  allocOnly (decodeKey JSON_parse f hashEncoding e).
Proof.
  destruct f; simpl in *;
    unfold _validateRawKeyFormat, parseJSON, _decodeKeyFromBuffer; alloc_only.
Qed.

End Decoding.

(** * The loop of [verify] *)

Section VerifyLoop.

Variable sha256 : string -> TextCodec -> string.
Variable hashEncoding : TextCodec.

Lemma verifyBit_zero r p bit index h :
  (bit =? 0)%Z = true ->
  verifyBit sha256 hashEncoding r p bit index h = (Ok true, h).
Proof. intros E. unfold verifyBit. now rewrite E. Qed.

Lemma verifyBit_exhausted ls p bit index (h : heap) :
  (bit =? 0)%Z = false ->
  h !! ls = Some [] ->
  verifyBit sha256 hashEncoding (RArr ls) p bit index h = (Ok false, h).
Proof.
  intros E Hs. unfold verifyBit. rewrite E.
  cbv [bind ret load Array_length loadRef]. now rewrite Hs.
Qed.

(** One step on a 1-bit: the last item of the reversed copy is popped,
    hashed and compared with the key item read after the pop. *)
Lemma verifyBit_pop ls lp bit index (h : heap) items s pk :
  (bit =? 0)%Z = false ->
  h !! ls = Some (items ++ [Some (VStr s)]) ->
  <[ls := items]> h !! lp = Some pk ->
  verifyBit sha256 hashEncoding (RArr ls) (RArr lp) bit index h
  = (Ok (strictEqualString (sha256 s hashEncoding) (itemAt pk index)),
     <[ls := items]> h).
Proof.
  intros E Hs Hp. unfold verifyBit. rewrite E.
  cbv [bind ret load store Array_length Array_pop Array_get loadRef hashItem].
  rewrite Hs. rewrite length_app, Nat.add_comm. simpl.
  rewrite Hs, last_snoc. rewrite length_app, Nat.add_comm. simpl.
  replace (length items - 0) with (length items) by lia.
  rewrite take_app_length. now rewrite Hp.
Qed.


(** The loop creates no array and writes the signature copy only,
    whether it returns or throws. *)
Lemma verifyBit_writesOnly ls p bit index :
  writesOnly ls (verifyBit sha256 hashEncoding (RArr ls) p bit index).
Proof.
  unfold verifyBit, Array_length, Array_pop, Array_get, hashItem, loadRef.
  writes_only.
Qed.

Lemma every_writesOnly ls (callback : Z -> nat -> M bool) bits :
  (forall bit index, writesOnly ls (callback bit index)) ->
  forall index, writesOnly ls (every callback bits index).
Proof.
  intros Hc. induction bits as [|bit bits IH]; intros index; simpl.
  - apply writesOnly_ret.
  - apply writesOnly_bind; [apply Hc|]. intros [|]; [apply IH | apply writesOnly_ret].
Qed.


(** With the signature copy and the public key in different arrays, the
    loop computes [verifyWalk] and writes the copy only. *)
Lemma every_verifyBit_run ls lp pubs bits :
  ls <> lp ->
  forall index remaining (h : heap),
    h !! ls = Some (reverse (strings remaining)) ->
    h !! lp = Some (strings pubs) ->
    exists h',
      every (verifyBit sha256 hashEncoding (RArr ls) (RArr lp)) bits index h
      = (Ok (verifyWalk sha256 hashEncoding bits index remaining pubs), h') /\
      length h' = length h /\
      (forall l, l <> ls -> h' !! l = h !! l).
Proof.
  intros Hne. induction bits as [|bit bits IH]; intros index remaining h Hs Hp; simpl.
  { exists h. auto. }
  destruct (bit =? 0)%Z eqn:Ebit.
  { rewrite (bind_ok _ _ _ _ _ (verifyBit_zero _ _ _ _ _ Ebit)). apply IH; auto. }
  destruct remaining as [|entry remaining'].
  { rewrite (bind_ok _ _ _ _ _ (verifyBit_exhausted _ _ _ _ _ Ebit Hs)).
    exists h. auto. }
  simpl in Hs. rewrite reverse_cons in Hs.
  set (h1 := <[ls := reverse (strings remaining')]> h).
  assert (Hlt : ls < length h) by (eapply lookup_lt_Some; eauto).
  assert (Hs1 : h1 !! ls = Some (reverse (strings remaining')))
    by (apply list_lookup_insert_eq; done).
  assert (Hp1 : h1 !! lp = Some (strings pubs))
    by (unfold h1; rewrite list_lookup_insert_ne; done).
  rewrite (bind_ok _ _ _ _ _ (verifyBit_pop _ _ _ index _ _ _ _ Ebit Hs Hp1)).
  fold h1.
  destruct (strictEqualString _ _) eqn:Eeq; simpl.
  - destruct (IH (S index) remaining' h1 Hs1 Hp1) as (h' & Erun & Hlen & Hframe).
    exists h'. split; [done|]. split.
    + rewrite Hlen. unfold h1. apply length_insert.
    + intros l Hl. rewrite Hframe by done. unfold h1.
      now rewrite list_lookup_insert_ne by done.
  - exists h1. split; [done|]. split.
    + apply length_insert.
    + intros l Hl. unfold h1. now rewrite list_lookup_insert_ne by done.
Qed.

(** With a signature copy that holds strings, whatever array the public
    key is, the loop returns a boolean. *)
Lemma every_verifyBit_total ls lp bits :
  forall index (h : heap) entries,
    h !! ls = Some (strings entries) ->
    lp < length h ->
    exists b h',
      every (verifyBit sha256 hashEncoding (RArr ls) (RArr lp)) bits index h
      = (Ok b, h').
Proof.
  induction bits as [|bit bits IH]; intros index h entries Hs Hp; simpl.
  { exists true, h. auto. }
  destruct (bit =? 0)%Z eqn:Ebit.
  { rewrite (bind_ok _ _ _ _ _ (verifyBit_zero _ _ _ _ _ Ebit)). eapply IH; eauto. }
  destruct entries as [|s entries _] using rev_ind.
  { rewrite (bind_ok _ _ _ _ _ (verifyBit_exhausted _ _ _ _ _ Ebit Hs)).
    exists false, h. auto. }
  rewrite strings_app in Hs. simpl in Hs.
  set (h1 := <[ls := strings entries]> h).
  assert (Hlt : ls < length h) by (eapply lookup_lt_Some; eauto).
  assert (Hs1 : h1 !! ls = Some (strings entries))
    by (apply list_lookup_insert_eq; done).
  assert (Hp1 : lp < length h1) by (unfold h1; now rewrite length_insert).
  destruct (lookup_lt_is_Some_2 h1 lp Hp1) as [pk Hpk].
  rewrite (bind_ok _ _ _ _ _ (verifyBit_pop _ _ _ index _ _ _ _ Ebit Hs Hpk)).
  fold h1.
  destruct (strictEqualString _ _) eqn:Eeq; simpl.
  - destruct (IH (S index) h1 _ Hs1 Hp1) as (b & h' & Erun).
    exists b, h'. done.
  - exists false, h1. done.
Qed.

End VerifyLoop.

(** * [verify] as a whole *)

Section VerifyRun.

Variable sha256 : string -> TextCodec -> string.
Variable JSON_parse : string -> option jsval.
Variable hashEncoding : TextCodec.

Lemma verify_signature_throws kf sf message (signature : encodedT sf)
      (publicKey : encodedT kf) h e h1 :
  decodeSignature JSON_parse sf hashEncoding signature h = (Throw e, h1) ->
  verify sha256 JSON_parse kf sf hashEncoding message signature publicKey h
  = (Ok false, h1).
Proof. intros E. unfold verify, attempt, bind. now rewrite E. Qed.

Lemma verify_key_throws kf sf message (signature : encodedT sf)
      (publicKey : encodedT kf) h rs h1 e h2 :
  decodeSignature JSON_parse sf hashEncoding signature h = (Ok rs, h1) ->
  decodeKey JSON_parse kf hashEncoding publicKey h1 = (Throw e, h2) ->
  verify sha256 JSON_parse kf sf hashEncoding message signature publicKey h
  = (Ok false, h2).
Proof. intros E1 E2. unfold verify, attempt, bind. now rewrite E1, E2. Qed.

Lemma verify_decoded kf sf message (signature : encodedT sf)
      (publicKey : encodedT kf) h rs h1 rp h2 :
  decodeSignature JSON_parse sf hashEncoding signature h = (Ok rs, h1) ->
  decodeKey JSON_parse kf hashEncoding publicKey h1 = (Ok rp, h2) ->
  verify sha256 JSON_parse kf sf hashEncoding message signature publicKey h
  = (let! invertedSignatureRaw := Array_reverse rs in
     every (verifyBit sha256 hashEncoding invertedSignatureRaw rp)
           (messageBits sha256 hashEncoding message) 0) h2.
Proof. intros E1 E2. unfold verify, attempt, bind. now rewrite E1, E2. Qed.

Lemma Array_reverse_run l (h : heap) items :
  h !! l = Some items ->
  Array_reverse (RArr l) h = (Ok (RArr l), <[l := reverse items]> h).
Proof. intros E. cbv [Array_reverse bind ret load store]. now rewrite E. Qed.

(** Whatever its outcome, [verify] leaves every array that existed before
    the call as it was. *)
Lemma verify_frames kf sf message (signature : encodedT sf)
      (publicKey : encodedT kf) (h : heap) r h' :
  verify sha256 JSON_parse kf sf hashEncoding message signature publicKey h = (r, h') ->
  length h <= length h' /\
  (forall l, l < length h -> h' !! l = h !! l).
Proof.
  destruct (decodeSignature JSON_parse sf hashEncoding signature h)
    as [[rs|e] h1] eqn:Es.
  2:{ rewrite (verify_signature_throws _ _ _ _ _ _ _ _ Es). intros [= <- <-].
      apply decodeSignature_allocOnly in Es.
      split; [now apply prefix_length|].
      intros l Hl. symmetry. now apply prefix_lookup_lt. }
  pose proof (decodeSignature_allocOnly _ _ _ _ _ _ _ Es) as Hpre1.
  destruct (decodeKey JSON_parse kf hashEncoding publicKey h1)
    as [[rp|e] h2] eqn:Ek.
  2:{ rewrite (verify_key_throws _ _ _ _ _ _ _ _ _ _ Es Ek). intros [= <- <-].
      apply decodeKey_allocOnly in Ek.
      assert (Hpre : h `prefix_of` h2) by (etrans; eauto).
      split; [now apply prefix_length|].
      intros l Hl. symmetry. now apply prefix_lookup_lt. }
  pose proof (decodeKey_allocOnly _ _ _ _ _ _ _ Ek) as Hpre2.
  assert (Hpre : h `prefix_of` h2) by (etrans; eauto).
  rewrite (verify_decoded _ _ _ _ _ _ _ _ _ _ Es Ek).
  apply decodeSignature_inv in Es as (sigs & -> & -> & Hlen & _).
  assert (Hs : h2 !! length h = Some sigs).
  { eapply prefix_lookup_Some; [apply lookup_alloc | done]. }
  rewrite (bind_ok _ _ _ _ _ (Array_reverse_run _ _ _ Hs)).
  set (h3 := <[length h := reverse sigs]> h2).
  intros Erun.
  apply (every_writesOnly (length h) _ _
           (verifyBit_writesOnly sha256 hashEncoding (length h) rp)) in Erun
    as [Hlen' Hframe].
  split.
  - rewrite Hlen'. unfold h3. rewrite length_insert. now apply prefix_length.
  - intros l Hl. rewrite Hframe by lia. unfold h3.
    rewrite list_lookup_insert_ne by lia. symmetry. now apply prefix_lookup_lt.
Qed.

(** With a signature that has no hole, [verify] returns a boolean. *)
Lemma verify_returns kf sf message (signature : encodedT sf)
      (publicKey : encodedT kf) (h : heap) :
  dense sf h signature ->
  exists b h',
    verify sha256 JSON_parse kf sf hashEncoding message signature publicKey h
    = (Ok b, h').
Proof.
  intros Hdense.
  destruct (decodeSignature JSON_parse sf hashEncoding signature h)
    as [[rs|e] h1] eqn:Es.
  2:{ exists false, h1. eapply verify_signature_throws; eauto. }
  destruct (decodeKey JSON_parse kf hashEncoding publicKey h1)
    as [[rp|e] h2] eqn:Ek.
  2:{ exists false, h2. eapply verify_key_throws; eauto. }
  pose proof (decodeKey_allocOnly _ _ _ _ _ _ _ Ek) as Hpre2.
  rewrite (verify_decoded _ _ _ _ _ _ _ _ _ _ Es Ek).
  apply decodeSignature_dense in Es as (sigs & -> & -> & Hlen & _); [|done].
  apply decodeKey_inv in Ek as (lp & pubs & -> & Hp & _ & _ & _).
  assert (Hs : h2 !! length h = Some (strings sigs)).
  { eapply prefix_lookup_Some; [apply lookup_alloc | done]. }
  rewrite (bind_ok _ _ _ _ _ (Array_reverse_run _ _ _ Hs)).
  set (h3 := <[length h := reverse (strings sigs)]> h2).
  assert (Hs3 : h3 !! length h = Some (strings (reverse sigs))).
  { unfold h3. rewrite list_lookup_insert_eq by (eapply lookup_lt_Some; eauto).
    now rewrite strings_reverse. }
  assert (Hp3 : lp < length h3).
  { unfold h3. rewrite length_insert. eapply lookup_lt_Some; eauto. }
  exact (every_verifyBit_total sha256 hashEncoding _ _
           (messageBits sha256 hashEncoding message) 0 h3 _ Hs3 Hp3).
Qed.

(** With a public key that is a value of the store, [verify] on arguments
    that decode to arrays of strings is [verifyWalk] on the decoded
    entries. *)
Lemma verify_run kf sf message (signature : encodedT sf)
      (publicKey : encodedT kf) (h : heap) rs sigs lp h2 pubs :
  live kf h publicKey ->
  decodeSignature JSON_parse sf hashEncoding signature h = (Ok rs, h ++ [strings sigs]) ->
  decodeKey JSON_parse kf hashEncoding publicKey (h ++ [strings sigs])
  = (Ok (RArr lp), h2) ->
  h2 !! lp = Some (strings pubs) ->
  exists h',
    rs = RArr (length h) /\
    length sigs <= KEY_SIG_ENTRY_COUNT /\
    length pubs = KEY_SIG_ENTRY_COUNT /\
    verify sha256 JSON_parse kf sf hashEncoding message signature publicKey h
    = (Ok (verifyWalk sha256 hashEncoding
             (messageBits sha256 hashEncoding message) 0 sigs pubs), h').
Proof.
  intros Hlive Es Ek Hp.
  rewrite (verify_decoded _ _ _ _ _ _ _ _ _ _ Es Ek).
  pose proof (decodeKey_allocOnly _ _ _ _ _ _ _ Ek) as Hpre2.
  apply decodeSignature_inv in Es as (items & -> & Hitems & Hlen & _).
  apply app_inv_head in Hitems. injection Hitems as <-. rewrite strings_length in Hlen.
  destruct (decodeKey_strings _ _ _ _ _ _ _ _ Ek Hp) as (Hplen & _ & Hcase).
  assert (Hne : length h <> lp).
  { destruct Hcase as [[_ Harg]|[_ ->]].
    - unfold live in Hlive. rewrite Harg in Hlive. lia.
    - rewrite length_app. simpl. lia. }
  assert (Hs : h2 !! length h = Some (strings sigs)).
  { eapply prefix_lookup_Some; [apply lookup_alloc | done]. }
  rewrite (bind_ok _ _ _ _ _ (Array_reverse_run _ _ _ Hs)).
  set (h3 := <[length h := reverse (strings sigs)]> h2).
  assert (Hs3 : h3 !! length h = Some (reverse (strings sigs))).
  { unfold h3. now rewrite list_lookup_insert_eq by (eapply lookup_lt_Some; eauto). }
  assert (Hp3 : h3 !! lp = Some (strings pubs)).
  { unfold h3. now rewrite list_lookup_insert_ne by done. }
  destruct (every_verifyBit_run sha256 hashEncoding _ _ pubs
              (messageBits sha256 hashEncoding message) Hne 0 sigs h3 Hs3 Hp3)
    as (h' & Erun & _).
  exists h'. split_and!; auto.
Qed.

(** With arguments that have no hole, the decoded arrays are arrays of
    strings. *)
Lemma verify_run_dense kf sf message (signature : encodedT sf)
      (publicKey : encodedT kf) (h : heap) rs h1 rp h2 :
  live kf h publicKey ->
  dense sf h signature ->
  dense kf h publicKey ->
  decodeSignature JSON_parse sf hashEncoding signature h = (Ok rs, h1) ->
  decodeKey JSON_parse kf hashEncoding publicKey h1 = (Ok rp, h2) ->
  exists sigs pubs lp h',
    h1 = h ++ [strings sigs] /\ rs = RArr (length h) /\
    length sigs <= KEY_SIG_ENTRY_COUNT /\
    rp = RArr lp /\ h2 !! lp = Some (strings pubs) /\
    length pubs = KEY_SIG_ENTRY_COUNT /\
    verify sha256 JSON_parse kf sf hashEncoding message signature publicKey h
    = (Ok (verifyWalk sha256 hashEncoding
             (messageBits sha256 hashEncoding message) 0 sigs pubs), h').
Proof.
  intros Hlive Hds Hdk Es Ek.
  destruct (decodeSignature_dense _ _ _ _ _ _ _ Es Hds) as (sigs & -> & -> & Hlen & _).
  assert (Hdk1 : dense kf (h ++ [strings sigs]) publicKey).
  { unfold dense, live in *. destruct (argLoc kf publicKey) as [l|]; [|done].
    intros items Hitems. apply Hdk. now rewrite lookup_app_l in Hitems. }
  destruct (decodeKey_dense _ _ _ _ _ _ _ Ek Hdk1) as (lp & pubs & -> & Hp & Hplen & _).
  destruct (verify_run _ _ message _ _ _ _ _ _ _ _ Hlive Es Ek Hp)
    as (h' & _ & _ & _ & Erun).
  exists sigs, pubs, lp, h'. split_and!; auto.
Qed.

End VerifyRun.

(** * Encoded forms and their decoding *)

(** Slicing a concatenation of 32-byte blocks gives the blocks back. *)
Lemma slices_concat (blocks : list (list byte)) :
  Forall (fun b => length b = HASH_ELEMENT_BYTE_SIZE) blocks ->
  (fun i => take HASH_ELEMENT_BYTE_SIZE (drop (i * HASH_ELEMENT_BYTE_SIZE) (concat blocks)))
    <$> seq 0 (length blocks) = blocks.
Proof.
  induction 1 as [|b blocks Hb _ IH]; [done|].
  simpl length. rewrite <- cons_seq, <- fmap_S_seq. simpl concat.
  rewrite fmap_cons, <- list_fmap_compose. f_equal.
  - rewrite Nat.mul_0_l, drop_0. now rewrite take_app_length'.
  - rewrite <- IH at 2. apply list_fmap_ext. intros _ i _. simpl.
    replace (S i * HASH_ELEMENT_BYTE_SIZE)
      with (HASH_ELEMENT_BYTE_SIZE + i * HASH_ELEMENT_BYTE_SIZE) by lia.
    now rewrite drop_app_add'.
Qed.

Lemma length_concat_blocks (blocks : list (list byte)) :
  Forall (fun b => length b = HASH_ELEMENT_BYTE_SIZE) blocks ->
  length (concat blocks) = length blocks * HASH_ELEMENT_BYTE_SIZE.
Proof.
  induction 1 as [|b blocks Hb _ IH]; [done|].
  simpl. rewrite length_app, IH, Hb. lia.
Qed.

Section Codec.

Variable Buffer_fromArray : list jsval -> list byte.
Variable JSON_stringify : jsval -> string.
Variable JSON_parse : string -> option jsval.
Variable hashEncoding : TextCodec.

Lemma encodes_prefix f (h h' : heap) (e : encodedT f) entries :
  h `prefix_of` h' ->
  encodes JSON_stringify hashEncoding f h e entries ->
  encodes JSON_stringify hashEncoding f h' e entries.
Proof.
  intros Hpre. destruct f; simpl; auto.
  intros (l & -> & Hl). exists l. split; [done|].
  eapply prefix_lookup_Some; eauto.
Qed.

Lemma encodes_live f (h : heap) (e : encodedT f) entries :
  encodes JSON_stringify hashEncoding f h e entries -> live f h e.
Proof.
  unfold live. destruct f; simpl; auto.
  intros (l & -> & Hl). eapply lookup_lt_Some; eauto.
Qed.

Lemma mapM_itemToBuffer entries (h : heap) :
  mapM (itemToBuffer Buffer_fromArray hashEncoding) (stringValues entries) h
  = (Ok (Buffer_from hashEncoding <$> entries), h).
Proof.
  induction entries as [|s entries IH]; simpl; [done|].
  unfold bind at 1. unfold ret at 1. unfold bind at 1. now rewrite IH.
Qed.

Lemma encodeToBuffer_run l (h : heap) entries :
  h !! l = Some (strings entries) ->
  _encodeKeyToBuffer Buffer_fromArray hashEncoding (RArr l) h
  = (Ok (entriesToBuffer hashEncoding entries), h) /\
  _encodeSignatureToBuffer Buffer_fromArray hashEncoding (RArr l) h
  = (Ok (entriesToBuffer hashEncoding entries), h).
Proof.
  intros Hl. unfold _encodeKeyToBuffer, _encodeSignatureToBuffer. simpl.
  rewrite !(bind_ok _ _ _ _ _ (bind_ok _ _ _ _ _ (load_ok _ _ _ Hl))).
  cbv beta. rewrite slotValue_strings.
  now rewrite !(bind_ok _ _ _ _ _ (mapM_itemToBuffer _ _)).
Qed.

Lemma encodeKey_run f l (h : heap) entries :
  h !! l = Some (strings entries) ->
  exists e, encodeKey Buffer_fromArray JSON_stringify f hashEncoding (RArr l) h = (Ok e, h) /\
            encodes JSON_stringify hashEncoding f h e entries.
Proof.
  intros Hl. destruct (encodeToBuffer_run _ _ _ Hl) as [Eb _].
  destruct f; simpl.
  - eexists. split; [done|]. eauto.
  - rewrite (bind_ok _ _ _ _ _ (load_ok _ _ _ Hl)). rewrite slotValue_strings.
    eexists. split; done.
  - eexists. split; [exact Eb | done].
  - rewrite (bind_ok _ _ _ _ _ Eb). eexists. split; done.
Qed.

Lemma encodeSignature_run f l (h : heap) entries :
  h !! l = Some (strings entries) ->
  exists e, encodeSignature Buffer_fromArray JSON_stringify f hashEncoding (RArr l) h = (Ok e, h) /\
            encodes JSON_stringify hashEncoding f h e entries.
Proof.
  intros Hl. destruct (encodeToBuffer_run _ _ _ Hl) as [_ Eb].
  destruct f; simpl.
  - eexists. split; [done|]. eauto.
  - rewrite (bind_ok _ _ _ _ _ (load_ok _ _ _ Hl)). rewrite slotValue_strings.
    eexists. split; done.
  - eexists. split; [exact Eb | done].
  - rewrite (bind_ok _ _ _ _ _ Eb). eexists. split; done.
Qed.

Hypothesis hash_lossless : Lossless hashEncoding.

Lemma canonical_byteLength s :
  canonical hashEncoding s -> Buffer_byteLength hashEncoding s = HASH_ELEMENT_BYTE_SIZE.
Proof. intros (b & Hb & ->). now rewrite (byteLength_toString _ hash_lossless). Qed.

Lemma canonical_blocks entries :
  Forall (canonical hashEncoding) entries ->
  exists blocks, entries = Buffer_toString hashEncoding <$> blocks /\
    Forall (fun b => length b = HASH_ELEMENT_BYTE_SIZE) blocks /\
    Buffer_from hashEncoding <$> entries = blocks.
Proof.
  induction 1 as [|s entries (b & Hb & ->) _ (blocks & -> & Hall & Hfrom)].
  - exists []. split; [done|]. split; [constructor | done].
  - exists (b :: blocks). split; [done|]. split; [now constructor|].
    rewrite fmap_cons, Hfrom. now rewrite (from_toString _ hash_lossless).
Qed.

(** Slicing the buffer of canonical entries gives the entries back. *)
Lemma sliceEntries_entriesToBuffer entries :
  Forall (canonical hashEncoding) entries ->
  length (entriesToBuffer hashEncoding entries) = length entries * HASH_ELEMENT_BYTE_SIZE /\
  sliceEntries hashEncoding (entriesToBuffer hashEncoding entries)
    (length (entriesToBuffer hashEncoding entries) / HASH_ELEMENT_BYTE_SIZE)
  = strings entries.
Proof.
  intros (blocks & Hent & Hall & Hfrom)%canonical_blocks.
  unfold entriesToBuffer. rewrite Hfrom.
  rewrite (length_concat_blocks _ Hall).
  assert (Hlen : length entries = length blocks) by (subst entries; apply length_fmap).
  split; [now rewrite Hlen|].
  rewrite Nat.div_mul by done.
  rewrite sliceEntries_strings. f_equal. rewrite map_fmap.
  rewrite Hent. rewrite <- (slices_concat _ Hall) at 2.
  now rewrite <- list_fmap_compose.
Qed.

Lemma canonical_entryOk f s : canonical hashEncoding s -> entryOk hashEncoding f s.
Proof. intros Hs. destruct f; simpl; auto using canonical_byteLength. Qed.

Lemma decodeKeyFromBuffer_entries entries (h : heap) :
  length entries = KEY_SIG_ENTRY_COUNT ->
  Forall (canonical hashEncoding) entries ->
  _decodeKeyFromBuffer hashEncoding (entriesToBuffer hashEncoding entries) h
  = (Ok (RArr (length h)), h ++ [strings entries]).
Proof.
  intros Hlen Hall.
  destruct (sliceEntries_entriesToBuffer _ Hall) as [Hblen Hslice].
  unfold _decodeKeyFromBuffer.
  rewrite Hblen, Hlen, Nat.eqb_refl. simpl.
  rewrite <- Hlen, <- Hblen, Hslice. done.
Qed.

Lemma decodeSignatureFromBuffer_entries entries (h : heap) :
  length entries <= KEY_SIG_ENTRY_COUNT ->
  Forall (canonical hashEncoding) entries ->
  _decodeSignatureFromBuffer hashEncoding (entriesToBuffer hashEncoding entries) h
  = (Ok (RArr (length h)), h ++ [strings entries]).
Proof.
  intros Hlen Hall.
  destruct (sliceEntries_entriesToBuffer _ Hall) as [Hblen Hslice].
  unfold _decodeSignatureFromBuffer.
  destruct (_ <? _) eqn:E1.
  { apply Nat.ltb_lt in E1. rewrite Hblen in E1.
    apply Nat.mul_lt_mono_pos_r in E1; [lia | unfold HASH_ELEMENT_BYTE_SIZE; lia]. }
  assert (Hmod : length (entriesToBuffer hashEncoding entries) mod HASH_ELEMENT_BYTE_SIZE = 0)
    by (rewrite Hblen; apply Nat.Div0.mod_mul).
  rewrite Hmod. simpl. rewrite Hslice. done.
Qed.

(** Decoding the encoded form of entries that the format gives back as
    they are. *)
Lemma decodeKey_encodes_entryOk f (h : heap) (e : encodedT f) entries :
  formatOk JSON_stringify JSON_parse f ->
  encodes JSON_stringify hashEncoding f h e entries ->
  length entries = KEY_SIG_ENTRY_COUNT ->
  Forall (entryOk hashEncoding f) entries ->
  exists l h',
    decodeKey JSON_parse f hashEncoding e h = (Ok (RArr l), h') /\
    h' !! l = Some (strings entries) /\ h `prefix_of` h'.
Proof.
  intros Hok Henc Hlen Hall.
  destruct f as [| | |c]; simpl in *.
  - destruct Henc as (l & -> & Hl). exists l, h.
    rewrite (bind_ok _ _ _ _ _ (validateKey_ok _ _ _ _ Hl Hlen Hall)). auto.
  - subst e. exists (length h), (h ++ [strings entries]).
    unfold parseJSON. rewrite Hok. simpl. rewrite Some_stringValues.
    unfold bind at 1 2. unfold alloc at 1. unfold ret at 1.
    rewrite (bind_ok _ _ _ _ _
      (validateKey_ok _ _ _ _ (lookup_alloc h (strings entries)) Hlen Hall)).
    split; [done|]. split; [apply lookup_alloc | now apply prefix_app_r].
  - subst e. exists (length h), (h ++ [strings entries]).
    split; [now apply decodeKeyFromBuffer_entries|].
    split; [apply lookup_alloc | now apply prefix_app_r].
  - subst e. exists (length h), (h ++ [strings entries]). rewrite Hok.
    split; [now apply decodeKeyFromBuffer_entries|].
    split; [apply lookup_alloc | now apply prefix_app_r].
Qed.

Lemma decodeSignature_encodes_entryOk f (h : heap) (e : encodedT f) entries :
  formatOk JSON_stringify JSON_parse f ->
  encodes JSON_stringify hashEncoding f h e entries ->
  length entries <= KEY_SIG_ENTRY_COUNT ->
  Forall (entryOk hashEncoding f) entries ->
  decodeSignature JSON_parse f hashEncoding e h
  = (Ok (RArr (length h)), h ++ [strings entries]).
Proof.
  intros Hok Henc Hlen Hall.
  destruct f as [| | |c]; simpl in *.
  - destruct Henc as (l & -> & Hl).
    rewrite (bind_ok _ _ _ _ _ (validateSignature_ok _ _ _ _ Hl Hlen Hall)).
    unfold Array_spread. simpl.
    rewrite (bind_ok _ _ _ _ _ (bind_ok _ _ _ _ _ (load_ok _ _ _ Hl))).
    unfold ret at 1. rewrite Some_slotValue, spreadOf_strings. done.
  - subst e. unfold parseJSON. rewrite Hok. simpl. rewrite Some_stringValues.
    unfold bind at 1 2. unfold alloc at 1. unfold ret at 1.
    rewrite (bind_ok _ _ _ _ _
      (validateSignature_ok _ _ _ _ (lookup_alloc h (strings entries)) Hlen Hall)).
    done.
  - subst e. now apply decodeSignatureFromBuffer_entries.
  - subst e. rewrite Hok. now apply decodeSignatureFromBuffer_entries.
Qed.

Lemma decodeKey_encodes f (h : heap) (e : encodedT f) entries :
  formatOk JSON_stringify JSON_parse f ->
  encodes JSON_stringify hashEncoding f h e entries ->
  length entries = KEY_SIG_ENTRY_COUNT ->
  Forall (canonical hashEncoding) entries ->
  exists l h',
    decodeKey JSON_parse f hashEncoding e h = (Ok (RArr l), h') /\
    h' !! l = Some (strings entries) /\ h `prefix_of` h'.
Proof.
  intros Hok Henc Hlen Hall. apply decodeKey_encodes_entryOk; auto.
  eapply Forall_impl; [exact Hall|]. apply canonical_entryOk.
Qed.

Lemma decodeSignature_encodes f (h : heap) (e : encodedT f) entries :
  formatOk JSON_stringify JSON_parse f ->
  encodes JSON_stringify hashEncoding f h e entries ->
  length entries <= KEY_SIG_ENTRY_COUNT ->
  Forall (canonical hashEncoding) entries ->
  decodeSignature JSON_parse f hashEncoding e h
  = (Ok (RArr (length h)), h ++ [strings entries]).
Proof.
  intros Hok Henc Hlen Hall. apply decodeSignature_encodes_entryOk; auto.
  eapply Forall_impl; [exact Hall|]. apply canonical_entryOk.
Qed.

End Codec.

(** * Bits and the checksum *)

Lemma bit_of_shift (x k : Z) :
  (0 <= k)%Z -> Z.land (Z.shiftr x k) 1 = ((x / 2 ^ k) mod 2)%Z.
Proof.
  intros Hk. rewrite Z.shiftr_div_pow2 by done.
  change 1%Z with (Z.ones 1). now rewrite Z.land_ones by lia.
Qed.

Lemma convertBufferToBitArray_byte (b : byte) :
  convertBufferToBitArray [b] = msbFirstBits (byteValue b).
Proof.
  unfold convertBufferToBitArray, msbFirstBits. cbn [flat_map]. rewrite app_nil_r.
  apply map_ext_in. intros i Hi%in_seq. apply bit_of_shift. lia.
Qed.

Lemma msbFirstBits_bits v : Forall isBit (msbFirstBits v).
Proof.
  unfold msbFirstBits. rewrite map_fmap.
  apply Forall_forall. intros b (i & -> & _)%list_elem_of_fmap.
  unfold isBit. pose proof (Z.mod_pos_bound (v / 2 ^ (7 - Z.of_nat i)) 2). lia.
Qed.

Lemma convertBufferToBitArray_cons b buffer :
  convertBufferToBitArray (b :: buffer)
  = msbFirstBits (byteValue b) ++ convertBufferToBitArray buffer.
Proof.
  rewrite <- convertBufferToBitArray_byte. unfold convertBufferToBitArray.
  cbn [flat_map]. now rewrite app_nil_r.
Qed.

Lemma convertBufferToBitArray_bits buffer : Forall isBit (convertBufferToBitArray buffer).
Proof.
  induction buffer as [|b buffer IH]; [constructor|].
  rewrite convertBufferToBitArray_cons. apply Forall_app. split; [|done].
  apply msbFirstBits_bits.
Qed.

Lemma convertBufferToBitArray_length buffer :
  length (convertBufferToBitArray buffer) = 8 * length buffer.
Proof.
  induction buffer as [|b buffer IH]; [done|].
  rewrite convertBufferToBitArray_cons, length_app, IH.
  unfold msbFirstBits. rewrite length_map, length_seq. simpl length. lia.
Qed.

Lemma byteValue_byteOfNumber v : byteValue (byteOfNumber v) = (v mod 256)%Z.
Proof.
  unfold byteValue, byteOfNumber.
  change 255%Z with (Z.ones 8). rewrite Z.land_ones by lia.
  change (2 ^ 8)%Z with 256%Z.
  pose proof (Z.mod_pos_bound v 256 eq_refl) as Hb.
  pose proof (Byte.to_of_N_option_map (Z.to_N (v mod 256))) as Hopt.
  destruct (Byte.of_N (Z.to_N (v mod 256))) as [b|] eqn:Eb.
  - apply Byte.to_of_N in Eb. rewrite Eb. lia.
  - simpl in Hopt. destruct (N.leb_spec (Z.to_N (v mod 256)) 255); [discriminate | lia].
Qed.

Lemma checksumOf_fold bits acc :
  Forall isBit bits ->
  fold_left (fun total bit => (total + Z.lxor bit 1)%Z) bits acc = (acc + zeroCount bits)%Z.
Proof.
  intros Hbits. revert acc. unfold zeroCount.
  induction Hbits as [|b bits [-> | ->] _ IH]; intros acc;
    cbn [fold_left List.filter]; [simpl; lia | |].
  - rewrite IH. change (Z.lxor 0 1) with 1%Z. simpl length. lia.
  - rewrite IH. change (Z.lxor 1 1) with 0%Z. simpl. lia.
Qed.

Lemma checksumOf_zeroCount bits : Forall isBit bits -> checksumOf bits = zeroCount bits.
Proof. intros H. unfold checksumOf. now rewrite checksumOf_fold. Qed.

Lemma zeroCount_bounds bits : (0 <= zeroCount bits <= Z.of_nat (length bits))%Z.
Proof.
  unfold zeroCount. pose proof (filter_length_le (fun b => (b =? 0)%Z) bits). lia.
Qed.

Lemma appendChecksum_bits bits :
  Forall isBit bits ->
  appendChecksum bits = bits ++ msbFirstBits (zeroCount bits mod 256).
Proof.
  intros H. unfold appendChecksum, Buffer_alloc_fill, CHECKSUM_BYTE_SIZE. simpl replicate.
  now rewrite convertBufferToBitArray_byte, byteValue_byteOfNumber, checksumOf_zeroCount.
Qed.

Lemma appendChecksum_isBit bits : Forall isBit bits -> Forall isBit (appendChecksum bits).
Proof.
  intros H. rewrite appendChecksum_bits by done.
  apply Forall_app. split; [done | apply msbFirstBits_bits].
Qed.

Lemma appendChecksum_length bits : length (appendChecksum bits) = length bits + 8.
Proof.
  unfold appendChecksum. rewrite length_app, convertBufferToBitArray_length.
  unfold Buffer_alloc_fill, CHECKSUM_BYTE_SIZE. now rewrite length_replicate.
Qed.

Lemma messageBits_isBit sha256 hashEncoding message :
  Forall isBit (messageBits sha256 hashEncoding message).
Proof. apply appendChecksum_isBit, convertBufferToBitArray_bits. Qed.

(** * Selection of entries and the walk of [verify] *)

Lemma popcount_cons bit bits :
  popcount (bit :: bits) = (if (bit =? 1)%Z then 1 else 0) + popcount bits.
Proof.
  unfold popcount. cbn [List.filter]. now destruct (bit =? 1)%Z.
Qed.

Lemma popcount_le bits : popcount bits <= length bits.
Proof. apply filter_length_le. Qed.

Lemma entriesAtOneBits_length_le bits key :
  length (entriesAtOneBits bits key) <= popcount bits.
Proof.
  revert key. induction bits as [|bit bits IH]; intros [|entry key]; simpl; try lia.
  rewrite popcount_cons. specialize (IH key).
  destruct (bit =? 1)%Z; simpl; lia.
Qed.

Lemma entriesAtOneBits_length bits key :
  length bits <= length key ->
  length (entriesAtOneBits bits key) = popcount bits.
Proof.
  revert key. induction bits as [|bit bits IH]; intros [|entry key]; simpl; try lia; try done.
  intros Hlen. rewrite popcount_cons, <- (IH key) by lia.
  destruct (bit =? 1)%Z; simpl; lia.
Qed.

Lemma filter_imap_falsy {A} (f : nat -> A -> jsval) (l : list A) :
  (forall i x, truthy (f i x) = false) -> List.filter truthy (imap f l) = [].
Proof.
  revert f. induction l as [|x l IH]; intros f Hf; [done|].
  rewrite imap_cons. cbn [List.filter]. rewrite Hf. apply IH. intros i y. apply Hf.
Qed.

Lemma entriesAtOneBits_nil bits : entriesAtOneBits bits [] = [].
Proof. now destruct bits. Qed.

(** What [sign] keeps of a key whose slots are holes and strings: the
    strings at the 1-bits that are not empty. *)
Lemma selectEntries_held P bits key :
  Forall isBit bits ->
  Forall (heldString P) key ->
  selectEntries bits key = stringValues (heldAtOneBits bits key).
Proof.
  intros Hbits. revert key. unfold selectEntries.
  induction Hbits as [|bit bits Hbit _ IH]; intros key Hkey; [done|].
  destruct key as [|s key].
  - simpl heldAtOneBits.
    apply filter_imap_falsy. intros i b. unfold itemAt. simpl. now destruct (b =? 0)%Z.
  - rewrite imap_cons. inversion Hkey as [|? ? Hs Hkey']; subst.
    change (imap _ bits) with
      (imap (fun index bit0 => if (bit0 =? 0)%Z then null else itemAt key index) bits).
    specialize (IH key Hkey'). unfold itemAt at 1. cbn [lookup list_lookup].
    destruct s as [[[| | | |entry]|]|]; simpl in Hs; try done.
    + destruct Hbit as [-> | ->]; simpl.
      * exact IH.
      * destruct (String.eqb entry ""); simpl; [exact IH|]. now rewrite IH.
    + destruct Hbit as [-> | ->]; simpl; exact IH.
Qed.

Lemma heldAtOneBits_strings bits key :
  Forall (fun s => s <> ""%string) key ->
  heldAtOneBits bits (strings key) = entriesAtOneBits bits key.
Proof.
  intros Hkey. revert bits. induction Hkey as [|entry key Hentry _ IH]; intros [|bit bits];
    try done.
  simpl. rewrite IH. destruct (bit =? 1)%Z; [|done].
  destruct (String.eqb_spec entry ""); done.
Qed.

Lemma heldAtOneBits_length_le bits key :
  length (heldAtOneBits bits key) <= popcount bits.
Proof.
  revert key. induction bits as [|bit bits IH]; intros [|s key]; simpl; try lia.
  rewrite popcount_cons. specialize (IH key).
  destruct s as [[[| | | |entry]|]|]; try (destruct (bit =? 1)%Z; lia).
  destruct (bit =? 1)%Z; simpl; [destruct (negb _); simpl|]; lia.
Qed.

Section Walk.

Variable sha256 : string -> TextCodec -> string.
Variable hashEncoding : TextCodec.

Lemma strictEqualString_lookup s (pubs : list string) index :
  strictEqualString s (itemAt (strings pubs) index)
  = match pubs !! index with
    | Some target => String.eqb s target
    | None => false
    end.
Proof. rewrite itemAt_strings. now destruct (pubs !! index). Qed.

(** The signature of a message, with any entries after it, is accepted
    under the matching public key. *)
Lemma verifyWalk_accepts bits privs extra :
  Forall isBit bits ->
  forall index,
    index + length bits <= length privs ->
    verifyWalk sha256 hashEncoding bits index
      (entriesAtOneBits bits (drop index privs) ++ extra)
      (publicEntries sha256 hashEncoding privs) = true.
Proof.
  induction 1 as [|bit bits Hbit _ IH]; intros index Hlen; [done|].
  simpl in Hlen.
  destruct (lookup_lt_is_Some_2 privs index ltac:(lia)) as [entry Hentry].
  rewrite (drop_S _ _ _ Hentry). simpl.
  destruct Hbit as [-> | ->]; simpl.
  - apply IH. lia.
  - rewrite strictEqualString_lookup. unfold publicEntries.
    rewrite list_lookup_fmap, Hentry. simpl.
    rewrite String.eqb_refl. simpl. apply IH. lia.
Qed.

(** Too few entries for the 1-bits: rejected. *)
Lemma verifyWalk_exhausted bits :
  Forall isBit bits ->
  forall index remaining pubs,
    length remaining < popcount bits ->
    verifyWalk sha256 hashEncoding bits index remaining pubs = false.
Proof.
  induction 1 as [|bit bits Hbit _ IH]; intros index remaining pubs Hlen.
  { unfold popcount in Hlen. simpl in Hlen. lia. }
  rewrite popcount_cons in Hlen. simpl.
  destruct Hbit as [-> | ->]; simpl in *.
  - apply IH. lia.
  - destruct remaining as [|entry remaining]; [done|].
    simpl in Hlen. rewrite (IH _ remaining) by lia. apply andb_false_r.
Qed.

(** A rejection comes from a 1-bit position whose entry, the one at the
    rank of that 1-bit, is missing or does not hash to the key entry. *)
Lemma verifyWalk_rejects bits :
  Forall isBit bits ->
  forall index remaining pubs,
    verifyWalk sha256 hashEncoding bits index remaining pubs = false <->
    exists i, bits !! i = Some 1%Z /\
      match remaining !! popcount (take i bits) with
      | None => True
      | Some entry => pubs !! (index + i) <> Some (sha256 entry hashEncoding)
      end.
Proof.
  induction 1 as [|bit bits Hbit _ IH]; intros index remaining pubs.
  { simpl. split; [discriminate | intros (i & Hi & _); discriminate]. }
  simpl. destruct Hbit as [-> | ->]; simpl.
  - rewrite IH. split.
    + intros (i & Hi & Hc). exists (S i). split; [done|].
      simpl take. rewrite popcount_cons. simpl. now rewrite Nat.add_succ_r.
    + intros ([|i] & Hi & Hc); [discriminate|]. exists i. split; [done|].
      simpl take in Hc. rewrite popcount_cons in Hc. simpl in Hc.
      now rewrite Nat.add_succ_r in Hc.
  - destruct remaining as [|entry remaining].
    { split; [|done]. intros _. exists 0. done. }
    rewrite andb_false_iff, IH, strictEqualString_lookup. split.
    + intros [Hne | (i & Hi & Hc)].
      * exists 0. split; [done|]. simpl. rewrite Nat.add_0_r.
        destruct (pubs !! index) as [target|]; [|done].
        apply String.eqb_neq in Hne. congruence.
      * exists (S i). split; [done|].
        simpl take. rewrite popcount_cons. simpl. now rewrite Nat.add_succ_r.
    + intros ([|i] & Hi & Hc).
      * left. simpl in Hc. rewrite Nat.add_0_r in Hc.
        destruct (pubs !! index) as [target|]; [|done].
        apply String.eqb_neq. congruence.
      * right. exists i. split; [done|].
        simpl take in Hc. rewrite popcount_cons in Hc. simpl in Hc.
        now rewrite Nat.add_succ_r in Hc.
Qed.

End Walk.

(** * Key generation and signing *)

Section Scheme.

Variable Buffer_fromArray : list jsval -> list byte.
Variable sha256 : string -> TextCodec -> string.
Variable hmacSha256 : string -> TextCodec -> string -> TextCodec -> string.
Variable randomBytes : nat -> nat -> list byte.
Variable JSON_stringify : jsval -> string.
Variable JSON_parse : string -> option jsval.
Variable Number_toString : Z -> string.
Variable hashEncoding : TextCodec.
Variable seedEncoding : TextCodec.

(** The notions of the specification at these collaborators. *)
#[local] Abbreviation seedPrivs :=
  (seedEntries hmacSha256 Number_toString hashEncoding seedEncoding).
#[local] Abbreviation randomPrivs := (randomEntries randomBytes hashEncoding).
#[local] Abbreviation generated :=
  (generatedPair Buffer_fromArray sha256 hmacSha256 randomBytes JSON_stringify Number_toString
     hashEncoding seedEncoding).

Lemma hashedSlots_strings privs :
  hashedSlots sha256 hashEncoding (strings privs)
  = strings (publicEntries sha256 hashEncoding privs).
Proof.
  unfold hashedSlots, strings, publicEntries. now rewrite <- !list_fmap_compose.
Qed.

(** [map] with the hashing callback on a key whose slots are holes and
    strings: the callback runs on the strings and the holes stay. *)
Lemma mapM_hashItem P (key : list slot) (h : heap) :
  Forall (heldString P) key ->
  mapM (fun s : slot =>
          match s with
          | Some item =>
              let! v := (let! hash := hashItem sha256 hashEncoding item in
                         ret (VStr hash)) in
              ret (Some v)
          | None => ret None
          end) key h
  = (Ok (hashedSlots sha256 hashEncoding key), h).
Proof.
  induction 1 as [|s key Hs _ IH]; simpl; [done|].
  destruct s as [[[| | | |entry]|]|]; simpl in Hs; try done.
  - unfold bind at 1. unfold bind at 1. unfold bind at 1. simpl.
    unfold bind at 1. now rewrite IH.
  - unfold bind at 1. simpl. unfold bind at 1. now rewrite IH.
Qed.

Lemma getRawPublicKey_slots P l (h : heap) key :
  h !! l = Some key ->
  Forall (heldString P) key ->
  getRawPublicKeyFromRawPrivateKey sha256 hashEncoding (RArr l) h
  = (Ok (RArr (length h)), h ++ [hashedSlots sha256 hashEncoding key]).
Proof.
  intros Hl Hkey. unfold getRawPublicKeyFromRawPrivateKey. simpl.
  rewrite (bind_ok _ _ _ _ _ (load_ok _ _ _ Hl)).
  now rewrite (bind_ok _ _ _ _ _ (mapM_hashItem _ _ _ Hkey)).
Qed.

Lemma getRawPublicKey_run l (h : heap) privs :
  h !! l = Some (strings privs) ->
  getRawPublicKeyFromRawPrivateKey sha256 hashEncoding (RArr l) h
  = (Ok (RArr (length h)), h ++ [strings (publicEntries sha256 hashEncoding privs)]).
Proof.
  intros Hl. rewrite <- hashedSlots_strings.
  apply (getRawPublicKey_slots (fun _ => True)); [done|].
  apply strings_held, Forall_true. done.
Qed.

(** Encoding a freshly built pair of raw keys. *)
Lemma encodePair_run kf (h : heap) privs :
  let pubs := publicEntries sha256 hashEncoding privs in
  let h' := h ++ [strings privs; strings pubs] in
  exists kp : KeyPair kf,
    (let! publicKey := getRawPublicKeyFromRawPrivateKey sha256 hashEncoding
                         (RArr (length h)) in
     let! encodedPrivateKey := encodeKey Buffer_fromArray JSON_stringify kf hashEncoding
                                 (RArr (length h)) in
     let! encodedPublicKey := encodeKey Buffer_fromArray JSON_stringify kf hashEncoding publicKey in
     ret {| privateKey := encodedPrivateKey; publicKey := encodedPublicKey |})
      (h ++ [strings privs]) = (Ok kp, h') /\
    encodes JSON_stringify hashEncoding kf h' (privateKey kp) privs /\
    encodes JSON_stringify hashEncoding kf h' (publicKey kp) pubs.
Proof.
  intros pubs h'.
  assert (Hpriv : (h ++ [strings privs]) !! length h = Some (strings privs))
    by apply lookup_alloc.
  rewrite (bind_ok _ _ _ _ _ (getRawPublicKey_run _ _ _ Hpriv)).
  fold pubs. replace ((h ++ [strings privs]) ++ [strings pubs]) with h'
    by (unfold h'; now rewrite <- app_assoc).
  assert (Hpriv' : h' !! length h = Some (strings privs)).
  { unfold h'. rewrite lookup_app_r, Nat.sub_diag by lia. done. }
  assert (Hpub' : h' !! length (h ++ [strings privs]) = Some (strings pubs)).
  { unfold h'. rewrite length_app. simpl.
    rewrite lookup_app_r by lia. now replace (length h + 1 - length h) with 1 by lia. }
  destruct (encodeKey_run Buffer_fromArray JSON_stringify hashEncoding kf _ _ _ Hpriv')
    as (ep & Eep & Hep).
  destruct (encodeKey_run Buffer_fromArray JSON_stringify hashEncoding kf _ _ _ Hpub')
    as (eq & Eeq & Heq).
  rewrite (bind_ok _ _ _ _ _ Eep), (bind_ok _ _ _ _ _ Eeq).
  eexists. split; [done|]. simpl. auto.
Qed.

Lemma generateKeysFromSeed_run kf seed index (h : heap) :
  SEED_BYTE_SIZE <= length (Buffer_from seedEncoding seed) ->
  let privs := seedPrivs seed (default 0%Z index) in
  let pubs := publicEntries sha256 hashEncoding privs in
  let h' := h ++ [strings privs; strings pubs] in
  exists kp,
    generateKeysFromSeed Buffer_fromArray sha256 hmacSha256 JSON_stringify Number_toString kf
      hashEncoding seedEncoding seed index h = (Ok kp, h') /\
    encodes JSON_stringify hashEncoding kf h' (privateKey kp) privs /\
    encodes JSON_stringify hashEncoding kf h' (publicKey kp) pubs.
Proof.
  intros Hseed privs pubs h'. unfold generateKeysFromSeed.
  destruct (_ <? _) eqn:E; [apply Nat.ltb_lt in E; lia|].
  unfold generateRandomArrayFromSeed.
  unfold bind at 1 2. unfold alloc at 1. unfold ret at 1.
  replace (map _ _) with (strings privs)
    by (unfold privs, seedEntries, strings; now rewrite <- list_fmap_compose).
  apply (encodePair_run kf h privs).
Qed.

Lemma generateKeys_run kf (h : heap) :
  let privs := randomPrivs in
  let pubs := publicEntries sha256 hashEncoding privs in
  let h' := h ++ [strings privs; strings pubs] in
  exists kp,
    generateKeys Buffer_fromArray sha256 randomBytes JSON_stringify kf hashEncoding h
    = (Ok kp, h') /\
    encodes JSON_stringify hashEncoding kf h' (privateKey kp) privs /\
    encodes JSON_stringify hashEncoding kf h' (publicKey kp) pubs.
Proof.
  intros privs pubs h'. unfold generateKeys, generateRandomArray.
  unfold bind at 1 2. unfold alloc at 1. unfold ret at 1.
  replace (map _ _) with (strings privs)
    by (unfold privs, randomEntries, strings; now rewrite <- list_fmap_compose).
  apply (encodePair_run kf h privs).
Qed.

Lemma seedEntries_length seed index :
  length (seedPrivs seed index) = KEY_SIG_ENTRY_COUNT.
Proof. unfold seedEntries. now rewrite length_fmap, length_seq. Qed.

Lemma randomEntries_length : length randomPrivs = KEY_SIG_ENTRY_COUNT.
Proof. unfold randomEntries. now rewrite length_fmap, length_seq. Qed.

(** [sign] on a private key that decodes: the signature holds the strings
    of the key at the 1-bits, the empty string apart. *)
Lemma sign_run_slots kf sf message (privateKey : encodedT kf) (h : heap) l h1 key :
  decodeKey JSON_parse kf hashEncoding privateKey h = (Ok (RArr l), h1) ->
  h1 !! l = Some key ->
  let sigs := heldAtOneBits (messageBits sha256 hashEncoding message) key in
  let h' := h1 ++ [strings sigs] in
  exists e,
    sign Buffer_fromArray sha256 JSON_stringify JSON_parse kf sf hashEncoding message
      privateKey h
    = (Ok e, h') /\
    encodes JSON_stringify hashEncoding sf h' e sigs /\
    forall l', argLoc sf e = Some l' -> l' = length h1.
Proof.
  intros Ed Hl sigs h'. unfold sign.
  rewrite (bind_ok _ _ _ _ _ Ed). simpl loadRef.
  rewrite (bind_ok _ _ _ _ _ (load_ok _ _ _ Hl)).
  destruct (decodeKey_inv _ _ _ _ _ _ _ Ed) as (l' & key' & [= <-] & Hl' & _ & Hkey & _).
  rewrite Hl in Hl'. injection Hl' as <-.
  rewrite (selectEntries_held _ _ _ (messageBits_isBit _ _ _) Hkey), Some_stringValues.
  unfold bind at 1. unfold alloc at 1. fold sigs. fold h'.
  destruct (encodeSignature_run Buffer_fromArray JSON_stringify hashEncoding sf (length h1)
              h' sigs (lookup_alloc _ _)) as (e & Ee & He).
  exists e. split_and!; auto. intros l' Hl'.
  destruct sf; try discriminate. simpl in Ee. injection Ee as <-. now injection Hl' as <-.
Qed.

Lemma sign_run kf sf message (privateKey : encodedT kf) (h : heap) l h1 privs :
  decodeKey JSON_parse kf hashEncoding privateKey h = (Ok (RArr l), h1) ->
  h1 !! l = Some (strings privs) ->
  Forall (fun s => s <> ""%string) privs ->
  let sigs := entriesAtOneBits (messageBits sha256 hashEncoding message) privs in
  let h' := h1 ++ [strings sigs] in
  exists e,
    sign Buffer_fromArray sha256 JSON_stringify JSON_parse kf sf hashEncoding message
      privateKey h
    = (Ok e, h') /\
    encodes JSON_stringify hashEncoding sf h' e sigs.
Proof.
  intros Ed Hl Hne. cbv zeta.
  rewrite <- (heldAtOneBits_strings _ _ Hne).
  destruct (sign_run_slots kf sf message privateKey h l h1 _ Ed Hl) as (e & Es & He & _).
  eauto.
Qed.

(** ** Key generation from a seed *)

(** C5: with a seed of at least 32 bytes and an index at least 0,
    [generateKeysFromSeed] returns the encoded forms of a private key
    whose entry i is [hmacSha256(seed, "{index}-{i}")], for every i below
    264, and of the public key whose entry i is the hash of private entry
    i; the two lists depend on the seed and the index only, so any two
    calls with the same arguments return the same key pair. *)
Theorem generateKeysFromSeed_derivation kf seed (index : Z) :
  SEED_BYTE_SIZE <= length (Buffer_from seedEncoding seed) ->
  (0 <= index)%Z ->
  exists privs pubs : list string,
    length privs = KEY_SIG_ENTRY_COUNT /\ length pubs = KEY_SIG_ENTRY_COUNT /\
    (forall i, i < KEY_SIG_ENTRY_COUNT ->
       privs !! i = Some (hmacSha256 seed seedEncoding
                            (Number_toString index +:+ "-" +:+ Number_toString (Z.of_nat i))
                            hashEncoding) /\
       pubs !! i = (fun s => sha256 s hashEncoding) <$> privs !! i) /\
    (forall h : heap, exists kp h',
       generateKeysFromSeed Buffer_fromArray sha256 hmacSha256 JSON_stringify Number_toString kf
         hashEncoding seedEncoding seed (Some index) h = (Ok kp, h') /\
       encodes JSON_stringify hashEncoding kf h' (privateKey kp) privs /\
       encodes JSON_stringify hashEncoding kf h' (publicKey kp) pubs) /\
    (forall h1 h2 : heap, kf <> Fobject ->
       fst (generateKeysFromSeed Buffer_fromArray sha256 hmacSha256 JSON_stringify
              Number_toString kf hashEncoding seedEncoding seed (Some index) h1)
       = fst (generateKeysFromSeed Buffer_fromArray sha256 hmacSha256 JSON_stringify
                Number_toString kf hashEncoding seedEncoding seed (Some index) h2)).
Proof.
  intros Hseed _.
  exists (seedPrivs seed index),
    (publicEntries sha256 hashEncoding (seedPrivs seed index)).
  split; [apply seedEntries_length|].
  split; [unfold publicEntries; rewrite length_fmap; apply seedEntries_length|].
  split; [|split].
  - intros i Hi. split.
    + unfold seedEntries. rewrite list_lookup_fmap, lookup_seq_lt by done. done.
    + unfold publicEntries. now rewrite list_lookup_fmap.
  - intros h. destruct (generateKeysFromSeed_run kf seed (Some index) h Hseed)
      as (kp & E & Hp & Hq).
    eauto.
  - intros h1 h2 Hkf.
    destruct (generateKeysFromSeed_run kf seed (Some index) h1 Hseed) as (kp1 & E1 & Hp1 & Hq1).
    destruct (generateKeysFromSeed_run kf seed (Some index) h2 Hseed) as (kp2 & E2 & Hp2 & Hq2).
    rewrite E1, E2. simpl. f_equal.
    destruct kp1 as [p1 q1], kp2 as [p2 q2]. simpl in *.
    destruct kf; simpl in *.
    + done.
    + congruence.
    + congruence.
    + congruence.
Qed.

(** C6: [generateKeysFromSeed] throws the seed-length error exactly when
    the decoded seed has fewer than 32 bytes; it then leaves the store as
    it found it: no array of key entries has been created.  With a seed
    of 32 bytes or more it returns a key pair. *)
Theorem generateKeysFromSeed_seed_guard kf seed index (h : heap) :
  let run := generateKeysFromSeed Buffer_fromArray sha256 hmacSha256 JSON_stringify
               Number_toString kf hashEncoding seedEncoding seed index h in
  (fst run = Throw SeedTooShort <-> length (Buffer_from seedEncoding seed) < SEED_BYTE_SIZE) /\
  (length (Buffer_from seedEncoding seed) < SEED_BYTE_SIZE -> run = (Throw SeedTooShort, h)) /\
  (SEED_BYTE_SIZE <= length (Buffer_from seedEncoding seed) ->
     exists kp h', run = (Ok kp, h')).
Proof.
  intros run.
  assert (Hshort : length (Buffer_from seedEncoding seed) < SEED_BYTE_SIZE ->
                   run = (Throw SeedTooShort, h)).
  { intros Hlt. unfold run, generateKeysFromSeed.
    apply Nat.ltb_lt in Hlt. now rewrite Hlt. }
  assert (Hlong : SEED_BYTE_SIZE <= length (Buffer_from seedEncoding seed) ->
                  exists kp h', run = (Ok kp, h')).
  { intros Hle. destruct (generateKeysFromSeed_run kf seed index h Hle) as (kp & E & _).
    eauto. }
  split; [|split; assumption].
  split.
  - intros Hthrow.
    destruct (Nat.lt_ge_cases (length (Buffer_from seedEncoding seed)) SEED_BYTE_SIZE)
      as [Hlt | Hle]; [done|].
    destruct (Hlong Hle) as (kp & h' & E). rewrite E in Hthrow. discriminate.
  - intros Hlt. now rewrite (Hshort Hlt).
Qed.

(** ** The checksum *)

(** C4: for a sequence of 256 digest bits, the bits that [sign] and
    [verify] append are the eight bits, most significant first, of the
    number of zero bits modulo 256; that number lies between 0 and 256,
    and at 256 (all bits zero) the appended byte is 0. *)
Theorem checksum_is_zero_count_mod_256 (bits : list Z) :
  length bits = 256 ->
  Forall isBit bits ->
  appendChecksum bits = bits ++ msbFirstBits (zeroCount bits mod 256) /\
  checksumOf bits = zeroCount bits /\
  (0 <= zeroCount bits <= 256)%Z /\
  map byteValue (Buffer_alloc_fill CHECKSUM_BYTE_SIZE (checksumOf bits))
    = [(zeroCount bits mod 256)%Z] /\
  (zeroCount bits = 256%Z -> appendChecksum bits = bits ++ replicate 8 0%Z) /\
  (forall message,
     messageBits sha256 hashEncoding message
     = appendChecksum (convertEncodedStringToBitArray hashEncoding
                         (sha256 message hashEncoding))).
Proof.
  intros Hlen Hbits.
  pose proof (zeroCount_bounds bits) as Hb. rewrite Hlen in Hb.
  split; [now apply appendChecksum_bits|].
  split; [now apply checksumOf_zeroCount|].
  split; [lia|].
  split.
  { unfold Buffer_alloc_fill, CHECKSUM_BYTE_SIZE. simpl.
    now rewrite byteValue_byteOfNumber, checksumOf_zeroCount. }
  split; [|done].
  intros Hall. rewrite appendChecksum_bits, Hall by done. done.
Qed.

(** ** Verification *)

(** When decoding the signature or the public key fails, [verify]
    returns [false]; with a signature that has no hole it returns a
    boolean in every case. *)
Lemma verify_false_on_decoding_failure kf sf message (signature : encodedT sf)
      (publicKey : encodedT kf) (h : heap) :
  (decodingFails JSON_parse hashEncoding kf sf signature publicKey h ->
   fst (verify sha256 JSON_parse kf sf hashEncoding message signature publicKey h)
   = Ok false) /\
  (dense sf h signature ->
   exists b h',
     verify sha256 JSON_parse kf sf hashEncoding message signature publicKey h
     = (Ok b, h')).
Proof.
  split.
  - intros [(e & h1 & Es) | (rs & h1 & e & h2 & Es & Ek)].
    + now rewrite (verify_signature_throws sha256 JSON_parse hashEncoding kf sf message
                   signature publicKey h e h1 Es).
    + now rewrite (verify_key_throws sha256 JSON_parse hashEncoding kf sf message
                   signature publicKey h rs h1 e h2 Es Ek).
  - apply verify_returns.
Qed.



(** Causes of a decoding failure: a value that is not an array, too many
    entries, an entry of the wrong size, text that does not parse, a
    buffer of the wrong length. *)
Lemma decodeSignature_rejects_non_array p (h : heap) :
  decodeSignature JSON_parse Fobject hashEncoding (RPrim p) h
  = (Throw SignatureNotArray, h).
Proof. done. Qed.

Lemma decodeSignature_rejects_length l (h : heap) items :
  h !! l = Some items -> KEY_SIG_ENTRY_COUNT < length items ->
  decodeSignature JSON_parse Fobject hashEncoding (RArr l) h
  = (Throw SignatureInvalidLength, h).
Proof.
  intros Hl Hlen. simpl. unfold bind at 1 2. rewrite (load_ok _ _ _ Hl).
  apply Nat.ltb_lt in Hlen. now rewrite Hlen.
Qed.

Lemma decodeSignature_rejects_item l (h : heap) items :
  h !! l = Some items -> length items <= KEY_SIG_ENTRY_COUNT ->
  Array_every (validItem hashEncoding) items = false ->
  decodeSignature JSON_parse Fobject hashEncoding (RArr l) h
  = (Throw SignatureInvalidItems, h).
Proof.
  intros Hl Hlen Hitems. simpl. unfold bind at 1 2. rewrite (load_ok _ _ _ Hl).
  apply Nat.ltb_ge in Hlen. now rewrite Hlen, Hitems.
Qed.

Lemma decodeSignature_rejects_syntax text (h : heap) :
  JSON_parse text = None ->
  decodeSignature JSON_parse Fjson hashEncoding text h = (Throw SyntaxError, h).
Proof. intros E. simpl. unfold parseJSON, bind. now rewrite E. Qed.

Lemma decodeSignature_rejects_byte_length (encoded : list byte) (h : heap) :
  length encoded <= KEY_SIG_ENTRY_COUNT * HASH_ELEMENT_BYTE_SIZE ->
  length encoded mod HASH_ELEMENT_BYTE_SIZE <> 0 ->
  decodeSignature JSON_parse Fbuffer hashEncoding encoded h
  = (Throw SignatureNotMultiple, h).
Proof.
  intros Hlen Hmod. simpl. unfold _decodeSignatureFromBuffer.
  apply Nat.ltb_ge in Hlen. rewrite Hlen.
  apply Nat.eqb_neq in Hmod. now rewrite Hmod.
Qed.

Lemma decodeKey_rejects_byte_length (encoded : list byte) (h : heap) :
  length encoded <> KEY_SIG_ENTRY_COUNT * HASH_ELEMENT_BYTE_SIZE ->
  decodeKey JSON_parse Fbuffer hashEncoding encoded h
  = (Throw KeyInvalidByteLength, h).
Proof.
  intros Hlen. simpl. unfold _decodeKeyFromBuffer.
  apply Nat.eqb_neq in Hlen. now rewrite Hlen.
Qed.

(** C10: [verify] leaves every array that existed before the call as it
    was, whatever its outcome: the array it reverses and pops is the one
    [decodeSignature] has just created.  Under ['object'] that array is
    the copy that the spread syntax makes of the caller's, equal to it
    unless the caller's array has a hole; under the other formats it is
    built from the text or the bytes.  Strings and buffers are values. *)
Theorem verify_preserves_arguments kf sf message (signature : encodedT sf)
        (publicKey : encodedT kf) (h : heap) :
  (forall r h',
     verify sha256 JSON_parse kf sf hashEncoding message signature publicKey h = (r, h') ->
     length h <= length h' /\
     forall l, l < length h -> h' !! l = h !! l) /\
  (forall rs h1,
     decodeSignature JSON_parse sf hashEncoding signature h = (Ok rs, h1) ->
     rs = RArr (length h) /\ h !! length h = None /\
     exists items, h1 = h ++ [items] /\
       forall l, argLoc sf signature = Some l ->
         exists original,
           h !! l = Some original /\ items = spreadOf original /\
           (~ hasHole original -> items = original)).
Proof.
  split.
  - intros r h' E. exact (verify_frames _ _ _ _ _ _ _ _ _ _ _ E).
  - intros rs h1 E.
    destruct (decodeSignature_inv _ _ _ _ _ _ _ E) as (items & -> & -> & _ & Hcase).
    split; [done|]. split; [now apply lookup_ge_None_2|].
    exists items. split; [done|].
    intros l Hl. rewrite Hl in Hcase. destruct Hcase as (original & Ho & -> & _).
    exists original. split_and!; auto using spreadOf_dense.
Qed.

Lemma stringsOf_strings entries : stringsOf (strings entries) = Some entries.
Proof. induction entries as [|s entries IH]; simpl; [done|]. now rewrite IH. Qed.

Lemma verifyCursor_walk signature publicKey bits :
  forall index cursor,
    verifyCursor sha256 hashEncoding bits index cursor signature publicKey
    = verifyWalk sha256 hashEncoding bits index (drop cursor signature) publicKey.
Proof.
  induction bits as [|bit bits IH]; intros index cursor; simpl; [done|].
  destruct (bit =? 0)%Z; [apply IH|].
  destruct (signature !! cursor) as [entry|] eqn:E.
  - rewrite (drop_S _ _ _ E), strictEqualString_lookup.
    destruct (publicKey !! index) as [target|]; [|done].
    destruct (String.eqb _ _); [apply IH | done].
  - apply lookup_ge_None in E. now rewrite drop_ge.
Qed.

(** With a signature and a public key that have no hole, the implemented
    [verify], which reverses the decoded signature and pops its tail,
    returns the boolean of the forward-cursor reference. *)
Lemma verify_forward_cursor_dense kf sf message (signature : encodedT sf)
      (publicKey : encodedT kf) (h : heap) :
  live kf h publicKey ->
  dense sf h signature ->
  dense kf h publicKey ->
  fst (verify sha256 JSON_parse kf sf hashEncoding message signature publicKey h)
  = Ok (verifyReference sha256 JSON_parse hashEncoding kf sf message signature publicKey h).
Proof.
  intros Hlive Hds Hdk. unfold verifyReference.
  destruct (decodeSignature JSON_parse sf hashEncoding signature h)
    as [[rs|e] h1] eqn:Es.
  2:{ now rewrite (verify_signature_throws sha256 JSON_parse hashEncoding kf sf message
                   signature publicKey h e h1 Es). }
  destruct (decodeKey JSON_parse kf hashEncoding publicKey h1)
    as [[rp|e] h2] eqn:Ek.
  2:{ now rewrite (verify_key_throws sha256 JSON_parse hashEncoding kf sf message
                   signature publicKey h rs h1 e h2 Es Ek). }
  destruct (verify_run_dense sha256 JSON_parse hashEncoding kf sf message signature
              publicKey h rs h1 rp h2 Hlive Hds Hdk Es Ek)
    as (sigs & pubs & lp & h' & -> & -> & _ & -> & Hp & _ & E).
  rewrite E. simpl. f_equal.
  assert (Hs : h2 !! length h = Some (strings sigs)).
  { eapply prefix_lookup_Some; [apply lookup_alloc|].
    eapply decodeKey_allocOnly; eauto. }
  rewrite Hs, Hp, !stringsOf_strings.
  now rewrite verifyCursor_walk.
Qed.


(** ** Signing *)

(** What the platform guarantees: the hash encoding is lossless, the
    hashes are 32-byte digests printed in the hash encoding, and a draw
    of the random source has the size asked for. *)
Hypothesis hash_lossless : Lossless hashEncoding.
Hypothesis sha256_digest :
  forall message, canonical hashEncoding (sha256 message hashEncoding).
Hypothesis hmacSha256_digest :
  forall seed message,
    canonical hashEncoding (hmacSha256 seed seedEncoding message hashEncoding).
Hypothesis randomBytes_size : forall i size, length (randomBytes i size) = size.

Lemma messageBits_length message :
  length (messageBits sha256 hashEncoding message) = KEY_SIG_ENTRY_COUNT.
Proof.
  unfold messageBits. rewrite appendChecksum_length.
  unfold convertEncodedStringToBitArray. rewrite convertBufferToBitArray_length.
  destruct (sha256_digest message) as (d & Hd & ->).
  rewrite (from_toString _ hash_lossless), Hd. done.
Qed.

Lemma decodedEntry_nonempty s : decodedEntry hashEncoding s -> s <> ""%string.
Proof.
  intros Hs ->.
  assert (Hlen : Buffer_byteLength hashEncoding "" = HASH_ELEMENT_BYTE_SIZE).
  { destruct Hs as [Hs | Hs]; [done|]. now apply canonical_byteLength. }
  rewrite (byteLength_empty _ hash_lossless) in Hlen. discriminate.
Qed.

Lemma entriesAtOneBits_Forall (P : string -> Prop) bits key :
  Forall P key -> Forall P (entriesAtOneBits bits key).
Proof.
  intros Hkey. revert bits.
  induction Hkey as [|entry key Hentry _ IH]; intros [|bit bits]; simpl;
    try constructor.
  destruct (bit =? 1)%Z; [constructor|]; auto.
Qed.

(** The k-th entry selected is the key entry at the position of the
    1-bit of rank k. *)
Lemma entriesAtOneBits_lookup bits :
  Forall isBit bits ->
  forall key k entry,
    entriesAtOneBits bits key !! k = Some entry <->
    exists i, bits !! i = Some 1%Z /\ popcount (take i bits) = k /\
              key !! i = Some entry.
Proof.
  induction 1 as [|bit bits Hbit _ IH]; intros key k entry.
  { simpl. split; [discriminate | intros (i & Hi & _); discriminate]. }
  destruct key as [|entry0 key].
  { simpl. split; [discriminate | intros (i & _ & _ & Hi); discriminate]. }
  simpl. destruct Hbit as [-> | ->]; simpl.
  - rewrite IH. split.
    + intros (i & Hi & Hk & He). exists (S i). simpl take. rewrite popcount_cons. auto.
    + intros ([|i] & Hi & Hk & He); [discriminate|].
      simpl take in Hk. rewrite popcount_cons in Hk. exists i. auto.
  - destruct k as [|k]; simpl.
    + split.
      * intros [= ->]. exists 0. auto.
      * intros ([|i] & Hi & Hk & He); [now injection He as -> |].
        simpl take in Hk. rewrite popcount_cons in Hk. discriminate.
    + rewrite IH. split.
      * intros (i & Hi & Hk & He). exists (S i). simpl take. rewrite popcount_cons.
        simpl. auto.
      * intros ([|i] & Hi & Hk & He); [discriminate|].
        simpl take in Hk. rewrite popcount_cons in Hk. simpl in Hk.
        exists i. split_and!; auto.
Qed.

Lemma convertBufferToBitArray_bytesToBits buffer :
  convertBufferToBitArray buffer = bytesToBits buffer.
Proof.
  induction buffer as [|b buffer IH]; [done|].
  rewrite convertBufferToBitArray_cons, IH. done.
Qed.

(** The bit vector of a message is the vector of its digest: the bits of
    the digest, then the eight bits of the checksum. *)
Lemma messageBits_vector message :
  messageBits sha256 hashEncoding message
  = messageBitVector (Buffer_from hashEncoding (sha256 message hashEncoding)).
Proof.
  unfold messageBits, convertEncodedStringToBitArray, messageBitVector.
  rewrite appendChecksum_bits by apply convertBufferToBitArray_bits.
  now rewrite convertBufferToBitArray_bytesToBits.
Qed.

Lemma digest_length message :
  length (Buffer_from hashEncoding (sha256 message hashEncoding)) = HASH_ELEMENT_BYTE_SIZE.
Proof.
  destruct (sha256_digest message) as (d & Hd & ->).
  now rewrite (from_toString _ hash_lossless).
Qed.

(** C3: for a private key that decodes and has no hole (264 entries of 32
    bytes), [sign] returns the encoded form of the private entries at the
    positions of the 1-bits of the 264-bit vector of the message, in
    index order: its k-th entry is the private entry at the position of
    the 1-bit of rank k.  The vector is the 256 bits of the digest of the
    message, each byte most significant bit first, followed by the 8 bits
    of the number of zero bits among them modulo 256.  The number of
    entries is the popcount of the vector, at most 264. *)
Theorem sign_selects_entries kf sf message (privateKey : encodedT kf) (h : heap) r h1 :
  dense kf h privateKey ->
  decodeKey JSON_parse kf hashEncoding privateKey h = (Ok r, h1) ->
  let digest := Buffer_from hashEncoding (sha256 message hashEncoding) in
  let bits := messageBits sha256 hashEncoding message in
  exists l privs sigs,
    r = RArr l /\ h1 !! l = Some (strings privs) /\
    length privs = KEY_SIG_ENTRY_COUNT /\
    bits = bytesToBits digest ++ msbFirstBits (zeroCount (bytesToBits digest) mod 256) /\
    length (bytesToBits digest) = 256 /\
    length bits = KEY_SIG_ENTRY_COUNT /\ Forall isBit bits /\
    (exists e h',
       sign Buffer_fromArray sha256 JSON_stringify JSON_parse kf sf hashEncoding message
         privateKey h
       = (Ok e, h') /\
       encodes JSON_stringify hashEncoding sf h' e sigs) /\
    (forall k entry,
       sigs !! k = Some entry <->
       exists i, bits !! i = Some 1%Z /\ popcount (take i bits) = k /\
                 privs !! i = Some entry) /\
    length sigs = popcount bits /\
    length sigs <= KEY_SIG_ENTRY_COUNT.
Proof.
  intros Hdense Ed digest bits.
  destruct (decodeKey_dense _ _ _ _ _ _ _ Ed Hdense)
    as (l & privs & -> & Hl & Hlen & Hall & _).
  assert (Hne : Forall (fun s => s <> ""%string) privs).
  { eapply Forall_impl; [exact Hall|]. apply decodedEntry_nonempty. }
  pose proof (messageBits_length message) as Hbits.
  pose proof (messageBits_isBit sha256 hashEncoding message) as Hisbit.
  fold bits in Hbits, Hisbit.
  destruct (sign_run kf sf message privateKey h l h1 privs Ed Hl Hne) as (e & Es & He).
  exists l, privs, (entriesAtOneBits bits privs).
  split_and!; auto.
  - apply messageBits_vector.
  - rewrite <- convertBufferToBitArray_bytesToBits, convertBufferToBitArray_length.
    unfold digest. now rewrite digest_length.
  - eauto.
  - intros k entry. now apply entriesAtOneBits_lookup.
  - apply entriesAtOneBits_length. lia.
  - rewrite entriesAtOneBits_length by lia. rewrite <- Hbits. apply popcount_le.
Qed.

(** ** Signatures under generated key pairs *)

Lemma publicEntries_canonical privs :
  Forall (canonical hashEncoding) (publicEntries sha256 hashEncoding privs).
Proof.
  unfold publicEntries. apply Forall_fmap, Forall_forall. intros s _. apply sha256_digest.
Qed.

Lemma publicEntries_length privs :
  length (publicEntries sha256 hashEncoding privs) = length privs.
Proof. apply length_fmap. Qed.

Lemma generatedPair_entries kf kp (h0 h1 : heap) :
  generated kf kp h0 h1 ->
  exists privs,
    length privs = KEY_SIG_ENTRY_COUNT /\
    Forall (canonical hashEncoding) privs /\
    encodes JSON_stringify hashEncoding kf h1 (privateKey kp) privs /\
    encodes JSON_stringify hashEncoding kf h1 (publicKey kp)
      (publicEntries sha256 hashEncoding privs).
Proof.
  intros [E | (seed & index & E)].
  - destruct (generateKeys_run kf h0) as (kp' & E' & Hp & Hq).
    rewrite E in E'. injection E' as -> ->.
    exists randomPrivs. split; [apply randomEntries_length|]. split; [|auto].
    unfold randomEntries. apply Forall_fmap, Forall_forall. intros i _. simpl.
    eexists. split; [apply randomBytes_size | done].
  - destruct (Nat.lt_ge_cases (length (Buffer_from seedEncoding seed)) SEED_BYTE_SIZE)
      as [Hlt | Hle].
    { unfold generateKeysFromSeed in E. apply Nat.ltb_lt in Hlt.
      rewrite Hlt in E. discriminate. }
    destruct (generateKeysFromSeed_run kf seed index h0 Hle) as (kp' & E' & Hp & Hq).
    rewrite E in E'. injection E' as -> ->.
    exists (seedPrivs seed (default 0%Z index)).
    split; [apply seedEntries_length|]. split; [|auto].
    unfold seedEntries. apply Forall_fmap, Forall_forall. intros i _. simpl.
    apply hmacSha256_digest.
Qed.

(** [verify] on the encoded forms of canonical entries. *)
Lemma verify_encoded kf sf message (signature : encodedT sf) (publicKey : encodedT kf)
      (h : heap) sigs pubs :
  formatOk JSON_stringify JSON_parse kf ->
  formatOk JSON_stringify JSON_parse sf ->
  encodes JSON_stringify hashEncoding sf h signature sigs ->
  encodes JSON_stringify hashEncoding kf h publicKey pubs ->
  length sigs <= KEY_SIG_ENTRY_COUNT ->
  Forall (canonical hashEncoding) sigs ->
  length pubs = KEY_SIG_ENTRY_COUNT ->
  Forall (canonical hashEncoding) pubs ->
  exists h',
    verify sha256 JSON_parse kf sf hashEncoding message signature publicKey h
    = (Ok (verifyWalk sha256 hashEncoding (messageBits sha256 hashEncoding message)
             0 sigs pubs), h').
Proof.
  intros Hkf Hsf Hs Hp Hslen Hscan Hplen Hpcan.
  pose proof (decodeSignature_encodes JSON_stringify JSON_parse hashEncoding
                hash_lossless sf h signature sigs Hsf Hs Hslen Hscan) as Es.
  assert (Hp' : encodes JSON_stringify hashEncoding kf (h ++ [strings sigs]) publicKey pubs).
  { eapply encodes_prefix; [|exact Hp]. now apply prefix_app_r. }
  destruct (decodeKey_encodes JSON_stringify JSON_parse hashEncoding hash_lossless
              kf _ publicKey pubs Hkf Hp' Hplen Hpcan) as (l & h2 & Ek & Hl & _).
  destruct (verify_run sha256 JSON_parse hashEncoding kf sf message signature publicKey
              h _ _ _ _ _ (encodes_live _ _ _ _ _ _ Hp) Es Ek Hl)
    as (h' & _ & _ & _ & E).
  eauto.
Qed.

(** [sign] under a generated private key, in any later store. *)
Lemma sign_generated kf sf message (kp : KeyPair kf) (h1 h : heap) privs :
  formatOk JSON_stringify JSON_parse kf ->
  length privs = KEY_SIG_ENTRY_COUNT ->
  Forall (canonical hashEncoding) privs ->
  encodes JSON_stringify hashEncoding kf h1 (privateKey kp) privs ->
  h1 `prefix_of` h ->
  exists e h2,
    sign Buffer_fromArray sha256 JSON_stringify JSON_parse kf sf hashEncoding message
      (privateKey kp) h
    = (Ok e, h2) /\
    encodes JSON_stringify hashEncoding sf h2 e
      (entriesAtOneBits (messageBits sha256 hashEncoding message) privs) /\
    h `prefix_of` h2.
Proof.
  intros Hkf Hlen Hcan Hp Hpre.
  assert (Hp' : encodes JSON_stringify hashEncoding kf h (privateKey kp) privs)
    by (eapply encodes_prefix; eauto).
  destruct (decodeKey_encodes JSON_stringify JSON_parse hashEncoding hash_lossless
              kf _ _ privs Hkf Hp' Hlen Hcan) as (l & h' & Ed & Hl & Hpre').
  assert (Hne : Forall (fun s => s <> ""%string) privs).
  { eapply Forall_impl; [exact Hcan|]. intros s Hs.
    apply decodedEntry_nonempty. now right. }
  destruct (sign_run kf sf message (privateKey kp) h l h' privs Ed Hl Hne)
    as (e & Es & He).
  exists e, (h' ++ [strings (entriesAtOneBits (messageBits sha256 hashEncoding message) privs)]).
  split; [done|]. split; [done|].
  etrans; [exact Hpre' | now apply prefix_app_r].
Qed.

(** C1: under a key pair returned by [generateKeys] or
    [generateKeysFromSeed], the signature that [sign] returns for a
    message is accepted by [verify] for that message. *)
Theorem sign_then_verify kf sf message (kp : KeyPair kf) (h0 h1 : heap) :
  formatOk JSON_stringify JSON_parse kf ->
  formatOk JSON_stringify JSON_parse sf ->
  generated kf kp h0 h1 ->
  exists signature h2 h3,
    sign Buffer_fromArray sha256 JSON_stringify JSON_parse kf sf hashEncoding message
      (privateKey kp) h1
    = (Ok signature, h2) /\
    verify sha256 JSON_parse kf sf hashEncoding message signature (publicKey kp) h2
    = (Ok true, h3).
Proof.
  intros Hkf Hsf (privs & Hlen & Hcan & Hp & Hq)%generatedPair_entries.
  destruct (sign_generated kf sf message kp h1 h1 privs Hkf Hlen Hcan Hp)
    as (e & h2 & Es & He & Hpre); [done|].
  pose proof (messageBits_length message) as Hbits.
  pose proof (messageBits_isBit sha256 hashEncoding message) as Hisbit.
  set (bits := messageBits sha256 hashEncoding message) in *.
  destruct (verify_encoded kf sf message e (publicKey kp) h2
              (entriesAtOneBits bits privs) (publicEntries sha256 hashEncoding privs)
              Hkf Hsf He) as (h3 & Ev).
  - eapply encodes_prefix; eauto.
  - rewrite entriesAtOneBits_length by lia. rewrite <- Hbits. apply popcount_le.
  - now apply entriesAtOneBits_Forall.
  - now rewrite publicEntries_length.
  - apply publicEntries_canonical.
  - exists e, h2, h3. split; [done|]. rewrite Ev. f_equal. f_equal.
    pose proof (verifyWalk_accepts sha256 hashEncoding bits privs [] Hisbit 0) as Hw.
    rewrite app_nil_r, drop_0 in Hw. fold bits. apply Hw. lia.
Qed.

(** C8: under a generated key pair, [verify] on a signature that decodes
    returns a boolean that is [false] exactly when some 1-bit position
    has no entry left for it (the signature is exhausted at the rank of
    that 1-bit) or an entry whose hash is not the key entry of the
    position; the number of entries is not compared with the popcount.
    So a signature that decodes to the entries of [sign] followed by
    further entries is accepted, and one that decodes to the entries of
    [sign] cut short is rejected. *)
Theorem verify_entry_count kf sf message (kp : KeyPair kf) (h0 h1 : heap) :
  formatOk JSON_stringify JSON_parse kf ->
  formatOk JSON_stringify JSON_parse sf ->
  generated kf kp h0 h1 ->
  let bits := messageBits sha256 hashEncoding message in
  exists privs,
    let pubs := publicEntries sha256 hashEncoding privs in
    let sigs := entriesAtOneBits bits privs in
    length privs = KEY_SIG_ENTRY_COUNT /\
    Forall (canonical hashEncoding) privs /\
    encodes JSON_stringify hashEncoding kf h1 (privateKey kp) privs /\
    encodes JSON_stringify hashEncoding kf h1 (publicKey kp) pubs /\
    (exists e h2,
       sign Buffer_fromArray sha256 JSON_stringify JSON_parse kf sf hashEncoding message
         (privateKey kp) h1
       = (Ok e, h2) /\
       encodes JSON_stringify hashEncoding sf h2 e sigs) /\
    length sigs = popcount bits /\
    (forall (h : heap) (signature : encodedT sf) rs entries,
       h1 `prefix_of` h ->
       decodeSignature JSON_parse sf hashEncoding signature h
       = (Ok rs, h ++ [strings entries]) ->
       exists b h',
         verify sha256 JSON_parse kf sf hashEncoding message signature (publicKey kp) h
         = (Ok b, h') /\
         (b = false <->
          exists i, bits !! i = Some 1%Z /\
            match entries !! popcount (take i bits) with
            | None => True
            | Some entry => pubs !! i <> Some (sha256 entry hashEncoding)
            end) /\
         (forall extra, entries = sigs ++ extra -> b = true) /\
         (forall k, k < length sigs -> entries = take k sigs -> b = false)).
Proof.
  intros Hkf Hsf (privs & Hlen & Hcan & Hp & Hq)%generatedPair_entries bits.
  exists privs. intros pubs sigs.
  pose proof (messageBits_length message) as Hbits.
  pose proof (messageBits_isBit sha256 hashEncoding message) as Hisbit.
  fold bits in Hbits, Hisbit.
  assert (Hplen : length pubs = KEY_SIG_ENTRY_COUNT)
    by (unfold pubs; now rewrite publicEntries_length).
  pose proof (publicEntries_canonical privs) as Hpcan. fold pubs in Hpcan.
  assert (Hslen : length sigs = popcount bits)
    by (apply entriesAtOneBits_length; lia).
  split; [done|]. split; [done|]. split; [done|]. split; [done|]. split.
  { destruct (sign_generated kf sf message kp h1 h1 privs Hkf Hlen Hcan Hp)
      as (e & h2 & Es & He & _); [done|]. eauto. }
  split; [done|].
  intros h signature rs entries Hpre Es.
  assert (Hq' : encodes JSON_stringify hashEncoding kf h (publicKey kp) pubs)
    by (eapply encodes_prefix; eauto).
  assert (Hq'' : encodes JSON_stringify hashEncoding kf (h ++ [strings entries])
                   (publicKey kp) pubs).
  { eapply encodes_prefix; [|exact Hq']. now apply prefix_app_r. }
  destruct (decodeKey_encodes JSON_stringify JSON_parse hashEncoding hash_lossless
              kf _ _ pubs Hkf Hq'' Hplen Hpcan) as (l & h2 & Ek & Hl & _).
  destruct (verify_run sha256 JSON_parse hashEncoding kf sf message signature
              (publicKey kp) h _ _ _ _ _ (encodes_live _ _ _ _ _ _ Hq') Es Ek Hl)
    as (h' & _ & _ & _ & E).
  exists (verifyWalk sha256 hashEncoding bits 0 entries pubs), h'.
  split; [exact E|]. split; [|split].
  - now rewrite (verifyWalk_rejects sha256 hashEncoding bits Hisbit 0 entries pubs).
  - intros extra ->.
    pose proof (verifyWalk_accepts sha256 hashEncoding bits privs extra Hisbit 0) as Hw.
    rewrite drop_0 in Hw. apply Hw. lia.
  - intros k Hk ->.
    apply verifyWalk_exhausted; [done|].
    rewrite length_take. lia.
Qed.

(** ** Round trips of the codecs *)


End Scheme.

(** * Bit arrays *)

Lemma byteValue_inj x y : byteValue x = byteValue y -> x = y.
Proof.
  unfold byteValue. intros E%(inj Z.of_N).
  pose proof (Byte.of_to_N x) as Hx. rewrite E, Byte.of_to_N in Hx. congruence.
Qed.

(** The number whose binary digits, most significant first, are given. *)
Lemma msbFirstBits_value (b : byte) :
  fold_left (fun acc bit => (2 * acc + bit)%Z) (msbFirstBits (byteValue b)) 0%Z = byteValue b.
Proof. destruct b; reflexivity. Qed.

Lemma msbFirstBits_length v : length (msbFirstBits v) = 8.
Proof. unfold msbFirstBits. now rewrite length_map, length_seq. Qed.

Lemma convertBufferToBitArray_inj buffer other :
  convertBufferToBitArray other = convertBufferToBitArray buffer -> other = buffer.
Proof.
  revert other. induction buffer as [|b buffer IH]; intros [|o other] E.
  - done.
  - apply (f_equal length) in E. rewrite !convertBufferToBitArray_length in E.
    simpl in E. lia.
  - apply (f_equal length) in E. rewrite !convertBufferToBitArray_length in E.
    simpl in E. lia.
  - rewrite !convertBufferToBitArray_cons in E.
    apply app_inj_1 in E as [Eb Er]; [|now rewrite !msbFirstBits_length].
    f_equal; [|now apply IH].
    apply byteValue_inj. now rewrite <- (msbFirstBits_value o), Eb, msbFirstBits_value.
Qed.

Lemma msbFirstBits_lookup v (k : nat) :
  k < 8 -> (0 <= v)%Z ->
  msbFirstBits v !! k = Some (Z.b2z (Z.testbit v (7 - Z.of_nat k))).
Proof.
  intros Hk Hv. unfold msbFirstBits. rewrite map_fmap, list_lookup_fmap.
  rewrite lookup_seq_lt by done. simpl. f_equal.
  rewrite Z.testbit_spec' by lia. done.
Qed.

Lemma convertBufferToBitArray_lookup buffer (i k : nat) b :
  buffer !! i = Some b -> k < 8 ->
  convertBufferToBitArray buffer !! (8 * i + k)
  = Some (Z.b2z (Z.testbit (byteValue b) (7 - Z.of_nat k))).
Proof.
  revert i. induction buffer as [|x buffer IH]; intros i Hi Hk; [done|].
  rewrite convertBufferToBitArray_cons.
  destruct i as [|i]; simpl in Hi.
  - injection Hi as ->. rewrite lookup_app_l by (rewrite msbFirstBits_length; lia).
    replace (8 * 0 + k) with k by lia.
    apply msbFirstBits_lookup; [done|]. unfold byteValue. lia.
  - rewrite lookup_app_r by (rewrite msbFirstBits_length; lia).
    rewrite msbFirstBits_length.
    replace (8 * S i + k - 8) with (8 * i + k) by lia. now apply IH.
Qed.

(** X1: [convertBufferToBitArray] gives eight bits for each byte, each of
    them 0 or 1; bit k of byte i, counted from the most significant bit,
    is at position 8 i + k; and two buffers with the same bit array are
    the same buffer. *)
Theorem bit_array_of_buffer (buffer : list byte) :
  length (convertBufferToBitArray buffer) = 8 * length buffer /\
  Forall isBit (convertBufferToBitArray buffer) /\
  (forall (i k : nat) b,
     buffer !! i = Some b -> k < 8 ->
     convertBufferToBitArray buffer !! (8 * i + k)
     = Some (Z.b2z (Z.testbit (byteValue b) (7 - Z.of_nat k)))) /\
  (forall other,
     convertBufferToBitArray other = convertBufferToBitArray buffer -> other = buffer).
Proof.
  split; [apply convertBufferToBitArray_length|].
  split; [apply convertBufferToBitArray_bits|].
  split; [apply convertBufferToBitArray_lookup | apply convertBufferToBitArray_inj].
Qed.

(** * The checksum and nested bit vectors *)

Lemma zeroCount_cons bit bits :
  zeroCount (bit :: bits) = ((if (bit =? 0)%Z then 1 else 0) + zeroCount bits)%Z.
Proof.
  unfold zeroCount. cbn [List.filter]. destruct (bit =? 0)%Z; simpl length; lia.
Qed.

Lemma zeroCount_popcount bits :
  Forall isBit bits -> (zeroCount bits + Z.of_nat (popcount bits) = Z.of_nat (length bits))%Z.
Proof.
  induction 1 as [|bit bits [-> | ->] _ IH].
  - done.
  - rewrite zeroCount_cons, popcount_cons. simpl. lia.
  - rewrite zeroCount_cons, popcount_cons. simpl. lia.
Qed.

Lemma popcount_app a b : popcount (a ++ b) = popcount a + popcount b.
Proof. unfold popcount. now rewrite List.filter_app, length_app. Qed.

(** Two bit vectors of one length: some position has 1 in the first and
    0 in the second, or the first is below the second at every position. *)
Lemma bits_nested_or_not a :
  Forall isBit a ->
  forall b, Forall isBit b -> length a = length b ->
    (exists i, a !! i = Some 1%Z /\ b !! i = Some 0%Z) \/ Forall2 Z.le a b.
Proof.
  induction 1 as [|x a Hx _ IH]; intros b Hb Hlen.
  { destruct b; [right; constructor | discriminate]. }
  destruct Hb as [|y b Hy Hb]; [discriminate|].
  injection Hlen as Hlen.
  destruct (IH b Hb Hlen) as [(i & Ha & Hbi) | Hle].
  { left. exists (S i). done. }
  destruct Hx as [-> | ->], Hy as [-> | ->].
  - right. constructor; [lia | done].
  - right. constructor; [lia | done].
  - left. exists 0. done.
  - right. constructor; [lia | done].
Qed.

Lemma nested_zeroCount a b :
  Forall2 Z.le a b -> Forall isBit a -> Forall isBit b ->
  (zeroCount b <= zeroCount a)%Z /\ (zeroCount b = zeroCount a -> a = b).
Proof.
  induction 1 as [|x y a b Hxy _ IH]; intros Ha Hb; [done|].
  inversion Ha as [|? ? Hx Ha']; subst. inversion Hb as [|? ? Hy Hb']; subst.
  destruct (IH Ha' Hb') as [Hle Heq]. rewrite !zeroCount_cons.
  destruct Hx as [-> | ->], Hy as [-> | ->]; cbn -[zeroCount]; try lia.
  - split; [lia|]. intros E. f_equal. apply Heq. lia.
  - split; [lia|]. intros E. f_equal. apply Heq. lia.
Qed.

Lemma nested_value a b :
  Forall2 Z.le a b ->
  forall x y, (x <= y)%Z ->
    (fold_left (fun acc bit => 2 * acc + bit) a x
     <= fold_left (fun acc bit => 2 * acc + bit) b y)%Z.
Proof.
  induction 1 as [|u v a b Huv _ IH]; intros x y Hxy; simpl; [done|].
  apply IH. lia.
Qed.

Lemma popcount_value bits :
  Forall isBit bits ->
  forall x, (0 <= x)%Z ->
    (x + Z.of_nat (popcount bits) <= fold_left (fun acc bit => 2 * acc + bit) bits x)%Z.
Proof.
  induction 1 as [|bit bits Hbit _ IH]; intros x Hx; simpl.
  - unfold popcount. simpl. lia.
  - rewrite popcount_cons.
    specialize (IH (2 * x + bit)%Z). destruct Hbit as [-> | ->]; simpl in *; lia.
Qed.

(** The value of the eight bits of a byte value is that value. *)
Lemma msbFirstBits_number v :
  (0 <= v < 256)%Z ->
  fold_left (fun acc bit => (2 * acc + bit)%Z) (msbFirstBits v) 0%Z = v.
Proof.
  intros Hv.
  destruct (Byte.of_N (Z.to_N v)) as [b|] eqn:Eb.
  - apply Byte.to_of_N in Eb.
    assert (Hb : byteValue b = v) by (unfold byteValue; lia).
    rewrite <- Hb. apply msbFirstBits_value.
  - pose proof (Byte.to_of_N_option_map (Z.to_N v)) as Hopt. rewrite Eb in Hopt.
    simpl in Hopt. destruct (N.leb_spec (Z.to_N v) 255); [discriminate | lia].
Qed.

Lemma bits_all_zero_or_not bits :
  Forall isBit bits ->
  (exists i, bits !! i = Some 1%Z) \/ bits = replicate (length bits) 0%Z.
Proof.
  induction 1 as [|bit bits [-> | ->] _ [(i & Hi) | IH]].
  - now right.
  - left. now exists (S i).
  - right. simpl. now rewrite <- IH.
  - left. now exists 0.
  - left. now exists 0.
Qed.

Lemma zeroCount_lt_length bits i :
  bits !! i = Some 1%Z -> (zeroCount bits < Z.of_nat (length bits))%Z.
Proof.
  revert i. induction bits as [|bit bits IH]; intros i Hi; [done|].
  rewrite zeroCount_cons. pose proof (zeroCount_bounds bits).
  destruct i as [|i]; simpl in Hi.
  - injection Hi as ->. simpl length. simpl. lia.
  - specialize (IH i Hi). simpl length. destruct (bit =? 0)%Z; lia.
Qed.

(** The checksum makes the 1-positions of two digests incomparable: unless
    the first vector has no 1-bit at all, it has a 1 where the other has a
    0. *)
Lemma appendChecksum_not_nested a b :
  length a = 256 -> length b = 256 ->
  Forall isBit a -> Forall isBit b ->
  a <> b ->
  (exists i, appendChecksum a !! i = Some 1%Z) ->
  exists i, appendChecksum a !! i = Some 1%Z /\ appendChecksum b !! i = Some 0%Z.
Proof.
  intros Hla Hlb Ha Hb Hne (i1 & H1).
  rewrite !appendChecksum_bits by done. rewrite appendChecksum_bits in H1 by done.
  destruct (bits_nested_or_not a Ha b Hb) as [(i & Hai & Hbi) | Hle]; [congruence| |].
  { exists i. split; apply lookup_app_l_Some; done. }
  destruct (nested_zeroCount a b Hle Ha Hb) as [Hz Hzeq].
  assert (Hzlt : (zeroCount b < zeroCount a)%Z).
  { destruct (Z.eq_dec (zeroCount b) (zeroCount a)) as [E|E]; [|lia].
    destruct Hne. now apply Hzeq. }
  pose proof (zeroCount_bounds a) as Hba. pose proof (zeroCount_bounds b) as Hbb.
  rewrite Hla in Hba. rewrite Hlb in Hbb.
  assert (Hza : (zeroCount a < 256)%Z).
  { destruct (Z.eq_dec (zeroCount a) 256%Z) as [E|E]; [|lia].
    exfalso. rewrite E in H1. change (256 mod 256)%Z with 0%Z in H1.
    destruct (decide (i1 < length a)) as [Hlt|Hge].
    - rewrite lookup_app_l in H1 by done.
      apply zeroCount_lt_length in H1. lia.
    - rewrite lookup_app_r in H1 by lia.
      change (msbFirstBits 0) with (replicate 8 0%Z) in H1.
      apply lookup_replicate in H1 as [[=] _]. }
  rewrite !Z.mod_small by lia.
  destruct (bits_nested_or_not _ (msbFirstBits_bits (zeroCount a))
              _ (msbFirstBits_bits (zeroCount b))) as [(k & Hak & Hbk) | Hle8].
  { now rewrite !msbFirstBits_length. }
  - exists (length a + k). rewrite !lookup_app_r by lia.
    rewrite Hla at 2. rewrite Hlb. replace (length a + k - length a) with k by lia.
    replace (length a + k - 256) with k by lia. done.
  - pose proof (nested_value _ _ Hle8 0 0 ltac:(lia))%Z as Hv.
    rewrite !msbFirstBits_number in Hv by lia. lia.
Qed.

(** At most 256 of the 264 bits are 1. *)
Lemma popcount_appendChecksum a :
  length a = 256 -> Forall isBit a -> popcount (appendChecksum a) <= 256.
Proof.
  intros Hla Ha. rewrite appendChecksum_bits by done. rewrite popcount_app.
  pose proof (zeroCount_popcount a Ha) as Hsum. rewrite Hla in Hsum.
  pose proof (zeroCount_bounds a) as Hba. rewrite Hla in Hba.
  pose proof (Z.mod_pos_bound (zeroCount a) 256 eq_refl) as Hm.
  pose proof (popcount_value _ (msbFirstBits_bits (zeroCount a mod 256)) 0 ltac:(lia))%Z
    as Hp.
  rewrite msbFirstBits_number in Hp by lia.
  pose proof (Z.mod_le (zeroCount a) 256 ltac:(lia) ltac:(lia))%Z.
  lia.
Qed.

(** * The walk of [verify] over the entries of another message *)

Section OtherMessage.

Variable sha256 : string -> TextCodec -> string.
Variable hashEncoding : TextCodec.

Lemma entriesAtOneBits_head bits key entry rest :
  entriesAtOneBits bits key = entry :: rest -> exists j, key !! j = Some entry.
Proof.
  revert key. induction bits as [|bit bits IH]; intros [|e key]; simpl; try discriminate.
  destruct (bit =? 1)%Z.
  - intros [= -> _]. now exists 0.
  - intros (j & Hj)%IH. now exists (S j).
Qed.

(** An entry of an earlier position is refused at every later 1-bit. *)
Lemma verifyWalk_stale privs bits :
  NoDup (publicEntries sha256 hashEncoding privs) ->
  Forall isBit bits ->
  forall index j entry rest,
    j < index ->
    privs !! j = Some entry ->
    (exists p, bits !! p = Some 1%Z) ->
    verifyWalk sha256 hashEncoding bits index (entry :: rest)
      (publicEntries sha256 hashEncoding privs) = false.
Proof.
  intros Hnd. induction 1 as [|bit bits Hbit _ IH]; intros index j entry rest Hj He (p & Hp).
  { discriminate. }
  simpl. destruct Hbit as [-> | ->]; simpl.
  - destruct p as [|p]; [discriminate|]. eapply (IH (S index) j); eauto.
  - rewrite strictEqualString_lookup.
    destruct (publicEntries sha256 hashEncoding privs !! index) as [target|] eqn:Et; [|done].
    destruct (String.eqb_spec (sha256 entry hashEncoding) target) as [<-|]; [|done].
    exfalso.
    assert (Hpj : publicEntries sha256 hashEncoding privs !! j
                  = Some (sha256 entry hashEncoding)).
    { unfold publicEntries. now rewrite list_lookup_fmap, He. }
    pose proof (NoDup_lookup _ _ _ _ Hnd Et Hpj). lia.
Qed.

(** The entries selected for one bit vector are refused for another one
    that has a 1 where the first has a 0. *)
Lemma verifyWalk_other privs bits :
  NoDup (publicEntries sha256 hashEncoding privs) ->
  Forall isBit bits ->
  forall bits' index,
    Forall isBit bits' ->
    length bits = length bits' ->
    index + length bits <= length privs ->
    (exists p, bits' !! p = Some 1%Z /\ bits !! p = Some 0%Z) ->
    verifyWalk sha256 hashEncoding bits' index
      (entriesAtOneBits bits (drop index privs))
      (publicEntries sha256 hashEncoding privs) = false.
Proof.
  intros Hnd. induction 1 as [|bit bits Hbit Hbits IH];
    intros bits' index Hbits' Hlen Hidx (p & Hp' & Hp).
  { discriminate. }
  destruct Hbits' as [|bit' bits' Hbit' Hbits']; [discriminate|].
  simpl in Hlen, Hidx. injection Hlen as Hlen.
  destruct (lookup_lt_is_Some_2 privs index ltac:(lia)) as [entry Hentry].
  rewrite (drop_S _ _ _ Hentry).
  assert (Hpub : publicEntries sha256 hashEncoding privs !! index
                 = Some (sha256 entry hashEncoding)).
  { unfold publicEntries. now rewrite list_lookup_fmap, Hentry. }
  destruct Hbit as [-> | ->], Hbit' as [-> | ->]; simpl.
  - destruct p as [|p]; [discriminate|]. apply IH; eauto. lia.
  - destruct (entriesAtOneBits bits (drop (S index) privs)) as [|e' rest] eqn:Esel; [done|].
    apply entriesAtOneBits_head in Esel as (j & Hj). rewrite lookup_drop in Hj.
    rewrite strictEqualString_lookup, Hpub.
    destruct (String.eqb_spec (sha256 e' hashEncoding) (sha256 entry hashEncoding))
      as [E|]; [|done].
    exfalso.
    assert (Hpj : publicEntries sha256 hashEncoding privs !! (S index + j)
                  = Some (sha256 entry hashEncoding)).
    { unfold publicEntries. now rewrite list_lookup_fmap, Hj, <- E. }
    pose proof (NoDup_lookup _ _ _ _ Hnd Hpub Hpj). lia.
  - destruct p as [|p]; [discriminate|].
    eapply (verifyWalk_stale privs bits' Hnd Hbits' (S index) index); eauto.
  - destruct p as [|p]; [discriminate|].
    rewrite strictEqualString_lookup, Hpub, String.eqb_refl. simpl.
    apply IH; eauto. lia.
Qed.

End OtherMessage.

(** * Frames and re-encoding *)

Lemma prefix_frame (h h' : heap) :
  h `prefix_of` h' ->
  length h <= length h' /\ forall l, l < length h -> h' !! l = h !! l.
Proof.
  intros Hpre. split; [now apply prefix_length|].
  intros l Hl. symmetry. now apply prefix_lookup_lt.
Qed.

(** Concatenating the 32-byte slices of a buffer gives the buffer back. *)
Lemma concat_slices n :
  forall encoded : list byte,
    length encoded = n * HASH_ELEMENT_BYTE_SIZE ->
    concat ((fun i => take HASH_ELEMENT_BYTE_SIZE (drop (i * HASH_ELEMENT_BYTE_SIZE) encoded))
              <$> seq 0 n) = encoded.
Proof.
  induction n as [|n IH]; intros encoded Hlen.
  { destruct encoded; [done | discriminate]. }
  rewrite <- cons_seq, <- fmap_S_seq, fmap_cons, <- list_fmap_compose.
  cbn [concat]. rewrite Nat.mul_0_l, drop_0.
  trans (take HASH_ELEMENT_BYTE_SIZE encoded ++ drop HASH_ELEMENT_BYTE_SIZE encoded);
    [|apply take_drop].
  f_equal.
  trans (concat ((fun i => take HASH_ELEMENT_BYTE_SIZE
                              (drop (i * HASH_ELEMENT_BYTE_SIZE)
                                 (drop HASH_ELEMENT_BYTE_SIZE encoded))) <$> seq 0 n));
    [|apply IH; rewrite length_drop; lia].
  f_equal. apply list_fmap_ext. intros _ i _. simpl.
  rewrite drop_drop. do 2 f_equal.
Qed.

Section Recoding.

Variable Buffer_fromArray : list jsval -> list byte.
Variable JSON_stringify : jsval -> string.
Variable JSON_parse : string -> option jsval.
Variable hashEncoding : TextCodec.

Lemma encodeSignature_allocOnly f r :
  allocOnly (encodeSignature Buffer_fromArray JSON_stringify f hashEncoding r).
Proof.
  destruct f; simpl;
    unfold stringifyJSON, _encodeSignatureToBuffer, itemToBuffer; alloc_only.
Qed.

Lemma encodeKey_allocOnly f r :
  allocOnly (encodeKey Buffer_fromArray JSON_stringify f hashEncoding r).
Proof.
  destruct f; simpl;
    unfold stringifyJSON, _encodeKeyToBuffer, itemToBuffer; alloc_only.
Qed.

(** Under a format whose encoded form is a value, the encoded form of a
    list of entries is unique. *)
Lemma encodes_value f (h h' : heap) (e e' : encodedT f) entries :
  f <> Fobject ->
  encodes JSON_stringify hashEncoding f h e entries ->
  encodes JSON_stringify hashEncoding f h' e' entries ->
  e = e'.
Proof. destruct f; simpl; congruence. Qed.

Hypothesis hash_lossless : Lossless hashEncoding.

Lemma entriesToBuffer_slices n (encoded : list byte) :
  length encoded = n * HASH_ELEMENT_BYTE_SIZE ->
  entriesToBuffer hashEncoding
    (map (fun i => Buffer_toString hashEncoding
            (take HASH_ELEMENT_BYTE_SIZE (drop (i * HASH_ELEMENT_BYTE_SIZE) encoded)))
         (seq 0 n))
  = encoded.
Proof.
  intros Hlen. unfold entriesToBuffer.
  rewrite (map_fmap _ (seq 0 n)), <- list_fmap_compose.
  etrans; [|apply (concat_slices n encoded Hlen)]. f_equal.
  apply list_fmap_ext. intros _ i _. simpl. apply (from_toString _ hash_lossless).
Qed.

Lemma decodedEntry_byteLength s :
  decodedEntry hashEncoding s -> Buffer_byteLength hashEncoding s = HASH_ELEMENT_BYTE_SIZE.
Proof. intros [Hs | Hs]; [done | now apply canonical_byteLength]. Qed.

(** The validators on an array whose slots are holes and strings of byte
    length 32, and on a copy that holds [undefined]. *)
Lemma validateKey_held l (h : heap) key :
  h !! l = Some key ->
  length key = KEY_SIG_ENTRY_COUNT ->
  Forall (heldString (decodedEntry hashEncoding)) key ->
  _validateRawKeyFormat hashEncoding (RArr l) h = (Ok tt, h).
Proof.
  intros Hl Hlen Hall. simpl. rewrite (bind_ok _ _ _ _ _ (load_ok _ _ _ Hl)).
  rewrite Hlen, Nat.eqb_refl. simpl.
  assert (Hvalid : Array_every (validItem hashEncoding) key = true).
  { apply every_valid_held. eapply held_impl; [|exact Hall]. apply decodedEntry_byteLength. }
  now rewrite Hvalid.
Qed.

Lemma Array_every_undefined items :
  Some undefined ∈ items -> Array_every (validItem hashEncoding) items = false.
Proof.
  intros Hin. apply not_true_is_false. intros Hall%every_valid_held.
  rewrite Forall_forall in Hall. exact (Hall _ Hin).
Qed.

Lemma spreadOf_hole items : hasHole items -> Some undefined ∈ spreadOf items.
Proof.
  intros Hin. unfold spreadOf. apply list_elem_of_fmap. exists None. done.
Qed.

End Recoding.

(** * Signing, verifying and deriving keys: further properties *)

Section Library.

Variable Buffer_fromArray : list jsval -> list byte.
Variable sha256 : string -> TextCodec -> string.
Variable hmacSha256 : string -> TextCodec -> string -> TextCodec -> string.
Variable randomBytes : nat -> nat -> list byte.
Variable JSON_stringify : jsval -> string.
Variable JSON_parse : string -> option jsval.
Variable Number_toString : Z -> string.
Variable hashEncoding : TextCodec.
Variable seedEncoding : TextCodec.

Hypothesis hash_lossless : Lossless hashEncoding.
Hypothesis sha256_digest :
  forall message, canonical hashEncoding (sha256 message hashEncoding).
Hypothesis hmacSha256_digest :
  forall seed message,
    canonical hashEncoding (hmacSha256 seed seedEncoding message hashEncoding).
Hypothesis randomBytes_size : forall i size, length (randomBytes i size) = size.

#[local] Abbreviation digestBits message :=
  (convertEncodedStringToBitArray hashEncoding (sha256 message hashEncoding)).
#[local] Abbreviation bitsOf message := (messageBits sha256 hashEncoding message).
#[local] Abbreviation hashes privs := (publicEntries sha256 hashEncoding privs).

Lemma digestBits_length message : length (digestBits message) = 256.
Proof.
  unfold convertEncodedStringToBitArray. rewrite convertBufferToBitArray_length.
  destruct (sha256_digest message) as (d & Hd & ->).
  rewrite (from_toString _ hash_lossless), Hd. done.
Qed.

(** ** The checksum *)

Lemma messageBits_not_nested message message' :
  bitsOf message <> bitsOf message' ->
  (exists i, bitsOf message !! i = Some 1%Z) ->
  exists i, bitsOf message !! i = Some 1%Z /\ bitsOf message' !! i = Some 0%Z.
Proof.
  intros Hne Hone. unfold messageBits in *.
  apply appendChecksum_not_nested.
  - apply digestBits_length.
  - apply digestBits_length.
  - apply convertBufferToBitArray_bits.
  - apply convertBufferToBitArray_bits.
  - intros E. apply Hne. now rewrite E.
  - exact Hone.
Qed.

(** X2: with the checksum bits appended, the bit vectors of two messages
    are never nested: when they differ, the first has a 1 at a position
    where the second has a 0, unless the first has no 1 at all (a digest
    of 256 zero bits, whose count of zeros is stored as the byte 0). *)
Theorem checksum_separates_messages message message' :
  bitsOf message <> bitsOf message' ->
  (exists i, bitsOf message !! i = Some 1%Z /\ bitsOf message' !! i = Some 0%Z) \/
  bitsOf message = replicate KEY_SIG_ENTRY_COUNT 0%Z.
Proof.
  intros Hne.
  pose proof (messageBits_length sha256 hashEncoding hash_lossless sha256_digest message)
    as Hlen.
  destruct (bits_all_zero_or_not _ (messageBits_isBit sha256 hashEncoding message))
    as [Hone | Hzero].
  - left. now apply messageBits_not_nested.
  - right. now rewrite <- Hlen.
Qed.

(** ** The size of a signature *)

Lemma popcount_messageBits message : popcount (bitsOf message) <= 256.
Proof.
  unfold messageBits.
  apply popcount_appendChecksum;
    [apply digestBits_length | apply convertBufferToBitArray_bits].
Qed.

(** X3: for a private key that decodes, [sign] returns the encoded form
    of the strings that the key array holds at the 1-bits of the message:
    a hole of the array, which the validation of the ['object'] format
    lets through, gives no entry.  The entries are at most as many as the
    264 bits of the message have 1-bits, and these are at most 256: the
    eight checksum bits hold the number of zero bits of the digest, so
    they have no more 1-bits than the digest has 0-bits.  For a key
    without a hole there is one entry for each 1-bit. *)
Theorem sign_at_most_256_entries kf sf message (privateKey : encodedT kf) (h : heap) r h1 :
  decodeKey JSON_parse kf hashEncoding privateKey h = (Ok r, h1) ->
  exists l key e h',
    let sigs := heldAtOneBits (bitsOf message) key in
    r = RArr l /\ h1 !! l = Some key /\
    sign Buffer_fromArray sha256 JSON_stringify JSON_parse kf sf hashEncoding message
      privateKey h
    = (Ok e, h') /\
    encodes JSON_stringify hashEncoding sf h' e sigs /\
    length sigs <= popcount (bitsOf message) /\
    popcount (bitsOf message) <= 256 /\
    (~ hasHole key -> length sigs = popcount (bitsOf message)) /\
    (kf <> Fobject -> ~ hasHole key).
Proof.
  intros Ed.
  destruct (decodeKey_inv _ _ _ _ _ _ _ Ed) as (l & key & -> & Hl & Hlen & Hall & Hcase).
  destruct (sign_run_slots Buffer_fromArray sha256 JSON_stringify JSON_parse hashEncoding
              kf sf message privateKey h l h1 key Ed Hl) as (e & Es & He & _).
  pose proof (messageBits_length sha256 hashEncoding hash_lossless sha256_digest message)
    as Hbits.
  eexists l, key, e, _. cbv zeta. split_and!; eauto.
  - apply heldAtOneBits_length_le.
  - apply popcount_messageBits.
  - intros Hno. destruct (held_dense _ _ Hall Hno) as (privs & -> & Hprivs).
    rewrite strings_length in Hlen.
    rewrite heldAtOneBits_strings.
    + apply entriesAtOneBits_length. lia.
    + eapply Forall_impl; [exact Hprivs|]. now apply decodedEntry_nonempty.
  - intros Hkf. destruct Hcase as [[_ Harg]|(_ & _ & _ & entries & ->)].
    + destruct kf; try done; discriminate.
    + apply strings_no_hole.
Qed.

(** ** What a signature discloses *)

(** X4: for a private key whose entries are pairwise distinct, the
    signature holds the private entry of a position exactly when the bit
    of the message at that position is 1; the entries at the 0-bit
    positions are not in it. *)
Theorem sign_discloses_one_bit_entries kf sf message (privateKey : encodedT kf)
        (h : heap) l h1 privs :
  decodeKey JSON_parse kf hashEncoding privateKey h = (Ok (RArr l), h1) ->
  h1 !! l = Some (strings privs) ->
  NoDup privs ->
  exists e h' sigs,
    sign Buffer_fromArray sha256 JSON_stringify JSON_parse kf sf hashEncoding message privateKey h
    = (Ok e, h') /\
    encodes JSON_stringify hashEncoding sf h' e sigs /\
    forall i entry,
      privs !! i = Some entry ->
      (entry ∈ sigs <-> bitsOf message !! i = Some 1%Z).
Proof.
  intros Ed Hl Hnd.
  destruct (decodeKey_strings _ _ _ _ _ _ _ _ Ed Hl) as (Hlen & Hall & _).
  assert (Hne : Forall (fun s => s <> ""%string) privs).
  { eapply Forall_impl; [exact Hall|]. now apply decodedEntry_nonempty. }
  destruct (sign_run Buffer_fromArray sha256 JSON_stringify JSON_parse hashEncoding kf sf message
              privateKey h l h1 privs Ed Hl Hne) as (e & Es & He).
  pose proof (messageBits_isBit sha256 hashEncoding message) as Hisbit.
  eexists e, _, _. split; [exact Es|]. split; [exact He|].
  intros i entry Hi. rewrite list_elem_of_lookup. split.
  - intros (k & Hk). apply (entriesAtOneBits_lookup _ Hisbit) in Hk as (j & Hj & _ & Hpj).
    now rewrite (NoDup_lookup _ _ _ _ Hnd Hi Hpj).
  - intros Hbit. exists (popcount (take i (bitsOf message))).
    apply (entriesAtOneBits_lookup _ Hisbit). eauto.
Qed.

(** ** Signatures of other messages *)

(** X5: under a key pair of the form key generation produces (264 private
    entries that are texts of 32-byte values, the public entries their
    hashes) whose public entries are pairwise distinct, the signature
    that [sign] returns for one message is rejected by [verify] for every
    message with other bits that has a 1-bit at all. *)
Theorem verify_rejects_other_message kf sf message message' (kp : KeyPair kf)
        (h : heap) privs :
  formatOk JSON_stringify JSON_parse kf ->
  formatOk JSON_stringify JSON_parse sf ->
  length privs = KEY_SIG_ENTRY_COUNT ->
  Forall (canonical hashEncoding) privs ->
  encodes JSON_stringify hashEncoding kf h (privateKey kp) privs ->
  encodes JSON_stringify hashEncoding kf h (publicKey kp) (hashes privs) ->
  NoDup (hashes privs) ->
  bitsOf message <> bitsOf message' ->
  (exists i, bitsOf message' !! i = Some 1%Z) ->
  exists signature h2 h3,
    sign Buffer_fromArray sha256 JSON_stringify JSON_parse kf sf hashEncoding message
      (privateKey kp) h
    = (Ok signature, h2) /\
    verify sha256 JSON_parse kf sf hashEncoding message' signature (publicKey kp) h2
    = (Ok false, h3).
Proof.
  intros Hkf Hsf Hlen Hcan Hp Hq Hnd Hne Hone.
  destruct (sign_generated Buffer_fromArray sha256 JSON_stringify JSON_parse hashEncoding
              hash_lossless kf sf message kp h h privs Hkf Hlen Hcan Hp)
    as (e & h2 & Es & He & Hpre); [done|].
  pose proof (messageBits_length sha256 hashEncoding hash_lossless sha256_digest) as Hbits.
  pose proof (messageBits_isBit sha256 hashEncoding) as Hisbit.
  destruct (verify_encoded sha256 JSON_stringify JSON_parse hashEncoding hash_lossless
              kf sf message' e (publicKey kp) h2
              (entriesAtOneBits (bitsOf message) privs) (hashes privs) Hkf Hsf He)
    as (h3 & Ev).
  - eapply encodes_prefix; eauto.
  - rewrite entriesAtOneBits_length by (rewrite Hbits; lia).
    rewrite <- (Hbits message). apply popcount_le.
  - now apply entriesAtOneBits_Forall.
  - now rewrite publicEntries_length.
  - now apply publicEntries_canonical.
  - exists e, h2, h3. split; [done|]. rewrite Ev. do 2 f_equal.
    pose proof (verifyWalk_other sha256 hashEncoding privs (bitsOf message) Hnd
                  (Hisbit message) (bitsOf message') 0 (Hisbit message')) as Hw.
    rewrite drop_0 in Hw. apply Hw.
    + now rewrite !Hbits.
    + rewrite Hbits. lia.
    + apply messageBits_not_nested; [|done]. intros E. now apply Hne.
Qed.


(** ** Signatures under another public key *)

(** X6: the signature that [sign] returns under a private key is accepted
    by [verify] under any well-formed public key exactly when that key
    holds, at every 1-bit position of the message, the hash of the
    private entry of the position; the entries of the key at the 0-bit
    positions are not looked at. *)
Theorem verify_reads_key_at_one_bits kf sf message (kp : KeyPair kf)
        (publicKey' : encodedT kf) (h : heap) privs pubs' :
  formatOk JSON_stringify JSON_parse kf ->
  formatOk JSON_stringify JSON_parse sf ->
  length privs = KEY_SIG_ENTRY_COUNT ->
  Forall (canonical hashEncoding) privs ->
  encodes JSON_stringify hashEncoding kf h (privateKey kp) privs ->
  length pubs' = KEY_SIG_ENTRY_COUNT ->
  Forall (canonical hashEncoding) pubs' ->
  encodes JSON_stringify hashEncoding kf h publicKey' pubs' ->
  exists signature h2 b h3,
    sign Buffer_fromArray sha256 JSON_stringify JSON_parse kf sf hashEncoding message
      (privateKey kp) h
    = (Ok signature, h2) /\
    verify sha256 JSON_parse kf sf hashEncoding message signature publicKey' h2
    = (Ok b, h3) /\
    (b = true <->
     forall i entry,
       bitsOf message !! i = Some 1%Z -> privs !! i = Some entry ->
       pubs' !! i = Some (sha256 entry hashEncoding)).
Proof.
  intros Hkf Hsf Hlen Hcan Hp Hlen' Hcan' Hq.
  destruct (sign_generated Buffer_fromArray sha256 JSON_stringify JSON_parse hashEncoding
              hash_lossless kf sf message kp h h privs Hkf Hlen Hcan Hp)
    as (e & h2 & Es & He & Hpre); [done|].
  pose proof (messageBits_length sha256 hashEncoding hash_lossless sha256_digest message)
    as Hbits.
  pose proof (messageBits_isBit sha256 hashEncoding message) as Hisbit.
  set (bits := bitsOf message) in *.
  destruct (verify_encoded sha256 JSON_stringify JSON_parse hashEncoding hash_lossless
              kf sf message e publicKey' h2 (entriesAtOneBits bits privs) pubs' Hkf Hsf He)
    as (h3 & Ev).
  - eapply encodes_prefix; eauto.
  - rewrite entriesAtOneBits_length by lia. rewrite <- Hbits. apply popcount_le.
  - now apply entriesAtOneBits_Forall.
  - done.
  - done.
  - fold bits in Ev. eexists e, h2, _, h3. split; [exact Es|]. split; [exact Ev|].
    rewrite <- not_false_iff_true.
    rewrite (verifyWalk_rejects sha256 hashEncoding bits Hisbit 0 _ pubs'). split.
    + intros Hno i entry Hi Hentry.
      destruct (decide (pubs' !! i = Some (sha256 entry hashEncoding))) as [|Hne]; [done|].
      destruct Hno. exists i. split; [done|].
      assert (Hsel : entriesAtOneBits bits privs !! popcount (take i bits) = Some entry)
        by (apply (entriesAtOneBits_lookup _ Hisbit); eauto).
      now rewrite Hsel.
    + intros Hall (i & Hi & Hbad).
      assert (Hlt : i < length privs).
      { rewrite Hlen, <- Hbits. eapply lookup_lt_Some; eauto. }
      destruct (lookup_lt_is_Some_2 privs i Hlt) as [entry Hentry].
      assert (Hsel : entriesAtOneBits bits privs !! popcount (take i bits) = Some entry)
        by (apply (entriesAtOneBits_lookup _ Hisbit); eauto).
      rewrite Hsel in Hbad. apply Hbad. simpl. eauto.
Qed.

(** ** Errors and the store in [sign] *)

(** X7: [sign] throws exactly when [decodeKey] rejects the private key,
    and then with the error and the store of [decodeKey]; otherwise it
    returns a signature, which under ['object'] is an array created by
    the call.  Whatever the outcome, every array that existed before the
    call holds what it held. *)
Theorem sign_outcome kf sf message (privateKey : encodedT kf) (h : heap) :
  match decodeKey JSON_parse kf hashEncoding privateKey h with
  | (Throw e, h1) =>
      sign Buffer_fromArray sha256 JSON_stringify JSON_parse kf sf hashEncoding message privateKey h
      = (Throw e, h1)
  | (Ok r, h1) =>
      exists signature h',
        sign Buffer_fromArray sha256 JSON_stringify JSON_parse kf sf hashEncoding message
          privateKey h
        = (Ok signature, h') /\
        forall l, argLoc sf signature = Some l -> l = length h1
  end /\
  forall r h',
    sign Buffer_fromArray sha256 JSON_stringify JSON_parse kf sf hashEncoding message privateKey h
    = (r, h') ->
    length h <= length h' /\ forall l, l < length h -> h' !! l = h !! l.
Proof.
  split.
  - destruct (decodeKey JSON_parse kf hashEncoding privateKey h) as [[r|e] h1] eqn:Ed.
    + destruct (decodeKey_inv _ _ _ _ _ _ _ Ed) as (l & key & -> & Hl & _).
      destruct (sign_run_slots Buffer_fromArray sha256 JSON_stringify JSON_parse
                  hashEncoding kf sf message privateKey h l h1 key Ed Hl)
        as (e & Es & _ & He).
      eexists e, _. split; [exact Es | exact He].
    + unfold sign. now rewrite (bind_throw _ _ _ _ _ Ed).
  - intros r h' Es. apply prefix_frame.
    assert (Halloc : allocOnly (sign Buffer_fromArray sha256 JSON_stringify JSON_parse kf
                                  sf hashEncoding message privateKey));
      [|exact (Halloc _ _ _ Es)].
    unfold sign. apply allocOnly_bind; [apply decodeKey_allocOnly|]. intros rk.
    apply allocOnly_bind; [apply allocOnly_loadRef|]. intros items.
    apply allocOnly_bind; [apply allocOnly_alloc|]. intros l.
    apply encodeSignature_allocOnly.
Qed.

(** ** The public key of a private key *)

(** X8: [getPublicKeyFromPrivateKey] throws exactly when [decodeKey]
    rejects the private key, with the same error; otherwise it returns
    the encoded form of a new array that holds the hash of each string
    of the decoded private key, in order, and a hole where that key has a
    hole.  A private key without a hole, as every key of the formats other
    than ['object'] is, gives the encoded form of the hashes of its
    entries. *)
Theorem getPublicKeyFromPrivateKey_outcome kf (privateKey : encodedT kf) (h : heap) :
  match decodeKey JSON_parse kf hashEncoding privateKey h with
  | (Throw e, h1) =>
      getPublicKeyFromPrivateKey Buffer_fromArray sha256 JSON_stringify JSON_parse kf
        hashEncoding privateKey h
      = (Throw e, h1)
  | (Ok r, h1) =>
      exists l key publicKey,
        r = RArr l /\ h1 !! l = Some key /\
        getPublicKeyFromPrivateKey Buffer_fromArray sha256 JSON_stringify JSON_parse kf
          hashEncoding privateKey h
        = (Ok publicKey, h1 ++ [hashedSlots sha256 hashEncoding key]) /\
        (forall l', argLoc kf publicKey = Some l' -> l' = length h1) /\
        (kf = Fobject \/ ~ hasHole key) /\
        (~ hasHole key ->
         exists privs,
           entriesOf h1 r = Some privs /\
           hashedSlots sha256 hashEncoding key = strings (hashes privs) /\
           encodes JSON_stringify hashEncoding kf (h1 ++ [strings (hashes privs)])
             publicKey (hashes privs))
  end.
Proof.
  unfold getPublicKeyFromPrivateKey.
  destruct (decodeKey JSON_parse kf hashEncoding privateKey h) as [[r|e] h1] eqn:Ed.
  2:{ now rewrite (bind_throw _ _ _ _ _ Ed). }
  destruct (decodeKey_inv _ _ _ _ _ _ _ Ed) as (l & key & -> & Hl & _ & Hall & Hcase).
  rewrite (bind_ok _ _ _ _ _ Ed).
  rewrite (bind_ok _ _ _ _ _ (getRawPublicKey_slots sha256 hashEncoding _ _ _ _ Hl Hall)).
  assert (Hno : kf = Fobject \/ ~ hasHole key).
  { destruct Hcase as [[_ Harg]|(_ & _ & _ & entries & ->)].
    - left. destruct kf; try done; discriminate.
    - right. apply strings_no_hole. }
  assert (Hrun : exists publicKey,
    encodeKey Buffer_fromArray JSON_stringify kf hashEncoding (RArr (length h1))
      (h1 ++ [hashedSlots sha256 hashEncoding key])
    = (Ok publicKey, h1 ++ [hashedSlots sha256 hashEncoding key]) /\
    (forall l', argLoc kf publicKey = Some l' -> l' = length h1)).
  { destruct Hno as [-> | Hno].
    - eexists. split; [done|]. now intros l' [= <-].
    - destruct (held_dense _ _ Hall Hno) as (privs & -> & _).
      rewrite hashedSlots_strings.
      destruct (encodeKey_run Buffer_fromArray JSON_stringify hashEncoding kf (length h1)
                  (h1 ++ [strings (hashes privs)]) (hashes privs) (lookup_alloc _ _))
        as (e & Ee & He).
      exists e. split; [done|]. intros l' Hl'.
      destruct kf; try discriminate. simpl in Ee. injection Ee as <-. now injection Hl' as <-. }
  destruct Hrun as (publicKey & Ee & Harg).
  exists l, key, publicKey. split_and!; auto.
  intros Hno'. destruct (held_dense _ _ Hall Hno') as (privs & -> & _).
  exists privs. simpl. rewrite Hl, stringsOf_strings, hashedSlots_strings.
  split_and!; auto.
  rewrite hashedSlots_strings in Ee.
  destruct (encodeKey_run Buffer_fromArray JSON_stringify hashEncoding kf (length h1)
              (h1 ++ [strings (hashes privs)]) (hashes privs) (lookup_alloc _ _))
    as (e & Ee' & He).
  rewrite Ee in Ee'. now injection Ee' as ->.
Qed.

(** X9: for a key pair returned by [generateKeys] or
    [generateKeysFromSeed], [getPublicKeyFromPrivateKey] on the private
    key returns the encoded form of the entries of the public key of the
    pair; under the formats other than ['object'] it returns the public
    key of the pair itself. *)
Theorem getPublicKeyFromPrivateKey_generated kf (kp : KeyPair kf) (h0 h1 : heap) :
  formatOk JSON_stringify JSON_parse kf ->
  generatedPair Buffer_fromArray sha256 hmacSha256 randomBytes JSON_stringify Number_toString
    hashEncoding seedEncoding kf kp h0 h1 ->
  exists e h2 pubs,
    getPublicKeyFromPrivateKey Buffer_fromArray sha256 JSON_stringify JSON_parse kf hashEncoding
      (privateKey kp) h1 = (Ok e, h2) /\
    encodes JSON_stringify hashEncoding kf h2 e pubs /\
    encodes JSON_stringify hashEncoding kf h2 (publicKey kp) pubs /\
    (kf <> Fobject -> e = publicKey kp).
Proof.
  intros Hkf Hgen.
  destruct (generatedPair_entries Buffer_fromArray sha256 hmacSha256 randomBytes JSON_stringify
              Number_toString hashEncoding seedEncoding hmacSha256_digest randomBytes_size
              kf kp h0 h1 Hgen) as (privs & Hlen & Hcan & Hp & Hq).
  destruct (decodeKey_encodes JSON_stringify JSON_parse hashEncoding hash_lossless
              kf h1 _ privs Hkf Hp Hlen Hcan) as (l & h' & Ed & Hl & Hpre).
  unfold getPublicKeyFromPrivateKey.
  rewrite (bind_ok _ _ _ _ _ Ed).
  rewrite (bind_ok _ _ _ _ _ (getRawPublicKey_run sha256 hashEncoding _ _ _ Hl)).
  destruct (encodeKey_run Buffer_fromArray JSON_stringify hashEncoding kf (length h')
              (h' ++ [strings (hashes privs)]) (hashes privs) (lookup_alloc _ _))
    as (e & Ee & He).
  assert (Hq' : encodes JSON_stringify hashEncoding kf (h' ++ [strings (hashes privs)])
                  (publicKey kp) (hashes privs)).
  { eapply encodes_prefix; [|exact Hq]. etrans; [exact Hpre | now apply prefix_app_r]. }
  exists e, (h' ++ [strings (hashes privs)]), (hashes privs).
  split_and!; auto. intros Hne. eapply encodes_value; eauto.
Qed.

(** ** Random keys and seeds *)

(** X10: [generateKeys] returns in every store, without error, the
    encoded forms of a private key of 264 entries, entry i being the text
    in the hash encoding of the i-th draw of 32 random bytes, and of the
    public key whose entry i is the hash of private entry i; it creates
    the two raw arrays and changes no other. *)
Theorem generateKeys_derivation kf (h : heap) :
  exists (privs pubs : list string) kp,
    length privs = KEY_SIG_ENTRY_COUNT /\ length pubs = KEY_SIG_ENTRY_COUNT /\
    (forall i, i < KEY_SIG_ENTRY_COUNT ->
       privs !! i
       = Some (Buffer_toString hashEncoding (randomBytes i HASH_ELEMENT_BYTE_SIZE)) /\
       pubs !! i = (fun s => sha256 s hashEncoding) <$> privs !! i) /\
    generateKeys Buffer_fromArray sha256 randomBytes JSON_stringify kf hashEncoding h
    = (Ok kp, h ++ [strings privs; strings pubs]) /\
    encodes JSON_stringify hashEncoding kf (h ++ [strings privs; strings pubs])
      (privateKey kp) privs /\
    encodes JSON_stringify hashEncoding kf (h ++ [strings privs; strings pubs])
      (publicKey kp) pubs.
Proof.
  destruct (generateKeys_run Buffer_fromArray sha256 randomBytes JSON_stringify hashEncoding kf h)
    as (kp & E & Hp & Hq).
  exists (randomEntries randomBytes hashEncoding),
    (hashes (randomEntries randomBytes hashEncoding)), kp.
  split; [apply randomEntries_length|].
  split; [rewrite publicEntries_length; apply randomEntries_length|].
  split; [|auto].
  intros i Hi. split.
  - unfold randomEntries. now rewrite list_lookup_fmap, lookup_seq_lt by done.
  - unfold publicEntries. now rewrite list_lookup_fmap.
Qed.

(** X11: with a seed encoding that gives back the bytes it printed, the
    seed returned by [generateSeed] decodes to exactly 32 bytes, and
    [generateKeysFromSeed] accepts it, with or without an index. *)
Theorem generateSeed_is_accepted kf index (h : heap) :
  (forall b, Buffer_from seedEncoding (Buffer_toString seedEncoding b) = b) ->
  length (Buffer_from seedEncoding (generateSeed randomBytes seedEncoding)) = SEED_BYTE_SIZE /\
  exists kp h',
    generateKeysFromSeed Buffer_fromArray sha256 hmacSha256 JSON_stringify Number_toString kf
      hashEncoding seedEncoding (generateSeed randomBytes seedEncoding) index h = (Ok kp, h').
Proof.
  intros Hseed.
  assert (Hlen : length (Buffer_from seedEncoding (generateSeed randomBytes seedEncoding))
                 = SEED_BYTE_SIZE).
  { unfold generateSeed. now rewrite Hseed, randomBytes_size. }
  split; [exact Hlen|].
  destruct (generateKeysFromSeed_run Buffer_fromArray sha256 hmacSha256 JSON_stringify
              Number_toString hashEncoding seedEncoding kf
              (generateSeed randomBytes seedEncoding) index h)
    as (kp & E & _); [lia|].
  eauto.
Qed.

(** ** Decoding and encoding again *)

(** X12: whatever the format, the array that [decodeKey] returns passes
    [_validateRawKeyFormat]: the decoder of the binary formats returns
    nothing that the validator of ['object'] and ['json'] would refuse.
    The array that [decodeSignature] returns passes
    [_validateRawSignatureFormat] under ['json'], ['buffer'] and the text
    encodings, and under ['object'] when the caller's array has no hole;
    the copy of an array with a hole holds [undefined] and is refused. *)
Theorem decoded_arrays_pass_validation kf sf (key : encodedT kf) (signature : encodedT sf)
        (h : heap) :
  (forall r h1,
     decodeKey JSON_parse kf hashEncoding key h = (Ok r, h1) ->
     _validateRawKeyFormat hashEncoding r h1 = (Ok tt, h1)) /\
  (forall r h1,
     decodeSignature JSON_parse sf hashEncoding signature h = (Ok r, h1) ->
     (dense sf h signature ->
      _validateRawSignatureFormat hashEncoding r h1 = (Ok tt, h1)) /\
     (sf <> Fobject -> dense sf h signature) /\
     (forall l items,
        argLoc sf signature = Some l -> h !! l = Some items -> hasHole items ->
        _validateRawSignatureFormat hashEncoding r h1
        = (Throw SignatureInvalidItems, h1))).
Proof.
  split; intros r h1 Ed.
  - destruct (decodeKey_inv _ _ _ _ _ _ _ Ed) as (l & slots & -> & Hl & Hlen & Hall & _).
    now apply (validateKey_held hashEncoding hash_lossless l h1 slots).
  - split; [|split].
    + intros Hdense.
      destruct (decodeSignature_dense _ _ _ _ _ _ _ Ed Hdense)
        as (entries & -> & -> & Hlen & Hall & _).
      apply (validateSignature_ok hashEncoding (length h) _ entries); auto.
      * apply lookup_alloc.
      * eapply Forall_impl; [exact Hall|]. now apply decodedEntry_byteLength.
    + intros Hsf. unfold dense. destruct sf; try done.
    + intros l original Harg Ho Hhole.
      destruct (decodeSignature_inv _ _ _ _ _ _ _ Ed) as (items & -> & -> & Hlen & Hcase).
      rewrite Harg in Hcase. destruct Hcase as (original' & Ho' & -> & _).
      rewrite Ho in Ho'. injection Ho' as <-.
      simpl. rewrite (bind_ok _ _ _ _ _ (load_ok _ _ _ (lookup_alloc _ _))).
      apply Nat.ltb_ge in Hlen. rewrite Hlen.
      now rewrite (Array_every_undefined hashEncoding _ (spreadOf_hole _ Hhole)).
Qed.

Lemma decodeFromBuffer_encodeToBuffer (encoded : list byte) (h : heap) r h1 :
  (_decodeKeyFromBuffer hashEncoding encoded h = (Ok r, h1) ->
   _encodeKeyToBuffer Buffer_fromArray hashEncoding r h1 = (Ok encoded, h1)) /\
  (_decodeSignatureFromBuffer hashEncoding encoded h = (Ok r, h1) ->
   _encodeSignatureToBuffer Buffer_fromArray hashEncoding r h1 = (Ok encoded, h1)).
Proof.
  split.
  - unfold _decodeKeyFromBuffer.
    destruct (negb _) eqn:E1; [discriminate|].
    apply negb_false_iff, Nat.eqb_eq in E1. rewrite E1, Nat.div_mul by done.
    intros [= <- <-]. rewrite sliceEntries_strings.
    match goal with
    | |- context [strings ?entries] =>
        destruct (encodeToBuffer_run Buffer_fromArray hashEncoding (length h) _ entries
                    (lookup_alloc h _))
          as [-> _]
    end.
    now rewrite (entriesToBuffer_slices hashEncoding hash_lossless _ _ E1).
  - unfold _decodeSignatureFromBuffer.
    destruct (_ <? _) eqn:E1; [discriminate|].
    destruct (negb _) eqn:E2; [discriminate|].
    apply negb_false_iff, Nat.eqb_eq in E2.
    intros [= <- <-]. rewrite sliceEntries_strings.
    match goal with
    | |- context [strings ?entries] =>
        destruct (encodeToBuffer_run Buffer_fromArray hashEncoding (length h) _ entries
                    (lookup_alloc h _))
          as [_ ->]
    end.
    rewrite (entriesToBuffer_slices hashEncoding hash_lossless); [done|].
    pose proof (Nat.div_mod_eq (length encoded) HASH_ELEMENT_BYTE_SIZE). lia.
Qed.

(** X13: under ['buffer'], a buffer that [decodeKey] or [decodeSignature]
    accepts is given back by [encodeKey] or [encodeSignature] on the
    decoded array; under a text encoding of a buffer the result is the
    text of the bytes that the given text decodes to. *)
Theorem binary_decode_then_encode (h : heap) r h1 :
  (forall encoded : list byte,
     (decodeKey JSON_parse Fbuffer hashEncoding encoded h = (Ok r, h1) ->
      encodeKey Buffer_fromArray JSON_stringify Fbuffer hashEncoding r h1 = (Ok encoded, h1)) /\
     (decodeSignature JSON_parse Fbuffer hashEncoding encoded h = (Ok r, h1) ->
      encodeSignature Buffer_fromArray JSON_stringify Fbuffer hashEncoding r h1
      = (Ok encoded, h1))) /\
  (forall (c : TextCodec) (text : string),
     (decodeKey JSON_parse (Fcharset c) hashEncoding text h = (Ok r, h1) ->
      encodeKey Buffer_fromArray JSON_stringify (Fcharset c) hashEncoding r h1
      = (Ok (Buffer_toString c (Buffer_from c text)), h1)) /\
     (decodeSignature JSON_parse (Fcharset c) hashEncoding text h = (Ok r, h1) ->
      encodeSignature Buffer_fromArray JSON_stringify (Fcharset c) hashEncoding r h1
      = (Ok (Buffer_toString c (Buffer_from c text)), h1))).
Proof.
  split.
  - intros encoded. apply decodeFromBuffer_encodeToBuffer.
  - intros c text.
    destruct (decodeFromBuffer_encodeToBuffer (Buffer_from c text) h r h1) as [Hk Hs].
    split; simpl; intros Ed.
    + now rewrite (bind_ok _ _ _ _ _ (Hk Ed)).
    + now rewrite (bind_ok _ _ _ _ _ (Hs Ed)).
Qed.

(** ** Generated keys and their signatures *)

(** X14: the two keys of a pair returned by [generateKeys] or
    [generateKeysFromSeed] are accepted by [decodeKey]; the private key
    decodes to 264 entries and the public key to their hashes. *)
Theorem generated_keys_decode kf (kp : KeyPair kf) (h0 h1 : heap) :
  formatOk JSON_stringify JSON_parse kf ->
  generatedPair Buffer_fromArray sha256 hmacSha256 randomBytes JSON_stringify Number_toString
    hashEncoding seedEncoding kf kp h0 h1 ->
  exists privs l h2 l' h3,
    length privs = KEY_SIG_ENTRY_COUNT /\
    decodeKey JSON_parse kf hashEncoding (privateKey kp) h1 = (Ok (RArr l), h2) /\
    h2 !! l = Some (strings privs) /\
    decodeKey JSON_parse kf hashEncoding (publicKey kp) h2 = (Ok (RArr l'), h3) /\
    h3 !! l' = Some (strings (hashes privs)).
Proof.
  intros Hkf Hgen.
  destruct (generatedPair_entries Buffer_fromArray sha256 hmacSha256 randomBytes JSON_stringify
              Number_toString hashEncoding seedEncoding hmacSha256_digest randomBytes_size
              kf kp h0 h1 Hgen) as (privs & Hlen & Hcan & Hp & Hq).
  destruct (decodeKey_encodes JSON_stringify JSON_parse hashEncoding hash_lossless
              kf h1 _ privs Hkf Hp Hlen Hcan) as (l & h2 & Ed & Hl & Hpre).
  assert (Hq' : encodes JSON_stringify hashEncoding kf h2 (publicKey kp) (hashes privs))
    by (eapply encodes_prefix; eauto).
  destruct (decodeKey_encodes JSON_stringify JSON_parse hashEncoding hash_lossless
              kf h2 _ (hashes privs) Hkf Hq') as (l' & h3 & Ed' & Hl' & _).
  { now rewrite publicEntries_length. }
  { now apply publicEntries_canonical. }
  exists privs, l, h2, l', h3. auto.
Qed.

(** X15: the signature that [sign] returns under a generated private key
    is accepted by [decodeSignature]; it decodes to as many entries as
    the message has 1-bits, at most 256, each the text of a 32-byte
    value. *)
Theorem signature_of_generated_key_decodes kf sf message (kp : KeyPair kf) (h0 h1 : heap) :
  formatOk JSON_stringify JSON_parse kf ->
  formatOk JSON_stringify JSON_parse sf ->
  generatedPair Buffer_fromArray sha256 hmacSha256 randomBytes JSON_stringify Number_toString
    hashEncoding seedEncoding kf kp h0 h1 ->
  exists signature h2 sigs,
    sign Buffer_fromArray sha256 JSON_stringify JSON_parse kf sf hashEncoding message
      (privateKey kp) h1
    = (Ok signature, h2) /\
    decodeSignature JSON_parse sf hashEncoding signature h2
    = (Ok (RArr (length h2)), h2 ++ [strings sigs]) /\
    length sigs = popcount (bitsOf message) /\
    length sigs <= 256 /\
    Forall (canonical hashEncoding) sigs.
Proof.
  intros Hkf Hsf Hgen.
  destruct (generatedPair_entries Buffer_fromArray sha256 hmacSha256 randomBytes JSON_stringify
              Number_toString hashEncoding seedEncoding hmacSha256_digest randomBytes_size
              kf kp h0 h1 Hgen) as (privs & Hlen & Hcan & Hp & Hq).
  destruct (sign_generated Buffer_fromArray sha256 JSON_stringify JSON_parse hashEncoding
              hash_lossless kf sf message kp h1 h1 privs Hkf Hlen Hcan Hp)
    as (e & h2 & Es & He & Hpre); [done|].
  pose proof (messageBits_length sha256 hashEncoding hash_lossless sha256_digest message)
    as Hbits.
  set (sigs := entriesAtOneBits (bitsOf message) privs) in *.
  assert (Hsel : length sigs = popcount (bitsOf message))
    by (apply entriesAtOneBits_length; lia).
  assert (H256 : length sigs <= 256).
  { rewrite Hsel. unfold messageBits.
    apply popcount_appendChecksum;
      [apply digestBits_length | apply convertBufferToBitArray_bits]. }
  assert (Hscan : Forall (canonical hashEncoding) sigs)
    by now apply entriesAtOneBits_Forall.
  exists e, h2, sigs. split; [exact Es|]. split; [|auto].
  apply (decodeSignature_encodes JSON_stringify JSON_parse hashEncoding hash_lossless);
    auto.
  unfold KEY_SIG_ENTRY_COUNT. lia.
Qed.

(** X16: under ['buffer'], the two keys of a generated pair have 8448
    bytes each (264 entries of 32 bytes), and the signature of a message
    has 32 bytes for each 1-bit of the message, at most 8192. *)
Theorem buffer_sizes message (kp : KeyPair Fbuffer) (h0 h1 : heap) :
  generatedPair Buffer_fromArray sha256 hmacSha256 randomBytes JSON_stringify Number_toString
    hashEncoding seedEncoding Fbuffer kp h0 h1 ->
  length (privateKey kp : list byte) = KEY_SIG_ENTRY_COUNT * HASH_ELEMENT_BYTE_SIZE /\
  length (publicKey kp : list byte) = KEY_SIG_ENTRY_COUNT * HASH_ELEMENT_BYTE_SIZE /\
  exists (signature : list byte) h2,
    sign Buffer_fromArray sha256 JSON_stringify JSON_parse Fbuffer Fbuffer hashEncoding message
      (privateKey kp) h1 = (Ok signature, h2) /\
    length signature = popcount (bitsOf message) * HASH_ELEMENT_BYTE_SIZE /\
    length signature <= 256 * HASH_ELEMENT_BYTE_SIZE.
Proof.
  intros Hgen.
  destruct (generatedPair_entries Buffer_fromArray sha256 hmacSha256 randomBytes JSON_stringify
              Number_toString hashEncoding seedEncoding hmacSha256_digest randomBytes_size
              Fbuffer kp h0 h1 Hgen) as (privs & Hlen & Hcan & Hp & Hq).
  pose proof (publicEntries_canonical sha256 hashEncoding sha256_digest privs) as Hpcan.
  simpl in Hp, Hq.
  destruct (sliceEntries_entriesToBuffer hashEncoding hash_lossless _ Hcan) as [Hplen _].
  destruct (sliceEntries_entriesToBuffer hashEncoding hash_lossless _ Hpcan) as [Hqlen _].
  rewrite publicEntries_length in Hqlen.
  split; [now rewrite Hp, Hplen, Hlen|]. split; [now rewrite Hq, Hqlen, Hlen|].
  destruct (sign_generated Buffer_fromArray sha256 JSON_stringify JSON_parse hashEncoding
              hash_lossless Fbuffer Fbuffer message kp h1 h1 privs I Hlen Hcan Hp)
    as (e & h2 & Es & He & Hpre); [done|].
  pose proof (messageBits_length sha256 hashEncoding hash_lossless sha256_digest message)
    as Hbits.
  set (sigs := entriesAtOneBits (bitsOf message) privs) in *.
  assert (Hsel : length sigs = popcount (bitsOf message))
    by (apply entriesAtOneBits_length; lia).
  assert (H256 : popcount (bitsOf message) <= 256).
  { unfold messageBits.
    apply popcount_appendChecksum;
      [apply digestBits_length | apply convertBufferToBitArray_bits]. }
  assert (Hscan : Forall (canonical hashEncoding) sigs)
    by now apply entriesAtOneBits_Forall.
  destruct (sliceEntries_entriesToBuffer hashEncoding hash_lossless _ Hscan) as [Hslen _].
  simpl in He. exists e, h2. split; [exact Es|].
  rewrite He, Hslen, Hsel. split; [done|].
  apply Nat.mul_le_mono_r. exact H256.
Qed.

End Library.

(** * One key, one signature *)

Section OneTime.

Variable Buffer_fromArray : list jsval -> list byte.
Variable sha256 : string -> TextCodec -> string.
Variable JSON_stringify : jsval -> string.
Variable JSON_parse : string -> option jsval.
Variable hashEncoding : TextCodec.

Hypothesis hash_lossless : Lossless hashEncoding.
Hypothesis sha256_digest :
  forall message, canonical hashEncoding (sha256 message hashEncoding).

#[local] Abbreviation bitsOf message := (messageBits sha256 hashEncoding message).

(** [sign] returns the encoded form of [sigs] for [message]. *)
#[local] Abbreviation signs kf sf privateKey h message sigs :=
  (exists e h',
     sign Buffer_fromArray sha256 JSON_stringify JSON_parse kf sf hashEncoding message privateKey h
     = (Ok e, h') /\
     encodes JSON_stringify hashEncoding sf h' e sigs).

Lemma sign_decoded_slots kf sf (privateKey : encodedT kf) (h : heap) l h1 key message :
  decodeKey JSON_parse kf hashEncoding privateKey h = (Ok (RArr l), h1) ->
  h1 !! l = Some key ->
  signs kf sf privateKey h message (heldAtOneBits (bitsOf message) key).
Proof.
  intros Ed Hl.
  destruct (sign_run_slots Buffer_fromArray sha256 JSON_stringify JSON_parse hashEncoding
              kf sf message privateKey h l h1 key Ed Hl) as (e & Es & He & _).
  eauto.
Qed.

Lemma sign_decoded kf sf (privateKey : encodedT kf) (h : heap) l h1 privs message :
  decodeKey JSON_parse kf hashEncoding privateKey h = (Ok (RArr l), h1) ->
  h1 !! l = Some (strings privs) ->
  signs kf sf privateKey h message (entriesAtOneBits (bitsOf message) privs).
Proof.
  intros Ed Hl.
  destruct (decodeKey_strings _ _ _ _ _ _ _ _ Ed Hl) as (_ & Hall & _).
  assert (Hne : Forall (fun s => s <> ""%string) privs).
  { eapply Forall_impl; [exact Hall|]. now apply decodedEntry_nonempty. }
  destruct (sign_run Buffer_fromArray sha256 JSON_stringify JSON_parse hashEncoding kf sf
              message privateKey h l h1 privs Ed Hl Hne) as (e & Es & He).
  eauto.
Qed.

Lemma elem_of_entriesAtOneBits message privs entry :
  entry ∈ entriesAtOneBits (bitsOf message) privs <->
  exists i, bitsOf message !! i = Some 1%Z /\ privs !! i = Some entry.
Proof.
  pose proof (messageBits_isBit sha256 hashEncoding message) as Hisbit.
  rewrite list_elem_of_lookup. split.
  - intros (k & Hk). apply (entriesAtOneBits_lookup _ Hisbit) in Hk as (i & Hi & _ & Hp).
    eauto.
  - intros (i & Hi & Hp). exists (popcount (take i (bitsOf message))).
    apply (entriesAtOneBits_lookup _ Hisbit). eauto.
Qed.

(** The entries kept of a key that may have holes: the strings at the
    1-bits, the empty string apart. *)
Lemma elem_of_heldAtOneBits bits key entry :
  entry ∈ heldAtOneBits bits key <->
  exists i, bits !! i = Some 1%Z /\ key !! i = Some (Some (VStr entry)) /\
            entry <> ""%string.
Proof.
  revert key. induction bits as [|bit bits IH]; intros key.
  { simpl. split; [intros []%elem_of_nil | intros (i & [=] & _)]. }
  destruct key as [|s key].
  { simpl. split; [intros []%elem_of_nil | intros (i & _ & [=] & _)]. }
  assert (Hskip : entry ∈ heldAtOneBits bits key <->
                  exists i, (bit :: bits) !! S i = Some 1%Z /\
                            (s :: key) !! S i = Some (Some (VStr entry)) /\
                            entry <> ""%string) by apply IH.
  assert (Hnot : forall P : Prop,
            ((bit :: bits) !! 0 = Some 1%Z /\
             (s :: key) !! 0 = Some (Some (VStr entry)) /\ entry <> ""%string -> False) ->
            (entry ∈ heldAtOneBits bits key <->
             exists i, (bit :: bits) !! i = Some 1%Z /\
                       (s :: key) !! i = Some (Some (VStr entry)) /\
                       entry <> ""%string)).
  { intros _ Hzero. rewrite Hskip. split.
    - intros (i & Hi). eauto.
    - intros ([|i] & Hi); [destruct (Hzero Hi) | eauto]. }
  simpl heldAtOneBits.
  destruct s as [[[| | | |str]|]|]; try (apply (Hnot True); simpl; intros (_ & [=] & _)).
  destruct (bit =? 1)%Z eqn:Ebit; simpl.
  2:{ apply (Hnot True). simpl. intros ([= ->] & _). discriminate. }
  destruct (String.eqb_spec str ""); simpl.
  { apply (Hnot True). simpl. intros (_ & [= ->] & Hne). done. }
  apply Z.eqb_eq in Ebit. subst bit.
  rewrite elem_of_cons, Hskip. split.
  - intros [-> | (i & Hi)]; [exists 0 | exists (S i)]; auto.
  - intros ([|i] & Hb & Hk & Hne).
    + left. simpl in Hk. congruence.
    + right. eauto.
Qed.

(** X18: a private key is good for one signature: when every 1-bit
    position of a third message is a 1-bit position of one of two signed
    messages, each entry of the signature of the third message is an
    entry of one of the two signatures. *)
Theorem two_signatures_cover_a_third kf sf m1 m2 m3 (privateKey : encodedT kf)
        (h : heap) r h1 :
  decodeKey JSON_parse kf hashEncoding privateKey h = (Ok r, h1) ->
  (forall i, bitsOf m3 !! i = Some 1%Z ->
             bitsOf m1 !! i = Some 1%Z \/ bitsOf m2 !! i = Some 1%Z) ->
  exists sigs1 sigs2 sigs3,
    signs kf sf privateKey h m1 sigs1 /\
    signs kf sf privateKey h m2 sigs2 /\
    signs kf sf privateKey h m3 sigs3 /\
    forall entry, entry ∈ sigs3 -> entry ∈ sigs1 \/ entry ∈ sigs2.
Proof.
  intros Ed Hcover.
  destruct (decodeKey_inv _ _ _ _ _ _ _ Ed) as (l & key & -> & Hl & _).
  exists (heldAtOneBits (bitsOf m1) key), (heldAtOneBits (bitsOf m2) key),
    (heldAtOneBits (bitsOf m3) key).
  split_and!; try (eapply sign_decoded_slots; eauto).
  intros entry (i & Hi & Hp)%elem_of_heldAtOneBits.
  rewrite !elem_of_heldAtOneBits. destruct (Hcover i Hi); eauto.
Qed.

(** X19: one signature does not hold the signature of another message:
    for a private key with pairwise distinct entries and a message with
    other bits that has a 1-bit at all, some entry of the signature of
    that message is not in the signature given. *)
Theorem one_signature_misses_an_entry kf sf m1 m3 (privateKey : encodedT kf)
        (h : heap) l h1 privs :
  decodeKey JSON_parse kf hashEncoding privateKey h = (Ok (RArr l), h1) ->
  h1 !! l = Some (strings privs) ->
  NoDup privs ->
  bitsOf m3 <> bitsOf m1 ->
  (exists i, bitsOf m3 !! i = Some 1%Z) ->
  exists sigs1 sigs3,
    signs kf sf privateKey h m1 sigs1 /\
    signs kf sf privateKey h m3 sigs3 /\
    exists entry, entry ∈ sigs3 /\ entry ∉ sigs1.
Proof.
  intros Ed Hl Hnd Hne Hone.
  destruct (decodeKey_strings _ _ _ _ _ _ _ _ Ed Hl) as (Hlen & _).
  exists (entriesAtOneBits (bitsOf m1) privs), (entriesAtOneBits (bitsOf m3) privs).
  split_and!; try (eapply sign_decoded; eauto).
  destruct (messageBits_not_nested sha256 hashEncoding hash_lossless sha256_digest
              m3 m1 Hne Hone) as (i & H3 & H1).
  assert (Hlt : i < length privs).
  { rewrite Hlen,
      <- (messageBits_length sha256 hashEncoding hash_lossless sha256_digest m3).
    eapply lookup_lt_Some; eauto. }
  destruct (lookup_lt_is_Some_2 privs i Hlt) as [entry Hentry].
  exists entry. rewrite !elem_of_entriesAtOneBits. split; [eauto|].
  intros (j & Hj & Hp).
  rewrite (NoDup_lookup _ _ _ _ Hnd Hp Hentry) in Hj. congruence.
Qed.

(** X20: for a private key that holds 264 texts of 32-byte values, a
    message signed under it is accepted under the public key that
    [getPublicKeyFromPrivateKey] derives from it. *)
Theorem derived_public_key_verifies kf sf message (privateKey : encodedT kf)
        (h : heap) privs :
  formatOk JSON_stringify JSON_parse kf ->
  formatOk JSON_stringify JSON_parse sf ->
  length privs = KEY_SIG_ENTRY_COUNT ->
  Forall (canonical hashEncoding) privs ->
  encodes JSON_stringify hashEncoding kf h privateKey privs ->
  exists publicKey h1 signature h2 h3,
    getPublicKeyFromPrivateKey Buffer_fromArray sha256 JSON_stringify JSON_parse kf hashEncoding
      privateKey h
    = (Ok publicKey, h1) /\
    sign Buffer_fromArray sha256 JSON_stringify JSON_parse kf sf hashEncoding message privateKey h1
    = (Ok signature, h2) /\
    verify sha256 JSON_parse kf sf hashEncoding message signature publicKey h2
    = (Ok true, h3).
Proof.
  intros Hkf Hsf Hlen Hcan Hp.
  set (pubs := publicEntries sha256 hashEncoding privs).
  destruct (decodeKey_encodes JSON_stringify JSON_parse hashEncoding hash_lossless
              kf h _ privs Hkf Hp Hlen Hcan) as (l & h' & Ed & Hl & Hpre).
  destruct (encodeKey_run Buffer_fromArray JSON_stringify hashEncoding kf (length h')
              (h' ++ [strings pubs]) pubs (lookup_alloc _ _)) as (e & Ee & He).
  set (h1 := h' ++ [strings pubs]) in *.
  assert (Hpre1 : h `prefix_of` h1).
  { etrans; [exact Hpre | now apply prefix_app_r]. }
  assert (Eg : getPublicKeyFromPrivateKey Buffer_fromArray sha256 JSON_stringify JSON_parse kf
                 hashEncoding privateKey h = (Ok e, h1)).
  { unfold getPublicKeyFromPrivateKey. rewrite (bind_ok _ _ _ _ _ Ed).
    now rewrite (bind_ok _ _ _ _ _ (getRawPublicKey_run sha256 hashEncoding _ _ _ Hl)). }
  destruct (sign_generated Buffer_fromArray sha256 JSON_stringify JSON_parse hashEncoding
              hash_lossless kf sf message {| privateKey := privateKey; publicKey := e |}
              h h1 privs Hkf Hlen Hcan Hp Hpre1) as (s & h2 & Es & Hs & Hpre2).
  pose proof (messageBits_length sha256 hashEncoding hash_lossless sha256_digest message)
    as Hbits.
  pose proof (messageBits_isBit sha256 hashEncoding message) as Hisbit.
  set (bits := bitsOf message) in *.
  destruct (verify_encoded sha256 JSON_stringify JSON_parse hashEncoding hash_lossless
              kf sf message s e h2 (entriesAtOneBits bits privs) pubs Hkf Hsf Hs)
    as (h3 & Ev).
  - eapply encodes_prefix; eauto.
  - rewrite entriesAtOneBits_length by lia. rewrite <- Hbits. apply popcount_le.
  - now apply entriesAtOneBits_Forall.
  - unfold pubs. now rewrite publicEntries_length.
  - now apply publicEntries_canonical.
  - exists e, h1, s, h2, h3. split; [exact Eg|]. split; [exact Es|].
    rewrite Ev. do 2 f_equal.
    pose proof (verifyWalk_accepts sha256 hashEncoding bits privs [] Hisbit 0) as Hw.
    rewrite app_nil_r, drop_0 in Hw. apply Hw. lia.
Qed.

End OneTime.

(** * The labels of the entries derived from a seed *)

Lemma append_dash_inj (a c b d : string) :
  "-"%char ∉ list_ascii_of_string a ->
  "-"%char ∉ list_ascii_of_string c ->
  a +:+ "-" +:+ b = c +:+ "-" +:+ d ->
  a = c /\ b = d.
Proof.
  revert c. induction a as [|x a IH]; intros [|y c] Ha Hc E; simpl in *.
  - injection E as E. now split.
  - injection E as <- _. destruct Hc. now left.
  - injection E as -> _. destruct Ha. now left.
  - injection E as -> E. apply not_elem_of_cons in Ha as [_ Ha], Hc as [_ Hc].
    destruct (IH c Ha Hc E) as [-> ->]. done.
Qed.

Lemma string_of_uint_no_dash d :
  "-"%char ∉ list_ascii_of_string (NilEmpty.string_of_uint d).
Proof.
  induction d; simpl;
    [apply not_elem_of_nil | apply not_elem_of_cons; split; [discriminate | done]..].
Qed.

Lemma decimal_no_dash n : (0 <= n)%Z -> "-"%char ∉ list_ascii_of_string (decimal n).
Proof.
  intros Hn. unfold decimal. destruct n as [|p|p]; [| |lia].
  - simpl. apply not_elem_of_cons. split; [discriminate | apply not_elem_of_nil].
  - simpl. pose proof (DecimalPos.Unsigned.to_uint_nonnil p) as Hnil.
    destruct (Pos.to_uint p) eqn:E; [done | apply string_of_uint_no_dash..].
Qed.

Lemma decimal_inj m n : decimal m = decimal n -> m = n.
Proof.
  unfold decimal. intros E.
  assert (Hnil : forall z, Z.to_int z <> Decimal.Pos Decimal.Nil /\
                           Z.to_int z <> Decimal.Neg Decimal.Nil).
  { intros [|p|p]; simpl; split; try discriminate;
      intros [= Hp]; now apply DecimalPos.Unsigned.to_uint_nonnil in Hp. }
  assert (Hint : Some (Z.to_int m) = Some (Z.to_int n)).
  { destruct (Hnil m) as [Hm1 Hm2], (Hnil n) as [Hn1 Hn2].
    rewrite <- (NilZero.isi _ Hm1 Hm2), <- (NilZero.isi _ Hn1 Hn2). now rewrite E. }
  injection Hint as Hint.
  rewrite <- (DecimalZ.of_to m), <- (DecimalZ.of_to n). now rewrite Hint.
Qed.

(** X17: the message [`${suffix}-${i}`] under which entry i of the key of
    index [suffix] is derived determines both numbers, for indices that
    are not negative: no two entries, of one key or of the keys of two
    indices, are derived under the same message.  Assumed of the text of
    a number: it has no ['-'] for a number that is not negative, and two
    such numbers with the same text are equal. *)
Theorem seedMessage_injective (Number_toString : Z -> string) (index index' : Z)
        (i i' : nat) :
  (forall n, (0 <= n)%Z -> "-"%char ∉ list_ascii_of_string (Number_toString n)) ->
  (forall m n, (0 <= m)%Z -> (0 <= n)%Z -> Number_toString m = Number_toString n -> m = n) ->
  (0 <= index)%Z -> (0 <= index')%Z ->
  seedMessage Number_toString index i = seedMessage Number_toString index' i' ->
  index = index' /\ i = i'.
Proof.
  intros Hdash Hinj Hindex Hindex' E. unfold seedMessage in E.
  apply append_dash_inj in E as [E1 E2]; auto.
  split; [now apply Hinj|].
  apply Hinj in E2; lia.
Qed.

(** * The encodings [latin1] and [hex] are lossless *)

Lemma string_of_list_byte_length b : String.length (string_of_list_byte b) = length b.
Proof.
  unfold string_of_list_byte.
  induction b as [|x b IH]; [done|].
  cbn [map string_of_list_ascii String.length length]. now rewrite IH.
Qed.

Lemma latin1_lossless : Lossless latin1.
Proof.
  split; simpl.
  - apply list_byte_of_string_of_list_byte.
  - apply string_of_list_byte_length.
  - done.
Qed.

Lemma hexParse_pair hi lo rest :
  hexParse (String hi (String lo rest))
  = match hexDigitValue hi, hexDigitValue lo with
    | Some h, Some l =>
        match Byte.of_N (16 * h + l) with
        | Some b => b :: hexParse rest
        | None => []
        end
    | _, _ => []
    end.
Proof. done. Qed.

Lemma hexDigits_byte (x : byte) :
  hexDigitValue (hexDigit (Byte.to_N x / 16)) = Some (Byte.to_N x / 16)%N /\
  hexDigitValue (hexDigit (Byte.to_N x mod 16)) = Some (Byte.to_N x mod 16)%N /\
  Byte.of_N (16 * (Byte.to_N x / 16) + Byte.to_N x mod 16) = Some x.
Proof. destruct x; vm_compute; auto. Qed.

Lemma hexParse_hexPrint b : hexParse (hexPrint b) = b.
Proof.
  induction b as [|x b IH]; [done|].
  cbn [hexPrint]. rewrite hexParse_pair.
  destruct (hexDigits_byte x) as (-> & -> & ->). now rewrite IH.
Qed.

Lemma hexPrint_length b : String.length (hexPrint b) = length b * 2.
Proof.
  induction b as [|x b IH]; [done|].
  cbn [hexPrint String.length length]. rewrite IH. lia.
Qed.

Lemma hex_lossless : Lossless hex.
Proof.
  split; simpl.
  - apply hexParse_hexPrint.
  - intros b. rewrite hexPrint_length. now apply Nat.div_mul.
  - done.
Qed.

(** * The library on concrete inputs *)

Lemma sampleDigest_length text : length (sampleDigest text) = HASH_ELEMENT_BYTE_SIZE.
Proof.
  unfold sampleDigest. rewrite length_take, length_app, length_replicate.
  unfold HASH_ELEMENT_BYTE_SIZE. lia.
Qed.

Lemma sampleSha256_digest encoding message :
  canonical encoding (sampleSha256 message encoding).
Proof. eexists. split; [apply sampleDigest_length | done]. Qed.

Lemma sampleHmacSha256_digest encoding keyEncoding key message :
  canonical encoding (sampleHmacSha256 key keyEncoding message encoding).
Proof. eexists. split; [apply sampleDigest_length | done]. Qed.

Lemma sampleRandomBytes_size i size : length (sampleRandomBytes i size) = size.
Proof. apply length_replicate. Qed.

(** A key pair from the sample seed, keys in hex text, signatures as
    arrays: the signature of a message is accepted. *)
Lemma sign_then_verify_witness :
  exists kp h1,
    generateKeysFromSeed sampleFromArray sampleSha256 sampleHmacSha256 sampleStringify decimal
      (Fcharset hex) hex hex sampleSeed (Some 0%Z) [] = (Ok kp, h1) /\
    exists signature h2 h3,
      sign sampleFromArray sampleSha256 sampleStringify sampleParse (Fcharset hex) Fobject hex
        "hello world" (privateKey kp) h1 = (Ok signature, h2) /\
      verify sampleSha256 sampleParse (Fcharset hex) Fobject hex
        "hello world" signature (publicKey kp) h2 = (Ok true, h3).
Proof.
  assert (Hseed : SEED_BYTE_SIZE <= length (Buffer_from hex sampleSeed))
    by (vm_compute; lia).
  destruct (generateKeysFromSeed_run sampleFromArray sampleSha256 sampleHmacSha256 sampleStringify
              decimal hex hex (Fcharset hex) sampleSeed (Some 0%Z) [] Hseed) as (kp & E & _).
  eexists kp, _. split; [exact E|].
  apply (sign_then_verify sampleFromArray sampleSha256 sampleHmacSha256 sampleRandomBytes
           sampleStringify sampleParse decimal hex hex hex_lossless
           (sampleSha256_digest hex) (sampleHmacSha256_digest hex hex)
           sampleRandomBytes_size (Fcharset hex) Fobject "hello world" kp [] _).
  - exact (from_toString hex hex_lossless).
  - exact I.
  - right. exists sampleSeed, (Some 0%Z). exact E.
Defined.

(** The private entries derived from the sample seed, as an array of the
    caller under the ['object'] key format. *)
Lemma sign_selects_entries_witness :
  let digest := Buffer_from hex (sampleSha256 "hello world" hex) in
  dense Fobject sampleKeyStore (RArr 0) /\
  decodeKey sampleParse Fobject hex (RArr 0) sampleKeyStore
  = (Ok (RArr 0), sampleKeyStore) /\
  messageBits sampleSha256 hex "hello world"
  = bytesToBits digest ++ msbFirstBits (zeroCount (bytesToBits digest) mod 256) /\
  exists sigs (e : list byte) h',
    sign sampleFromArray sampleSha256 sampleStringify sampleParse Fobject Fbuffer hex
      "hello world" (RArr 0) sampleKeyStore = (Ok e, h') /\
    encodes sampleStringify hex Fbuffer h' e sigs /\
    (forall k entry,
       sigs !! k = Some entry <->
       exists i, messageBits sampleSha256 hex "hello world" !! i = Some 1%Z /\
                 popcount (take i (messageBits sampleSha256 hex "hello world")) = k /\
                 samplePrivs !! i = Some entry) /\
    length sigs = popcount (messageBits sampleSha256 hex "hello world").
Proof.
  intros digest.
  assert (Hdense : dense Fobject sampleKeyStore (RArr 0))
    by exact (dense_strings sampleKeyStore 0 samplePrivs eq_refl).
  assert (E : decodeKey sampleParse Fobject hex (RArr 0) sampleKeyStore
              = (Ok (RArr 0), sampleKeyStore)) by (vm_compute; reflexivity).
  split; [exact Hdense|]. split; [exact E|].
  destruct (sign_selects_entries sampleFromArray sampleSha256 sampleStringify sampleParse hex
              hex_lossless (sampleSha256_digest hex) Fobject Fbuffer "hello world"
              (RArr 0) sampleKeyStore (RArr 0) sampleKeyStore Hdense E)
    as (l & privs & sigs & Hr & Hl & _ & Hbits & _ & _ & _ & (e & h' & Es & He)
        & Hsel & Hlen & _).
  injection Hr as <-.
  assert (Hprivs : privs = samplePrivs).
  { apply strings_inj. change (sampleKeyStore !! 0) with (Some (strings samplePrivs)) in Hl.
    congruence. }
  subst privs.
  split; [exact Hbits|].
  exists sigs, e, h'. auto.
Defined.

Lemma checksum_is_zero_count_mod_256_witness :
  length (replicate 256 0%Z) = 256 /\
  Forall isBit (replicate 256 0%Z) /\
  zeroCount (replicate 256 0%Z) = 256%Z /\
  appendChecksum (replicate 256 0%Z) = replicate 256 0%Z ++ replicate 8 0%Z.
Proof.
  assert (Hbits : Forall isBit (replicate 256 0%Z)) by (apply Forall_replicate; now left).
  split; [reflexivity|]. split; [exact Hbits|].
  assert (Hcount : zeroCount (replicate 256 0%Z) = 256%Z) by (vm_compute; reflexivity).
  split; [exact Hcount|].
  destruct (checksum_is_zero_count_mod_256 sampleSha256 hex (replicate 256 0%Z)
              eq_refl Hbits) as (_ & _ & _ & _ & Hall & _).
  exact (Hall Hcount).
Defined.

Lemma generateKeysFromSeed_derivation_witness :
  SEED_BYTE_SIZE <= length (Buffer_from hex sampleSeed) /\
  (0 <= 7)%Z /\
  exists privs pubs : list string,
    privs !! 5 = Some (sampleHmacSha256 sampleSeed hex "7-5" hex) /\
    pubs !! 5 = Some (sampleSha256 (sampleHmacSha256 sampleSeed hex "7-5" hex) hex) /\
    exists kp h',
      generateKeysFromSeed sampleFromArray sampleSha256 sampleHmacSha256 sampleStringify decimal
        Fbuffer hex hex sampleSeed (Some 7%Z) [] = (Ok kp, h') /\
      encodes sampleStringify hex Fbuffer h' (privateKey kp) privs /\
      encodes sampleStringify hex Fbuffer h' (publicKey kp) pubs.
Proof.
  assert (Hseed : SEED_BYTE_SIZE <= length (Buffer_from hex sampleSeed))
    by (vm_compute; lia).
  assert (Hindex : (0 <= 7)%Z) by lia.
  split; [exact Hseed|]. split; [exact Hindex|].
  destruct (generateKeysFromSeed_derivation sampleFromArray sampleSha256 sampleHmacSha256
              sampleStringify decimal hex hex Fbuffer sampleSeed 7%Z Hseed Hindex)
    as (privs & pubs & _ & _ & Hentry & Hrun & _).
  assert (H5 : 5 < KEY_SIG_ENTRY_COUNT) by (unfold KEY_SIG_ENTRY_COUNT; lia).
  destruct (Hentry 5 H5) as [Hpriv Hpub]. rewrite Hpriv in Hpub.
  exists privs, pubs. split; [exact Hpriv|]. split; [exact Hpub|]. apply Hrun.
Defined.



(** A generated key pair, signatures as buffers: the signature of the
    message followed by one more entry is accepted. *)
Lemma verify_entry_count_witness :
  exists kp h1,
    generateKeys sampleFromArray sampleSha256 sampleRandomBytes sampleStringify Fbuffer hex []
    = (Ok kp, h1) /\
    exists privs,
      encodes sampleStringify hex Fbuffer h1 (privateKey kp) privs /\
      let sigs := entriesAtOneBits (messageBits sampleSha256 hex "hello world") privs in
      exists h',
        verify sampleSha256 sampleParse Fbuffer Fbuffer hex "hello world"
          (entriesToBuffer hex (sigs ++ [zeroEntry])) (publicKey kp) h1
        = (Ok true, h').
Proof.
  destruct (generateKeys_run sampleFromArray sampleSha256 sampleRandomBytes sampleStringify
              hex Fbuffer [])
    as (kp & E & _).
  match type of E with _ = (_, ?h) => set (h1 := h) in * end.
  exists kp, h1. split; [exact E|].
  destruct (verify_entry_count sampleFromArray sampleSha256 sampleHmacSha256 sampleRandomBytes
              sampleStringify sampleParse decimal hex hex hex_lossless
              (sampleSha256_digest hex) (sampleHmacSha256_digest hex hex)
              sampleRandomBytes_size Fbuffer Fbuffer "hello world" kp [] h1
              I I (or_introl E))
    as (privs & Hlen & Hcan & Hp & _ & _ & Hcount & Hverify).
  exists privs. split; [exact Hp|]. intros sigs.
  assert (Hcanonical : Forall (canonical hex) (sigs ++ [zeroEntry])).
  { apply Forall_app. split.
    - apply entriesAtOneBits_Forall. exact Hcan.
    - constructor; [|constructor]. exists (replicate 32 x00). split; reflexivity. }
  assert (Hbound : length (sigs ++ [zeroEntry]) <= KEY_SIG_ENTRY_COUNT).
  { rewrite length_app. fold sigs in Hcount. rewrite Hcount.
    vm_compute. lia. }
  pose proof (decodeSignature_encodes sampleStringify sampleParse hex hex_lossless
                Fbuffer h1 (entriesToBuffer hex (sigs ++ [zeroEntry])) _ I eq_refl
                Hbound Hcanonical) as Hdecode.
  destruct (Hverify h1 _ _ _ (reflexivity h1) Hdecode) as (b & h' & Ev & _ & Hextra & _).
  exists h'. rewrite Ev. now rewrite (Hextra [zeroEntry] eq_refl).
Defined.

(** ** The round trip and the letter case of hex entries *)



(** ** Runs of generate, sign and verify *)

Example run_valid_signature :
  sampleRun (fun s => s) "hello world" "hello world" = Some true.
Proof. vm_compute. reflexivity. Qed.

Example run_other_message :
  sampleRun (fun s => s) "hello world" "different message" = Some false.
Proof. vm_compute. reflexivity. Qed.

Example run_entry_appended :
  sampleRun (fun s => s ++ replicate 32 x00) "hello world" "hello world" = Some true.
Proof. vm_compute. reflexivity. Qed.

Example run_entry_removed :
  sampleRun (fun s => take (length s - 32) s) "hello world" "hello world" = Some false.
Proof. vm_compute. reflexivity. Qed.

Example run_malformed_signature :
  sampleRun (fun s => s ++ [x00]) "hello world" "hello world" = Some false.
Proof. vm_compute. reflexivity. Qed.

Example run_short_seed :
  fst (generateKeysFromSeed sampleFromArray sampleSha256 sampleHmacSha256 sampleStringify decimal
         Fbuffer hex hex "00ff" None []) = Throw SeedTooShort.
Proof. vm_compute. reflexivity. Qed.

(** [verify] under the ['object'] formats on the arrays of the caller: the
    caller's arrays are as before, and the copy of the signature, the
    third array of the store, has been reversed and popped once. *)
Example run_keeps_caller_arrays :
  let run := verify sampleSha256 sampleParse Fobject Fobject hex "hello world"
               (RArr 0) (RArr 1) callerStore in
  fst run = Ok false /\
  snd run !! 0 = callerStore !! 0 /\
  snd run !! 1 = callerStore !! 1 /\
  snd run !! 2 = Some (strings [zeroEntry]).
Proof. vm_compute. auto. Qed.

(** The signature [[ , ]] with a key of 264 zero entries, by evaluation:
    [verify] throws, and the arrays of the caller are as before. *)
Example run_sparse_signature :
  let run := verify sampleSha256 sampleParse Fobject Fobject hex "hello world"
               (RArr 0) (RArr 2) sparseStore in
  fst run = Throw TypeError /\
  snd run !! 0 = sparseStore !! 0 /\
  snd run !! 2 = sparseStore !! 2.
Proof. vm_compute. auto. Qed.

(** The key [new Array(264)] under the ['object'] formats: it passes the
    validation, and [sign] returns an empty signature. *)
Example run_sparse_key :
  decodeKey sampleParse Fobject hex (RArr 1) sparseStore = (Ok (RArr 1), sparseStore) /\
  sign sampleFromArray sampleSha256 sampleStringify sampleParse Fobject Fobject hex
    "hello world" (RArr 1) sparseStore
  = (Ok (RArr 3), sparseStore ++ [[]]).
Proof. vm_compute. auto. Qed.

(** On arrays without a hole whose entries decode, the loop of [verify]
    runs and agrees with the forward-cursor reference: a rejection on the
    arrays of the caller, an acceptance on a generated key pair. *)
Example run_forward_cursor_rejects :
  fst (verify sampleSha256 sampleParse Fobject Fobject hex "hello world"
         (RArr 0) (RArr 1) callerStore) = Ok false /\
  verifyReference sampleSha256 sampleParse hex Fobject Fobject "hello world"
    (RArr 0) (RArr 1) callerStore = false.
Proof. vm_compute. auto. Qed.

Example run_forward_cursor_accepts :
  match generateKeysFromSeed sampleFromArray sampleSha256 sampleHmacSha256 sampleStringify
          decimal Fbuffer hex hex sampleSeed (Some 0%Z) [] with
  | (Ok kp, h1) =>
      match sign sampleFromArray sampleSha256 sampleStringify sampleParse Fbuffer Fbuffer
              hex "hello world" (privateKey kp) h1 with
      | (Ok signature, h2) =>
          fst (verify sampleSha256 sampleParse Fbuffer Fbuffer hex "hello world"
                 signature (publicKey kp) h2) = Ok true /\
          verifyReference sampleSha256 sampleParse hex Fbuffer Fbuffer "hello world"
            signature (publicKey kp) h2 = true
      | (Throw _, _) => False
      end
  | (Throw _, _) => False
  end.
Proof. vm_compute. auto. Qed.

(** [reverse] is in place: applied to the caller's array itself, it would
    change it. *)
Example run_reverse_in_place :
  snd (Array_reverse (RArr 0) callerStore) !! 0 = Some (strings [zeroEntry; upperHexEntry]).
Proof. vm_compute. reflexivity. Qed.

(** * The further properties on concrete inputs *)

(** Each property above that rests on an assumption, applied to the
    sample collaborators and the encoding [hex]. *)

Lemma samplePrivs_canonical : Forall (canonical hex) samplePrivs.
Proof.
  unfold samplePrivs, seedEntries. apply Forall_fmap, Forall_forall. intros i _.
  apply sampleHmacSha256_digest.
Qed.

Lemma checksum_separates_messages_witness :
  messageBits sampleSha256 hex "hello world"
  <> messageBits sampleSha256 hex "different message" /\
  ((exists i, messageBits sampleSha256 hex "hello world" !! i = Some 1%Z /\
              messageBits sampleSha256 hex "different message" !! i = Some 0%Z) \/
   messageBits sampleSha256 hex "hello world" = replicate KEY_SIG_ENTRY_COUNT 0%Z).
Proof.
  assert (Hne : messageBits sampleSha256 hex "hello world"
                <> messageBits sampleSha256 hex "different message").
  { apply (bool_decide_unpack _). vm_compute. exact I. }
  split; [exact Hne|].
  exact (checksum_separates_messages sampleSha256 hex hex_lossless
           (sampleSha256_digest hex) "hello world" "different message" Hne).
Defined.

(** The private key [new Array(264)] under the ['object'] formats. *)
Lemma sign_at_most_256_entries_witness :
  decodeKey sampleParse Fobject hex (RArr 1) sparseStore = (Ok (RArr 1), sparseStore) /\
  exists key e h',
    sparseStore !! 1 = Some key /\
    sign sampleFromArray sampleSha256 sampleStringify sampleParse Fobject Fobject hex
      "hello world" (RArr 1) sparseStore = (Ok e, h') /\
    encodes sampleStringify hex Fobject h' e
      (heldAtOneBits (messageBits sampleSha256 hex "hello world") key) /\
    length (heldAtOneBits (messageBits sampleSha256 hex "hello world") key) <= 256.
Proof.
  assert (E : decodeKey sampleParse Fobject hex (RArr 1) sparseStore
              = (Ok (RArr 1), sparseStore)) by (vm_compute; reflexivity).
  split; [exact E|].
  destruct (sign_at_most_256_entries sampleFromArray sampleSha256 sampleStringify
              sampleParse hex hex_lossless (sampleSha256_digest hex) Fobject Fobject
              "hello world" (RArr 1) sparseStore (RArr 1) sparseStore E)
    as (l & key & e & h' & [= <-] & Hl & Es & He & Hle & H256 & _).
  exists key, e, h'. split; [exact Hl|]. split; [exact Es|]. split; [exact He|].
  exact (Nat.le_trans _ _ _ Hle H256).
Defined.

Lemma sign_discloses_one_bit_entries_witness :
  decodeKey sampleParse Fobject hex (RArr 0) sampleKeyStore = (Ok (RArr 0), sampleKeyStore) /\
  NoDup samplePrivs /\
  exists (e : list byte) h' sigs,
    sign sampleFromArray sampleSha256 sampleStringify sampleParse Fobject Fbuffer hex
      "hello world" (RArr 0) sampleKeyStore = (Ok e, h') /\
    encodes sampleStringify hex Fbuffer h' e sigs /\
    forall i entry,
      samplePrivs !! i = Some entry ->
      (entry ∈ sigs <-> messageBits sampleSha256 hex "hello world" !! i = Some 1%Z).
Proof.
  assert (E : decodeKey sampleParse Fobject hex (RArr 0) sampleKeyStore
              = (Ok (RArr 0), sampleKeyStore)) by (vm_compute; reflexivity).
  assert (Hnd : NoDup samplePrivs) by (apply (bool_decide_unpack _); vm_compute; exact I).
  split; [exact E|]. split; [exact Hnd|].
  exact (sign_discloses_one_bit_entries sampleFromArray sampleSha256 sampleStringify sampleParse hex
           hex_lossless Fobject Fbuffer "hello world" (RArr 0) sampleKeyStore 0
           sampleKeyStore samplePrivs E eq_refl Hnd).
Defined.

Lemma verify_rejects_other_message_witness :
  exists kp h1,
    generateKeysFromSeed sampleFromArray sampleSha256 sampleHmacSha256 sampleStringify decimal
      Fbuffer hex hex sampleSeed (Some 0%Z) [] = (Ok kp, h1) /\
    NoDup (publicEntries sampleSha256 hex samplePrivs) /\
    exists signature h2 h3,
      sign sampleFromArray sampleSha256 sampleStringify sampleParse Fbuffer Fbuffer hex
        "hello world" (privateKey kp) h1 = (Ok signature, h2) /\
      verify sampleSha256 sampleParse Fbuffer Fbuffer hex
        "different message" signature (publicKey kp) h2 = (Ok false, h3).
Proof.
  assert (Hseed : SEED_BYTE_SIZE <= length (Buffer_from hex sampleSeed))
    by (vm_compute; lia).
  destruct (generateKeysFromSeed_run sampleFromArray sampleSha256 sampleHmacSha256 sampleStringify
              decimal hex hex Fbuffer sampleSeed (Some 0%Z) [] Hseed) as (kp & E & Hp & Hq).
  match type of E with _ = (_, ?h) => set (h1 := h) in * end.
  assert (Hnd : NoDup (publicEntries sampleSha256 hex samplePrivs))
    by (apply (bool_decide_unpack _); vm_compute; exact I).
  assert (Hne : messageBits sampleSha256 hex "hello world"
                <> messageBits sampleSha256 hex "different message")
    by (apply (bool_decide_unpack _); vm_compute; exact I).
  assert (Hone : exists i, messageBits sampleSha256 hex "different message" !! i = Some 1%Z)
    by (exists 1; vm_compute; reflexivity).
  exists kp, h1. split; [exact E|]. split; [exact Hnd|].
  exact (verify_rejects_other_message sampleFromArray sampleSha256 sampleStringify sampleParse hex
           hex_lossless (sampleSha256_digest hex) Fbuffer Fbuffer
           "hello world" "different message" kp h1 samplePrivs I I
           (seedEntries_length sampleHmacSha256 decimal hex hex sampleSeed 0)
           samplePrivs_canonical Hp Hq Hnd Hne Hone).
Defined.

(** The signature of a message under the generated key, verified under
    the key of 264 zero entries. *)
Lemma verify_reads_key_at_one_bits_witness :
  exists kp h1 privs,
    generateKeysFromSeed sampleFromArray sampleSha256 sampleHmacSha256 sampleStringify decimal
      Fbuffer hex hex sampleSeed (Some 0%Z) [] = (Ok kp, h1) /\
    encodes sampleStringify hex Fbuffer h1 (privateKey kp) privs /\
    encodes sampleStringify hex Fbuffer h1 zeroKeyBuffer zeroKey /\
    exists signature h2 b h3,
      sign sampleFromArray sampleSha256 sampleStringify sampleParse Fbuffer Fbuffer hex
        "hello world" (privateKey kp) h1 = (Ok signature, h2) /\
      verify sampleSha256 sampleParse Fbuffer Fbuffer hex
        "hello world" signature zeroKeyBuffer h2 = (Ok b, h3) /\
      (b = true <->
       forall i entry,
         messageBits sampleSha256 hex "hello world" !! i = Some 1%Z ->
         privs !! i = Some entry ->
         zeroKey !! i = Some (sampleSha256 entry hex)).
Proof.
  assert (Hseed : SEED_BYTE_SIZE <= length (Buffer_from hex sampleSeed))
    by (vm_compute; lia).
  destruct (generateKeysFromSeed_run sampleFromArray sampleSha256 sampleHmacSha256 sampleStringify
              decimal hex hex Fbuffer sampleSeed (Some 0%Z) [] Hseed) as (kp & E & Hp & _).
  match type of E with _ = (_, ?h) => set (h1 := h) in * end.
  assert (Hzero : encodes sampleStringify hex Fbuffer h1 zeroKeyBuffer zeroKey)
    by (vm_compute; reflexivity).
  assert (Hcan : Forall (canonical hex) zeroKey).
  { apply Forall_replicate. exists (replicate 32 x00). split; reflexivity. }
  exists kp, h1, samplePrivs. split; [exact E|]. split; [exact Hp|]. split; [exact Hzero|].
  exact (verify_reads_key_at_one_bits sampleFromArray sampleSha256 sampleStringify sampleParse hex
           hex_lossless (sampleSha256_digest hex) Fbuffer Fbuffer "hello world" kp
           zeroKeyBuffer h1 samplePrivs zeroKey I I
           (seedEntries_length sampleHmacSha256 decimal hex hex sampleSeed 0)
           samplePrivs_canonical Hp (length_replicate _ _) Hcan Hzero).
Defined.

Lemma getPublicKeyFromPrivateKey_generated_witness :
  exists kp h1,
    generateKeysFromSeed sampleFromArray sampleSha256 sampleHmacSha256 sampleStringify decimal
      (Fcharset hex) hex hex sampleSeed (Some 0%Z) [] = (Ok kp, h1) /\
    exists h2,
      getPublicKeyFromPrivateKey sampleFromArray sampleSha256 sampleStringify sampleParse
        (Fcharset hex) hex (privateKey kp) h1 = (Ok (publicKey kp), h2).
Proof.
  assert (Hseed : SEED_BYTE_SIZE <= length (Buffer_from hex sampleSeed))
    by (vm_compute; lia).
  destruct (generateKeysFromSeed_run sampleFromArray sampleSha256 sampleHmacSha256 sampleStringify
              decimal hex hex (Fcharset hex) sampleSeed (Some 0%Z) [] Hseed) as (kp & E & _).
  match type of E with _ = (_, ?h) => set (h1 := h) in * end.
  exists kp, h1. split; [exact E|].
  destruct (getPublicKeyFromPrivateKey_generated sampleFromArray sampleSha256 sampleHmacSha256
              sampleRandomBytes sampleStringify sampleParse decimal hex hex hex_lossless
              (sampleHmacSha256_digest hex hex) sampleRandomBytes_size
              (Fcharset hex) kp [] h1 (from_toString hex hex_lossless)
              (or_intror (ex_intro _ sampleSeed (ex_intro _ (Some 0%Z) E))))
    as (e & h2 & pubs & Eg & _ & _ & Heq).
  exists h2. rewrite Eg, Heq; [reflexivity | discriminate].
Defined.

Lemma generateSeed_is_accepted_witness :
  (forall b, Buffer_from hex (Buffer_toString hex b) = b) /\
  length (Buffer_from hex (generateSeed sampleRandomBytes hex)) = SEED_BYTE_SIZE /\
  exists kp h',
    generateKeysFromSeed sampleFromArray sampleSha256 sampleHmacSha256 sampleStringify decimal
      Fbuffer hex hex (generateSeed sampleRandomBytes hex) None [] = (Ok kp, h').
Proof.
  split; [exact (from_toString hex hex_lossless)|].
  exact (generateSeed_is_accepted sampleFromArray sampleSha256 sampleHmacSha256 sampleRandomBytes
           sampleStringify decimal hex hex sampleRandomBytes_size Fbuffer None []
           (from_toString hex hex_lossless)).
Defined.

Lemma decoded_arrays_pass_validation_witness :
  let run := decodeKey sampleParse Fbuffer hex zeroKeyBuffer sparseStore in
  run = (Ok (RArr 3), snd run) /\
  _validateRawKeyFormat hex (RArr 3) (snd run) = (Ok tt, snd run) /\
  decodeSignature sampleParse Fobject hex (RArr 0) sparseStore
  = (Ok (RArr 3), sparseStore ++ [[Some undefined]]) /\
  _validateRawSignatureFormat hex (RArr 3) (sparseStore ++ [[Some undefined]])
  = (Throw SignatureInvalidItems, sparseStore ++ [[Some undefined]]).
Proof.
  intros run.
  assert (E : run = (Ok (RArr 3), snd run)) by (vm_compute; reflexivity).
  assert (Es : decodeSignature sampleParse Fobject hex (RArr 0) sparseStore
               = (Ok (RArr 3), sparseStore ++ [[Some undefined]]))
    by (vm_compute; reflexivity).
  destruct (decoded_arrays_pass_validation sampleParse hex hex_lossless Fbuffer Fobject
              zeroKeyBuffer (RArr 0) sparseStore) as [Hkey Hsig].
  split; [exact E|]. split; [exact (Hkey (RArr 3) (snd run) E)|]. split; [exact Es|].
  destruct (Hsig _ _ Es) as (_ & _ & Hsparse).
  apply (Hsparse 0 [None]); [reflexivity | reflexivity | left].
Defined.

Lemma binary_decode_then_encode_witness :
  let run := decodeKey sampleParse Fbuffer hex zeroKeyBuffer [] in
  run = (Ok (RArr 0), snd run) /\
  encodeKey sampleFromArray sampleStringify Fbuffer hex (RArr 0) (snd run)
  = (Ok zeroKeyBuffer, snd run).
Proof.
  intros run.
  assert (E : run = (Ok (RArr 0), snd run)) by (vm_compute; reflexivity).
  split; [exact E|].
  destruct (binary_decode_then_encode sampleFromArray sampleStringify sampleParse hex hex_lossless
              [] (RArr 0) (snd run)) as [Hbuffer _].
  destruct (Hbuffer zeroKeyBuffer) as [Hkey _].
  exact (Hkey E).
Defined.

Lemma generated_keys_decode_witness :
  exists kp h1,
    generateKeys sampleFromArray sampleSha256 sampleRandomBytes sampleStringify (Fcharset hex)
      hex []
    = (Ok kp, h1) /\
    exists privs l h2 l' h3,
      length privs = KEY_SIG_ENTRY_COUNT /\
      decodeKey sampleParse (Fcharset hex) hex (privateKey kp) h1 = (Ok (RArr l), h2) /\
      h2 !! l = Some (strings privs) /\
      decodeKey sampleParse (Fcharset hex) hex (publicKey kp) h2 = (Ok (RArr l'), h3) /\
      h3 !! l' = Some (strings (publicEntries sampleSha256 hex privs)).
Proof.
  destruct (generateKeys_run sampleFromArray sampleSha256 sampleRandomBytes sampleStringify hex
              (Fcharset hex) []) as (kp & E & _).
  match type of E with _ = (_, ?h) => set (h1 := h) in * end.
  exists kp, h1. split; [exact E|].
  exact (generated_keys_decode sampleFromArray sampleSha256 sampleHmacSha256 sampleRandomBytes
           sampleStringify sampleParse decimal hex hex hex_lossless
           (sampleSha256_digest hex) (sampleHmacSha256_digest hex hex)
           sampleRandomBytes_size (Fcharset hex) kp [] h1
           (from_toString hex hex_lossless) (or_introl E)).
Defined.

Lemma signature_of_generated_key_decodes_witness :
  exists kp h1,
    generateKeys sampleFromArray sampleSha256 sampleRandomBytes sampleStringify Fbuffer hex []
    = (Ok kp, h1) /\
    exists signature h2 sigs,
      sign sampleFromArray sampleSha256 sampleStringify sampleParse Fbuffer (Fcharset hex) hex
        "hello world" (privateKey kp) h1 = (Ok signature, h2) /\
      decodeSignature sampleParse (Fcharset hex) hex signature h2
      = (Ok (RArr (length h2)), h2 ++ [strings sigs]) /\
      length sigs <= 256.
Proof.
  destruct (generateKeys_run sampleFromArray sampleSha256 sampleRandomBytes sampleStringify hex
              Fbuffer []) as (kp & E & _).
  match type of E with _ = (_, ?h) => set (h1 := h) in * end.
  exists kp, h1. split; [exact E|].
  destruct (signature_of_generated_key_decodes sampleFromArray sampleSha256 sampleHmacSha256
              sampleRandomBytes sampleStringify sampleParse decimal hex hex hex_lossless
              (sampleSha256_digest hex) (sampleHmacSha256_digest hex hex)
              sampleRandomBytes_size Fbuffer (Fcharset hex) "hello world" kp [] h1
              I (from_toString hex hex_lossless) (or_introl E))
    as (signature & h2 & sigs & Es & Ed & _ & Hle & _).
  exists signature, h2, sigs. auto.
Defined.

Lemma buffer_sizes_witness :
  exists (kp : KeyPair Fbuffer) h1,
    generateKeys sampleFromArray sampleSha256 sampleRandomBytes sampleStringify Fbuffer hex []
    = (Ok kp, h1) /\
    length (privateKey kp : list byte) = KEY_SIG_ENTRY_COUNT * HASH_ELEMENT_BYTE_SIZE /\
    length (publicKey kp : list byte) = KEY_SIG_ENTRY_COUNT * HASH_ELEMENT_BYTE_SIZE /\
    exists (signature : list byte) h2,
      sign sampleFromArray sampleSha256 sampleStringify sampleParse Fbuffer Fbuffer hex
        "hello world" (privateKey kp) h1 = (Ok signature, h2) /\
      length signature
      = popcount (messageBits sampleSha256 hex "hello world") * HASH_ELEMENT_BYTE_SIZE.
Proof.
  destruct (generateKeys_run sampleFromArray sampleSha256 sampleRandomBytes sampleStringify hex
              Fbuffer []) as (kp & E & _).
  match type of E with _ = (_, ?h) => set (h1 := h) in * end.
  exists kp, h1. split; [exact E|].
  destruct (buffer_sizes sampleFromArray sampleSha256 sampleHmacSha256 sampleRandomBytes
              sampleStringify sampleParse decimal hex hex hex_lossless
              (sampleSha256_digest hex) (sampleHmacSha256_digest hex hex)
              sampleRandomBytes_size "hello world" kp [] h1 (or_introl E))
    as (Hp & Hq & signature & h2 & Es & Hlen & _).
  split; [exact Hp|]. split; [exact Hq|].
  exists signature, h2. split; [exact Es | exact Hlen].
Defined.

Lemma seedMessage_injective_witness :
  seedMessage decimal 3 5 = seedMessage decimal 3 5 /\ (3%Z = 3%Z /\ 5 = 5).
Proof.
  split; [reflexivity|].
  apply (seedMessage_injective decimal 3 3 5 5).
  - exact decimal_no_dash.
  - intros m n _ _. apply decimal_inj.
  - lia.
  - lia.
  - reflexivity.
Defined.

(** A check by computation that every 1-bit position of [c] is one of [a]
    or of [b]. *)
Lemma bits_covered_check (a b c : list Z) :
  forallb (fun i => implb (bool_decide (c !! i = Some 1%Z))
                          (bool_decide (a !! i = Some 1%Z)
                           || bool_decide (b !! i = Some 1%Z)))
          (seq 0 (length c)) = true ->
  forall i, c !! i = Some 1%Z -> a !! i = Some 1%Z \/ b !! i = Some 1%Z.
Proof.
  intros Hcheck i Hi. rewrite forallb_forall in Hcheck.
  assert (Hin : In i (seq 0 (length c))).
  { apply in_seq. split; [lia|]. simpl. eapply lookup_lt_Some; eauto. }
  specialize (Hcheck i Hin). rewrite (bool_decide_eq_true_2 _ Hi) in Hcheck.
  simpl in Hcheck. apply orb_prop in Hcheck as [H | H]; apply bool_decide_eq_true in H; auto.
Qed.

(** Three messages of 32 characters: the 1-bit positions of the third
    are among those of the first two, checksum included. *)
Lemma two_signatures_cover_a_third_witness :
  let m1 := string_of_list_byte (replicate 32 x55) in
  let m2 := string_of_list_byte (replicate 32 x2a) in
  let m3 := string_of_list_byte (replicate 32 x7f) in
  let run := decodeKey sampleParse Fbuffer hex zeroKeyBuffer [] in
  run = (Ok (RArr 0), snd run) /\
  messageBits sampleSha256 hex m3 <> messageBits sampleSha256 hex m1 /\
  messageBits sampleSha256 hex m3 <> messageBits sampleSha256 hex m2 /\
  exists sigs1 sigs2 sigs3,
    (exists (e : list byte) h',
       sign sampleFromArray sampleSha256 sampleStringify sampleParse Fbuffer Fbuffer hex
         m1 zeroKeyBuffer [] = (Ok e, h') /\
       encodes sampleStringify hex Fbuffer h' e sigs1) /\
    (exists (e : list byte) h',
       sign sampleFromArray sampleSha256 sampleStringify sampleParse Fbuffer Fbuffer hex
         m2 zeroKeyBuffer [] = (Ok e, h') /\
       encodes sampleStringify hex Fbuffer h' e sigs2) /\
    (exists (e : list byte) h',
       sign sampleFromArray sampleSha256 sampleStringify sampleParse Fbuffer Fbuffer hex
         m3 zeroKeyBuffer [] = (Ok e, h') /\
       encodes sampleStringify hex Fbuffer h' e sigs3) /\
    forall entry, entry ∈ sigs3 -> entry ∈ sigs1 \/ entry ∈ sigs2.
Proof.
  intros m1 m2 m3 run.
  assert (E : run = (Ok (RArr 0), snd run)) by (vm_compute; reflexivity).
  split; [exact E|].
  split; [apply (bool_decide_unpack _); vm_compute; exact I|].
  split; [apply (bool_decide_unpack _); vm_compute; exact I|].
  apply (two_signatures_cover_a_third sampleFromArray sampleSha256 sampleStringify
           sampleParse hex Fbuffer Fbuffer m1 m2 m3 zeroKeyBuffer [] (RArr 0) (snd run) E).
  apply bits_covered_check. vm_compute. reflexivity.
Defined.

Lemma one_signature_misses_an_entry_witness :
  decodeKey sampleParse Fobject hex (RArr 0) sampleKeyStore = (Ok (RArr 0), sampleKeyStore) /\
  NoDup samplePrivs /\
  exists sigs1 sigs3,
    (exists (e : list byte) h',
       sign sampleFromArray sampleSha256 sampleStringify sampleParse Fobject Fbuffer hex
         "hello world" (RArr 0) sampleKeyStore = (Ok e, h') /\
       encodes sampleStringify hex Fbuffer h' e sigs1) /\
    (exists (e : list byte) h',
       sign sampleFromArray sampleSha256 sampleStringify sampleParse Fobject Fbuffer hex
         "different message" (RArr 0) sampleKeyStore = (Ok e, h') /\
       encodes sampleStringify hex Fbuffer h' e sigs3) /\
    exists entry, entry ∈ sigs3 /\ entry ∉ sigs1.
Proof.
  assert (E : decodeKey sampleParse Fobject hex (RArr 0) sampleKeyStore
              = (Ok (RArr 0), sampleKeyStore)) by (vm_compute; reflexivity).
  assert (Hnd : NoDup samplePrivs) by (apply (bool_decide_unpack _); vm_compute; exact I).
  assert (Hne : messageBits sampleSha256 hex "different message"
                <> messageBits sampleSha256 hex "hello world")
    by (apply (bool_decide_unpack _); vm_compute; exact I).
  assert (Hone : exists i, messageBits sampleSha256 hex "different message" !! i = Some 1%Z)
    by (exists 1; vm_compute; reflexivity).
  split; [exact E|]. split; [exact Hnd|].
  exact (one_signature_misses_an_entry sampleFromArray sampleSha256 sampleStringify sampleParse hex
           hex_lossless (sampleSha256_digest hex) Fobject Fbuffer
           "hello world" "different message" (RArr 0) sampleKeyStore 0 sampleKeyStore
           samplePrivs E eq_refl Hnd Hne Hone).
Defined.

Lemma derived_public_key_verifies_witness :
  encodes sampleStringify hex Fbuffer [] zeroKeyBuffer zeroKey /\
  exists (publicKey : list byte) h1 (signature : list byte) h2 h3,
    getPublicKeyFromPrivateKey sampleFromArray sampleSha256 sampleStringify sampleParse Fbuffer hex
      zeroKeyBuffer [] = (Ok publicKey, h1) /\
    sign sampleFromArray sampleSha256 sampleStringify sampleParse Fbuffer Fbuffer hex
      "hello world" zeroKeyBuffer h1 = (Ok signature, h2) /\
    verify sampleSha256 sampleParse Fbuffer Fbuffer hex
      "hello world" signature publicKey h2 = (Ok true, h3).
Proof.
  assert (Hzero : encodes sampleStringify hex Fbuffer [] zeroKeyBuffer zeroKey)
    by (vm_compute; reflexivity).
  assert (Hcan : Forall (canonical hex) zeroKey).
  { apply Forall_replicate. exists (replicate 32 x00). split; reflexivity. }
  split; [exact Hzero|].
  exact (derived_public_key_verifies sampleFromArray sampleSha256 sampleStringify sampleParse hex
           hex_lossless (sampleSha256_digest hex) Fbuffer Fbuffer "hello world"
           zeroKeyBuffer [] zeroKey I I (length_replicate _ _) Hcan Hzero).
Defined.
